(** * EpicStore: a shallow embedding of the Ricochet dispatch engine

    The development follows [src/EpicStore.js].  JavaScript objects that are
    mutated and shared (compiled conditions, listeners) live in a heap and
    are referred to by their allocation index; string-keyed objects whose
    key order is observable through [Object.keys] are association lists in
    insertion order; exceptions and the store's mutable variables are
    threaded by a state-and-exception monad in which the mutations made
    before a [throw] stay visible afterwards.

    Where the source evaluates an identifier that no enclosing scope binds,
    the model throws the ReferenceError the language prescribes.

    Outside the model: types of dispatched actions and instance ids that
    are property names inherited from [Object.prototype] (the pump and the
    listener dispatch look their keys up as own properties), keys that are
    canonical array indices (which [Object.keys] lists before the others),
    strings beyond 8-bit characters, selectors that throw or that read
    arguments they do not declare, handlers that call back into the store,
    and RegExp syntax beyond the fragment of [Pattern].
    The accessors [getEpicUpdaters] and [getEpicListeners] are left
    out. *)

From Stdlib Require Import String Ascii List ZArith Bool Lia.
From stdpp Require Import base list.

Set Warnings "-register-all".

Open Scope string_scope.
Open Scope list_scope.

(** ** Wildcard patterns: [getRegexFromPattern] *)

Module Pattern.

(** The fragment of the RegExp syntax that the model interprets: an
    anchored sequence of single-character atoms, each with an optional
    quantifier.  Greedy and lazy quantifiers accept the same subjects under
    [RegExp.prototype.test], so laziness is parsed and dropped. *)
Inductive Atom := Dot | Lit (c : ascii).
Inductive Quant := One | Star | Plus | Opt.
Definition Regex := list (Atom * Quant).

Inductive Compiled :=
| Parsed (r : Regex)
| SyntaxErr            (* [new RegExp] throws a SyntaxError *)
| Unsupported.         (* valid or not, outside the modelled fragment *)

Definition is_quantifier (c : ascii) : bool :=
  (c =? "*")%char || (c =? "+")%char || (c =? "?")%char.

(** Characters with a meaning of their own in a RegExp source, the
    quantifiers and the dot apart. *)
Definition is_structural (c : ascii) : bool :=
  (c =? "\")%char || (c =? "^")%char || (c =? "$")%char || (c =? "|")%char ||
  (c =? "(")%char || (c =? ")")%char || (c =? "[")%char || (c =? "]")%char ||
  (c =? "{")%char || (c =? "}")%char.

Definition quant_of (c : ascii) : Quant :=
  if (c =? "*")%char then Star else if (c =? "+")%char then Plus else Opt.

Definition atom_of (c : ascii) : Atom :=
  if (c =? ".")%char then Dot else Lit c.

Definition cons_item (i : Atom * Quant) (r : Compiled) : Compiled :=
  match r with Parsed l => Parsed (i :: l) | other => other end.

(** The body of the source, after the leading [^]. *)
Fixpoint parse_items (src : string) : Compiled :=
  match src with
  | EmptyString => Unsupported                      (* no closing [$] *)
  | String c rest =>
      if (c =? "$")%char then
        match rest with EmptyString => Parsed [] | _ => Unsupported end
      else if is_quantifier c then SyntaxErr        (* nothing to repeat *)
      else if is_structural c then Unsupported
      else
        match rest with
        | String q rest' =>
            if is_quantifier q then
              match rest' with
              | String l rest'' =>
                  if (l =? "?")%char
                  then cons_item (atom_of c, quant_of q) (parse_items rest'')
                  else cons_item (atom_of c, quant_of q) (parse_items rest')
              | EmptyString =>
                  cons_item (atom_of c, quant_of q) (parse_items rest')
              end
            else cons_item (atom_of c, One) (parse_items rest)
        | EmptyString => cons_item (atom_of c, One) (parse_items rest)
        end
  end.

(** [new RegExp(src)] *)
Definition RegExp (src : string) : Compiled :=
  match src with
  | String c rest => if (c =? "^")%char then parse_items rest else Unsupported
  | EmptyString => Unsupported
  end.

(** [pattern.replace(/\*/g, '.*?')] *)
Fixpoint replace_stars (pattern : string) : string :=
  match pattern with
  | EmptyString => EmptyString
  | String c rest =>
      if (c =? "*")%char then ".*?" ++ replace_stars rest
      else String c (replace_stars rest)
  end.

Definition getRegexFromPattern (pattern : string) : Compiled :=
  RegExp ("^" ++ replace_stars pattern ++ "$").

(** [/\*/.test(type)] *)
Fixpoint has_star (type : string) : bool :=
  match type with
  | EmptyString => false
  | String c rest => (c =? "*")%char || has_star rest
  end.

(** Without the [s] flag the dot refuses the line terminators. *)
Definition atom_accepts (a : Atom) (c : ascii) : bool :=
  match a with
  | Dot => negb ((c =? "010")%char || (c =? "013")%char)
  | Lit d => (c =? d)%char
  end.

Fixpoint repeat_then (a : Atom) (k : string -> bool) (s : string) : bool :=
  k s || match s with
         | EmptyString => false
         | String c s' => atom_accepts a c && repeat_then a k s'
         end.

(** Whole-subject match of an anchored regex. *)
Fixpoint matches (r : Regex) : string -> bool :=
  match r with
  | [] => fun s => match s with EmptyString => true | _ => false end
  | (a, q) :: r' =>
      let k := matches r' in
      match q with
      | One => fun s =>
          match s with
          | String c s' => atom_accepts a c && k s'
          | EmptyString => false
          end
      | Star => repeat_then a k
      | Plus => fun s =>
          match s with
          | String c s' => atom_accepts a c && repeat_then a k s'
          | EmptyString => false
          end
      | Opt => fun s =>
          k s || match s with
                 | String c s' => atom_accepts a c && k s'
                 | EmptyString => false
                 end
      end
  end.

(** Outcome of [getRegexFromPattern(pattern).test(type)]. *)
Inductive Outcome := Answers (b : bool) | Throws | Unmodelled.

Definition pattern_test (pattern type : string) : Outcome :=
  match getRegexFromPattern pattern with
  | Parsed r => Answers (matches r type)
  | SyntaxErr => Throws
  | Unsupported => Unmodelled
  end.

(** The reading of a pattern in which [*] is the only character with a
    meaning of its own: [*] stands for what [.*?] accepts and every other
    character for itself. *)
Definition wildcard_item (c : ascii) : Atom * Quant :=
  if (c =? "*")%char then (Dot, Star) else (Lit c, One).

Fixpoint wildcard_items (pattern : string) : Regex :=
  match pattern with
  | EmptyString => []
  | String c rest => wildcard_item c :: wildcard_items rest
  end.

Definition wildcard_match (pattern type : string) : bool :=
  matches (wildcard_items pattern) type.

(** Patterns made of [*] and of characters the RegExp syntax reads
    literally. *)
Fixpoint plain (pattern : string) : bool :=
  match pattern with
  | EmptyString => true
  | String c rest =>
      ((c =? "*")%char ||
       negb (is_structural c || is_quantifier c || (c =? ".")%char))
      && plain rest
  end.

(** The reading of a pattern in which [*] stands for what [.*?] accepts,
    the dot for what it accepts in a regex, and every other character for
    itself. *)
Definition dotted_item (c : ascii) : Atom * Quant :=
  if (c =? "*")%char then (Dot, Star) else (atom_of c, One).

Fixpoint dotted_items (pattern : string) : Regex :=
  match pattern with
  | EmptyString => []
  | String c rest => dotted_item c :: dotted_items rest
  end.

(** Patterns made of [*], of dots and of characters the RegExp syntax
    reads literally. *)
Fixpoint dotted (pattern : string) : bool :=
  match pattern with
  | EmptyString => true
  | String c rest =>
      ((c =? "*")%char || negb (is_structural c || is_quantifier c))
      && dotted rest
  end.

End Pattern.

(** ** The frozen value layer

    [./Frozen] is not among the sources.  Its operations are taken as
    parameters: the values handled by the engine, the [initialValue]
    sentinel, [freeze], [unfreeze] and [merge], together with what the
    language itself provides on values ([undefined], [===], truthiness, and
    the object that carries the changed states of an instanced Epic). *)

Inductive MergeResult (V : Type) :=
| Merged (updated undoChange redoChange : V)
| MergeError                     (* [merge] throws [MERGE_ERROR] *)
| MergeThrows (e : V).           (* [merge] throws anything else *)
Arguments Merged {V}.
Arguments MergeError {V}.
Arguments MergeThrows {V}.

Class Frozen := {
  val : Type;
  undefined : val;
  initialValue : val;
  strict_eq : val -> val -> bool;
  truthy : val -> bool;
  freeze : val -> val;
  unfreeze : val -> val;
  merge : val -> val -> MergeResult val;
  object_of : list (string * val) -> option val -> val;
  object_truthy : forall l d, truthy (object_of l d) = true
}.

(** ** Objects keyed by strings *)

Section Obj.
Context {V : Type}.

Definition obj := list (string * V).

Fixpoint obj_get (o : obj) (k : string) : option V :=
  match o with
  | [] => None
  | (k', v) :: o' => if String.eqb k k' then Some v else obj_get o' k
  end.

(** [o[k] = v]: an existing key keeps its place, a new one goes last. *)
Fixpoint obj_set (k : string) (v : V) (o : obj) : obj :=
  match o with
  | [] => [(k, v)]
  | (k', v') :: o' =>
      if String.eqb k k' then (k, v) :: o' else (k', v') :: obj_set k v o'
  end.

Definition obj_keys (o : obj) : list string := map fst o.

Definition obj_has (o : obj) (k : string) : bool :=
  match obj_get o k with Some _ => true | None => false end.
End Obj.
Arguments obj V : clear implicits.

(** The property names that an object written [{}] inherits
    from [Object.prototype].  Under such a name, and without a property of
    its own, [o[k]] is a function or, for [__proto__], the prototype:
    truthy, and no array. *)
Definition inherited (k : string) : bool :=
  existsb (String.eqb k)
    ["constructor"; "hasOwnProperty"; "isPrototypeOf";
     "propertyIsEnumerable"; "toLocaleString"; "toString"; "valueOf";
     "__proto__"; "__defineGetter__"; "__defineSetter__";
     "__lookupGetter__"; "__lookupSetter__"].

(** Instance ids: the property names of [epic.instances], or the symbol
    [defaultEpicInstanceKey]. *)
Inductive InstKey := DefaultKey | IdKey (id : string).

#[export] Instance InstKey_eq_dec : EqDecision InstKey.
Proof. intros a b. unfold Decision. decide equality. apply string_dec. Defined.

(** An object with string keys and, possibly, a property under
    [defaultEpicInstanceKey]. *)
Record Keyed (V : Type) := { named : obj V; dflt : option V }.
Arguments named {V}.
Arguments dflt {V}.

Definition keyed_empty {V} : Keyed V := {| named := []; dflt := None |}.

Definition keyed_get {V} (o : Keyed V) (k : InstKey) : option V :=
  match k with
  | DefaultKey => dflt o
  | IdKey id => obj_get (named o) id
  end.

Definition keyed_set {V} (k : InstKey) (v : V) (o : Keyed V) : Keyed V :=
  match k with
  | DefaultKey => {| named := named o; dflt := Some v |}
  | IdKey id => {| named := obj_set id v (named o); dflt := dflt o |}
  end.

(** A string used as a condition: the empty string is falsy. *)
Definition truthy_string (s : option string) : option string :=
  match s with
  | Some EmptyString => None
  | other => other
  end.

(** ** Data model *)

Section Model.
Context {F : Frozen}.

(** Error codes of [./Errors], which is not among the sources.
    Modelled from the spec: the Errors module ([error], [makeError]); the
    spec lists the codes and says that each carries contextual
    identifiers, which the model leaves out. *)
Inductive ErrCode :=
| duplicateEpic | invalidConditionType | invalidConditionSelector
| noPassiveUpdaters | invalidHandlerUpdate | invalidEpicAction
| noRepeatedExternalAction | noDispatchInEpicListener.

(** What a [throw] can carry. *)
Inductive Exn :=
| ReferenceError (name : string)     (* an identifier bound nowhere *)
| TypeError
| SyntaxError
| Invariant (code : ErrCode)         (* thrown by [invariant] *)
| Thrown (v : val)                   (* thrown by user code *)
| ErrorList (l : list Exn).          (* an array of caught errors *)

(** What [if (e)] and [!e] see in a caught value. *)
Definition exn_truthy (e : Exn) : bool :=
  match e with
  | Thrown v => truthy v
  | _ => true
  end.

Record Action := {
  a_type : string;
  a_payload : val;                   (* [undefined] when absent *)
  a_target : option string
}.

(** Argument of [dispatch] and element of [handlerUpdate.actions]. *)
Inductive ActionIn := ActStr (type : string) | ActObj (a : Action).

(** A compiled condition, as left by [processCondition]. *)
Record Condition := {
  cond_type : string;
  cond_selector : val -> string -> val;
  cond_value : val;
  cond__value : option val;          (* own property [_value], if any *)
  cond_passive : bool;
  cond_required : bool;
  cond_id : option string;
  cond_target : option string;
  cond_matchedPattern : bool
}.

(** The [selector] property of a condition handed to the store. *)
Inductive InSelector :=
| NoSelector                         (* absent or falsy *)
| NotAFunction                       (* truthy, [typeof] not 'function' *)
| Selector (f : val -> string -> val).
                                     (* a function that reads no argument
                                        but those it declares *)

Record InObj := {
  in_type : option string;           (* [None]: [typeof type] not 'string' *)
  in_selector : InSelector;
  in_value : option val;             (* own property [value], if any *)
  in_passive : bool;
  in_required : bool;
  in_id : option string;
  in_target : option string
}.

(** A condition handed to the store: a string, an object or an array. *)
Inductive InCond :=
| InStr (type : string)
| InCondObj (o : InObj)
| InArr (alternatives : list InCond).

(** What [processCondition] returns: a compiled condition object, by its
    heap address, or an array of that. *)
Inductive CondRef :=
| Ref (address : nat)
| Arr (items : list CondRef).

Record HandlerUpdate := {
  hu_state : option val;             (* own property [state], if any *)
  hu_scope : option val;
  hu_actions : option (list ActionIn);
  hu_passive : bool
}.

Record HandlerCtx := {
  ctx_state : val;
  ctx_currentCycleState : val;
  ctx_scope : val;
  ctx_currentCycleScope : val;
  ctx_sourceAction : option Action;
  ctx_currentAction : Action
}.

Inductive HandlerResult := Returns (u : HandlerUpdate) | Raises (e : Exn).

Definition Handler := list val -> HandlerCtx -> HandlerResult.

(** A listener's handler: [None] when it returns, [Some e] when it throws. *)
Definition ListenerHandler := list val -> option Action -> option Exn.

Record Updater := {
  u_epic : string;
  u_handler : Handler;
  u_conditions : list CondRef;
  u_index : nat
}.

(** The part an Epic shares with each of its instances. *)
Record Instance := {
  state : val;
  scope : val;
  _state : option val;               (* own property [_state], if any *)
  _scope : option val
}.

Record Epic := {
  epic_self : Instance;
  epic_updaters : list (list Updater);
  epic_instances : option (obj Instance)
}.

Record Listener := {
  l_conditions : list CondRef;
  l_handler : ListenerHandler;
  l_processed : bool
}.

(** One entity of one instance in an undo entry: [{undo, redo}]. *)
Record Change := { ch_undo : val; ch_redo : val }.

(** [undoEntry[epicName][id][entity]] *)
Definition UndoEntry := obj (Keyed (obj Change)).

(** [epicCache[epicName][id]] *)
Definition EpicCache := obj (Keyed val).

(** [listeners[type][target]], an array of listener addresses. *)
Definition ListenerIndex := obj (Keyed (list nat)).

(** A handler invocation, recorded in the order of the calls. *)
Inductive Call :=
| UpdaterCall (epicName : string) (index : nat) (id : InstKey)
              (params : list val)
| ListenerCall (address : nat) (params : list val).

Record Options := {
  debug : bool;
  patterns : bool;
  undo : bool;
  maxUndoStack : Z
}.

(** Everything [createStore] closes over. *)
Record Store := {
  options : Options;
  conditions : list Condition;       (* heap of condition objects *)
  listeners : list Listener;         (* heap of listener objects *)
  epicRegistry : obj Epic;
  updaterRegistry : obj (list Updater);
  patternRegistry : obj (list Updater);
  epicListeners : ListenerIndex;
  patternListeners : ListenerIndex;
  undoStack : list UndoEntry;
  redoStack : list UndoEntry;
  sourceAction : option Action;
  epicCache : EpicCache;
  actionCache : obj val;
  conditionCache : list nat;
  inCycle : bool;
  afterCycle : bool;
  undoEntry : UndoEntry;
  calls : list Call
}.

(** Assignment to one of the store's variables. *)
Definition set_conditions (x : list Condition) (s : Store) : Store :=
  {| options := options s; conditions := x; listeners := listeners s;
     epicRegistry := epicRegistry s; updaterRegistry := updaterRegistry s;
     patternRegistry := patternRegistry s; epicListeners := epicListeners s;
     patternListeners := patternListeners s; undoStack := undoStack s;
     redoStack := redoStack s; sourceAction := sourceAction s;
     epicCache := epicCache s; actionCache := actionCache s;
     conditionCache := conditionCache s; inCycle := inCycle s;
     afterCycle := afterCycle s; undoEntry := undoEntry s; calls := calls s |}.

Definition set_listeners (x : list Listener) (s : Store) : Store :=
  {| options := options s; conditions := conditions s; listeners := x;
     epicRegistry := epicRegistry s; updaterRegistry := updaterRegistry s;
     patternRegistry := patternRegistry s; epicListeners := epicListeners s;
     patternListeners := patternListeners s; undoStack := undoStack s;
     redoStack := redoStack s; sourceAction := sourceAction s;
     epicCache := epicCache s; actionCache := actionCache s;
     conditionCache := conditionCache s; inCycle := inCycle s;
     afterCycle := afterCycle s; undoEntry := undoEntry s; calls := calls s |}.

Definition set_epicRegistry (x : obj Epic) (s : Store) : Store :=
  {| options := options s; conditions := conditions s;
     listeners := listeners s; epicRegistry := x;
     updaterRegistry := updaterRegistry s;
     patternRegistry := patternRegistry s; epicListeners := epicListeners s;
     patternListeners := patternListeners s; undoStack := undoStack s;
     redoStack := redoStack s; sourceAction := sourceAction s;
     epicCache := epicCache s; actionCache := actionCache s;
     conditionCache := conditionCache s; inCycle := inCycle s;
     afterCycle := afterCycle s; undoEntry := undoEntry s; calls := calls s |}.

Definition set_updaterRegistry (x : obj (list Updater)) (s : Store) : Store :=
  {| options := options s; conditions := conditions s;
     listeners := listeners s; epicRegistry := epicRegistry s;
     updaterRegistry := x; patternRegistry := patternRegistry s;
     epicListeners := epicListeners s;
     patternListeners := patternListeners s; undoStack := undoStack s;
     redoStack := redoStack s; sourceAction := sourceAction s;
     epicCache := epicCache s; actionCache := actionCache s;
     conditionCache := conditionCache s; inCycle := inCycle s;
     afterCycle := afterCycle s; undoEntry := undoEntry s; calls := calls s |}.

Definition set_patternRegistry (x : obj (list Updater)) (s : Store) : Store :=
  {| options := options s; conditions := conditions s;
     listeners := listeners s; epicRegistry := epicRegistry s;
     updaterRegistry := updaterRegistry s; patternRegistry := x;
     epicListeners := epicListeners s;
     patternListeners := patternListeners s; undoStack := undoStack s;
     redoStack := redoStack s; sourceAction := sourceAction s;
     epicCache := epicCache s; actionCache := actionCache s;
     conditionCache := conditionCache s; inCycle := inCycle s;
     afterCycle := afterCycle s; undoEntry := undoEntry s; calls := calls s |}.

Definition set_epicListeners (x : ListenerIndex) (s : Store) : Store :=
  {| options := options s; conditions := conditions s;
     listeners := listeners s; epicRegistry := epicRegistry s;
     updaterRegistry := updaterRegistry s;
     patternRegistry := patternRegistry s; epicListeners := x;
     patternListeners := patternListeners s; undoStack := undoStack s;
     redoStack := redoStack s; sourceAction := sourceAction s;
     epicCache := epicCache s; actionCache := actionCache s;
     conditionCache := conditionCache s; inCycle := inCycle s;
     afterCycle := afterCycle s; undoEntry := undoEntry s; calls := calls s |}.

Definition set_patternListeners (x : ListenerIndex) (s : Store) : Store :=
  {| options := options s; conditions := conditions s;
     listeners := listeners s; epicRegistry := epicRegistry s;
     updaterRegistry := updaterRegistry s;
     patternRegistry := patternRegistry s; epicListeners := epicListeners s;
     patternListeners := x; undoStack := undoStack s;
     redoStack := redoStack s; sourceAction := sourceAction s;
     epicCache := epicCache s; actionCache := actionCache s;
     conditionCache := conditionCache s; inCycle := inCycle s;
     afterCycle := afterCycle s; undoEntry := undoEntry s; calls := calls s |}.

Definition set_undoStack (x : list UndoEntry) (s : Store) : Store :=
  {| options := options s; conditions := conditions s;
     listeners := listeners s; epicRegistry := epicRegistry s;
     updaterRegistry := updaterRegistry s;
     patternRegistry := patternRegistry s; epicListeners := epicListeners s;
     patternListeners := patternListeners s; undoStack := x;
     redoStack := redoStack s; sourceAction := sourceAction s;
     epicCache := epicCache s; actionCache := actionCache s;
     conditionCache := conditionCache s; inCycle := inCycle s;
     afterCycle := afterCycle s; undoEntry := undoEntry s; calls := calls s |}.

Definition set_redoStack (x : list UndoEntry) (s : Store) : Store :=
  {| options := options s; conditions := conditions s;
     listeners := listeners s; epicRegistry := epicRegistry s;
     updaterRegistry := updaterRegistry s;
     patternRegistry := patternRegistry s; epicListeners := epicListeners s;
     patternListeners := patternListeners s; undoStack := undoStack s;
     redoStack := x; sourceAction := sourceAction s;
     epicCache := epicCache s; actionCache := actionCache s;
     conditionCache := conditionCache s; inCycle := inCycle s;
     afterCycle := afterCycle s; undoEntry := undoEntry s; calls := calls s |}.

Definition set_sourceAction (x : option Action) (s : Store) : Store :=
  {| options := options s; conditions := conditions s;
     listeners := listeners s; epicRegistry := epicRegistry s;
     updaterRegistry := updaterRegistry s;
     patternRegistry := patternRegistry s; epicListeners := epicListeners s;
     patternListeners := patternListeners s; undoStack := undoStack s;
     redoStack := redoStack s; sourceAction := x; epicCache := epicCache s;
     actionCache := actionCache s; conditionCache := conditionCache s;
     inCycle := inCycle s; afterCycle := afterCycle s;
     undoEntry := undoEntry s; calls := calls s |}.

Definition set_epicCache (x : EpicCache) (s : Store) : Store :=
  {| options := options s; conditions := conditions s;
     listeners := listeners s; epicRegistry := epicRegistry s;
     updaterRegistry := updaterRegistry s;
     patternRegistry := patternRegistry s; epicListeners := epicListeners s;
     patternListeners := patternListeners s; undoStack := undoStack s;
     redoStack := redoStack s; sourceAction := sourceAction s;
     epicCache := x; actionCache := actionCache s;
     conditionCache := conditionCache s; inCycle := inCycle s;
     afterCycle := afterCycle s; undoEntry := undoEntry s; calls := calls s |}.

Definition set_actionCache (x : obj val) (s : Store) : Store :=
  {| options := options s; conditions := conditions s;
     listeners := listeners s; epicRegistry := epicRegistry s;
     updaterRegistry := updaterRegistry s;
     patternRegistry := patternRegistry s; epicListeners := epicListeners s;
     patternListeners := patternListeners s; undoStack := undoStack s;
     redoStack := redoStack s; sourceAction := sourceAction s;
     epicCache := epicCache s; actionCache := x;
     conditionCache := conditionCache s; inCycle := inCycle s;
     afterCycle := afterCycle s; undoEntry := undoEntry s; calls := calls s |}.

Definition set_conditionCache (x : list nat) (s : Store) : Store :=
  {| options := options s; conditions := conditions s;
     listeners := listeners s; epicRegistry := epicRegistry s;
     updaterRegistry := updaterRegistry s;
     patternRegistry := patternRegistry s; epicListeners := epicListeners s;
     patternListeners := patternListeners s; undoStack := undoStack s;
     redoStack := redoStack s; sourceAction := sourceAction s;
     epicCache := epicCache s; actionCache := actionCache s;
     conditionCache := x; inCycle := inCycle s; afterCycle := afterCycle s;
     undoEntry := undoEntry s; calls := calls s |}.

Definition set_inCycle (x : bool) (s : Store) : Store :=
  {| options := options s; conditions := conditions s;
     listeners := listeners s; epicRegistry := epicRegistry s;
     updaterRegistry := updaterRegistry s;
     patternRegistry := patternRegistry s; epicListeners := epicListeners s;
     patternListeners := patternListeners s; undoStack := undoStack s;
     redoStack := redoStack s; sourceAction := sourceAction s;
     epicCache := epicCache s; actionCache := actionCache s;
     conditionCache := conditionCache s; inCycle := x;
     afterCycle := afterCycle s; undoEntry := undoEntry s; calls := calls s |}.

Definition set_afterCycle (x : bool) (s : Store) : Store :=
  {| options := options s; conditions := conditions s;
     listeners := listeners s; epicRegistry := epicRegistry s;
     updaterRegistry := updaterRegistry s;
     patternRegistry := patternRegistry s; epicListeners := epicListeners s;
     patternListeners := patternListeners s; undoStack := undoStack s;
     redoStack := redoStack s; sourceAction := sourceAction s;
     epicCache := epicCache s; actionCache := actionCache s;
     conditionCache := conditionCache s; inCycle := inCycle s;
     afterCycle := x; undoEntry := undoEntry s; calls := calls s |}.

Definition set_undoEntry (x : UndoEntry) (s : Store) : Store :=
  {| options := options s; conditions := conditions s;
     listeners := listeners s; epicRegistry := epicRegistry s;
     updaterRegistry := updaterRegistry s;
     patternRegistry := patternRegistry s; epicListeners := epicListeners s;
     patternListeners := patternListeners s; undoStack := undoStack s;
     redoStack := redoStack s; sourceAction := sourceAction s;
     epicCache := epicCache s; actionCache := actionCache s;
     conditionCache := conditionCache s; inCycle := inCycle s;
     afterCycle := afterCycle s; undoEntry := x; calls := calls s |}.

Definition set_calls (x : list Call) (s : Store) : Store :=
  {| options := options s; conditions := conditions s;
     listeners := listeners s; epicRegistry := epicRegistry s;
     updaterRegistry := updaterRegistry s;
     patternRegistry := patternRegistry s; epicListeners := epicListeners s;
     patternListeners := patternListeners s; undoStack := undoStack s;
     redoStack := redoStack s; sourceAction := sourceAction s;
     epicCache := epicCache s; actionCache := actionCache s;
     conditionCache := conditionCache s; inCycle := inCycle s;
     afterCycle := afterCycle s; undoEntry := undoEntry s; calls := x |}.

(** ** Control: state, exceptions and loops *)

(** A computation ends normally, by a [throw], or leaves the model (it
    meets a construct the model does not interpret, or the call depth
    allotted to the cycle is used up). *)
Inductive Result (A : Type) :=
| Ok (a : A)
| Throw (e : Exn)
| Stuck.
Arguments Ok {A}.
Arguments Throw {A}.
Arguments Stuck {A}.

Definition M (A : Type) := Store -> Result A * Store.

Definition ret {A} (a : A) : M A := fun s => (Ok a, s).

Definition bind {A B} (m : M A) (k : A -> M B) : M B :=
  fun s =>
    match m s with
    | (Ok a, s') => k a s'
    | (Throw e, s') => (Throw e, s')
    | (Stuck, s') => (Stuck, s')
    end.

Notation "x <- m ;; k" := (bind m (fun x => k))
  (at level 100, m at next level, right associativity).
Notation "m ;; k" := (bind m (fun _ => k))
  (at level 100, right associativity).

Definition throw {A} (e : Exn) : M A := fun s => (Throw e, s).
Definition stuck {A} : M A := fun s => (Stuck, s).
Definition gets {A} (f : Store -> A) : M A := fun s => (Ok (f s), s).
Definition modify (f : Store -> Store) : M unit := fun s => (Ok tt, f s).

(** [try { m } catch (e) { caught = e }] *)
Definition try_catch {A} (m : M A) : M (option Exn) :=
  fun s =>
    match m s with
    | (Ok _, s') => (Ok None, s')
    | (Throw e, s') => (Ok (Some e), s')
    | (Stuck, s') => (Stuck, s')
    end.

Fixpoint forEach {A} (l : list A) (f : A -> M unit) : M unit :=
  match l with
  | [] => ret tt
  | x :: l' => f x ;; forEach l' f
  end.

Fixpoint mapM {A B} (l : list A) (f : A -> M B) : M (list B) :=
  match l with
  | [] => ret []
  | x :: l' => y <- f x ;; ys <- mapM l' f ;; ret (y :: ys)
  end.

(** A loop that updates the local variables [acc] of the enclosing
    function. *)
Fixpoint foldM {A B} (l : list A) (acc : B) (f : B -> A -> M B) : M B :=
  match l with
  | [] => ret acc
  | x :: l' => acc' <- f acc x ;; foldM l' acc' f
  end.

(** [invariant(condition, error(code, ...))] *)
Definition invariant (condition : bool) (code : ErrCode) : M unit :=
  if condition then ret tt else throw (Invariant code).

(** Evaluation of an identifier that no enclosing scope binds.  The host
    is taken to define no global of that name. *)
Definition free_identifier {A} (name : string) : M A :=
  throw (ReferenceError name).

(** A property read on [undefined]. *)
Definition defined {A} (o : option A) : M A :=
  match o with
  | Some a => ret a
  | None => throw TypeError
  end.

(** ** Condition objects *)

Definition set_cond_value (v : val) (c : Condition) : Condition :=
  {| cond_type := cond_type c; cond_selector := cond_selector c;
     cond_value := v; cond__value := cond__value c;
     cond_passive := cond_passive c; cond_required := cond_required c;
     cond_id := cond_id c; cond_target := cond_target c;
     cond_matchedPattern := cond_matchedPattern c |}.

Definition set_cond__value (v : option val) (c : Condition) : Condition :=
  {| cond_type := cond_type c; cond_selector := cond_selector c;
     cond_value := cond_value c; cond__value := v;
     cond_passive := cond_passive c; cond_required := cond_required c;
     cond_id := cond_id c; cond_target := cond_target c;
     cond_matchedPattern := cond_matchedPattern c |}.

Definition set_cond_matchedPattern (b : bool) (c : Condition) : Condition :=
  {| cond_type := cond_type c; cond_selector := cond_selector c;
     cond_value := cond_value c; cond__value := cond__value c;
     cond_passive := cond_passive c; cond_required := cond_required c;
     cond_id := cond_id c; cond_target := cond_target c;
     cond_matchedPattern := b |}.

(** Reading the condition object at an address; the addresses held by the
    registries are all allocated. *)
Definition read_condition (address : nat) : M Condition :=
  c <- gets (fun s => conditions s !! address) ;;
  match c with
  | Some c => ret c
  | None => stuck
  end.

Definition write_condition (address : nat) (f : Condition -> Condition)
  : M unit :=
  modify (fun s => set_conditions (alter f address (conditions s)) s).

Definition alloc_condition (c : Condition) : M CondRef :=
  address <- gets (fun s => length (conditions s)) ;;
  modify (fun s => set_conditions (conditions s ++ [c]) s) ;;
  ret (Ref address).

(** The properties of an element of a [conditions] array.  An element that
    is itself an array has none of them: they read as [undefined]. *)
Definition view (heap : list Condition) (r : CondRef) : option Condition :=
  match r with
  | Ref address => heap !! address
  | Arr _ => None
  end.

Definition ref_passive (heap : list Condition) (r : CondRef) : bool :=
  from_option cond_passive false (view heap r).

Definition ref_required (heap : list Condition) (r : CondRef) : bool :=
  from_option cond_required false (view heap r).

Definition ref_matchedPattern (heap : list Condition) (r : CondRef) : bool :=
  from_option cond_matchedPattern false (view heap r).

(** [type] used as a property key, and compared with a string. *)
Definition ref_type_key (heap : list Condition) (r : CondRef) : string :=
  from_option cond_type "undefined" (view heap r).

Definition ref_has_type (heap : list Condition) (type : string) (r : CondRef)
  : bool :=
  from_option (fun c => String.eqb type (cond_type c)) false (view heap r).

(** [condition === activeCondition] *)
Definition same_object (r : CondRef) (address : nat) : bool :=
  match r with
  | Ref a => Nat.eqb a address
  | Arr _ => false
  end.

Definition getSelectorValue (c : Condition) (a : Action) : val :=
  cond_selector c (a_payload a) (a_type a).

Definition didConditionChange (c : Condition) : bool :=
  match cond__value c with
  | Some v => negb (strict_eq v (cond_value c))
  | None => false
  end.

Definition ref_changed (heap : list Condition) (r : CondRef) : bool :=
  from_option didConditionChange false (view heap r).

Definition handler_param (c : option Condition) : val :=
  let value :=
    match c with
    | Some c => match cond__value c with Some v => v | None => cond_value c end
    | None => undefined
    end in
  if strict_eq value initialValue then undefined else value.

Definition getHandlerParams (heap : list Condition) (l : list CondRef)
  : list val :=
  map (fun r => handler_param (view heap r)) l.

Definition resetCondition (shouldUpdate : bool) (c : Condition) : Condition :=
  let c' :=
    match cond__value c with
    | Some v => if shouldUpdate then set_cond_value v c else c
    | None => c
    end in
  set_cond_matchedPattern false (set_cond__value None c').

Definition resetEpic (shouldUpdate : bool) (i : Instance) : Instance :=
  {| state := if shouldUpdate then from_option (fun v => v) undefined (_state i)
              else state i;
     scope := if shouldUpdate then from_option (fun v => v) undefined (_scope i)
              else scope i;
     _state := None;
     _scope := None |}.

(** ** Compiling conditions *)

Definition compile (o : InObj) : M CondRef :=
  match in_type o with
  | None => throw (Invariant invalidConditionType)
  | Some type =>
      selector <-
        match in_selector o with
        | NoSelector => ret (fun (st : val) (_ : string) => st)
        | NotAFunction => throw (Invariant invalidConditionSelector)
        | Selector f => ret f
            (* [memoize(selector, { max: 1 })] keeps the last result under
               the arguments that the selector declares, and [f] reads no
               other: the memoized function answers as [f] does *)
        end ;;
      alloc_condition
        {| cond_type := type; cond_selector := selector;
           cond_value := from_option (fun v => v) initialValue (in_value o);
           cond__value := None;
           cond_passive := in_passive o; cond_required := in_required o;
           cond_id := in_id o; cond_target := in_target o;
           cond_matchedPattern := false |}
  end.

Definition of_string (type : string) : InObj :=
  {| in_type := Some type; in_selector := NoSelector; in_value := None;
     in_passive := false; in_required := false;
     in_id := None; in_target := None |}.

Fixpoint processCondition (condition : InCond) : M CondRef :=
  match condition with
  | InArr alternatives =>
      items <-
        (fix each (l : list InCond) : M (list CondRef) :=
           match l with
           | [] => ret []
           | c :: l' =>
               r <- processCondition c ;; rs <- each l' ;; ret (r :: rs)
           end) alternatives ;;
      ret (Arr items)
  | InStr type => compile (of_string type)
  | InCondObj o => compile o
  end.

(** Modelled from the spec: the builder [makeError] of [./Errors], which
    is not among the sources.  The spec says that an error carries the
    Epic name, the updater index and the condition index: the builder
    takes these identifiers, one a call, and called with a code after them
    it gives the error that [invariant] throws.  What comes of a builder
    that is called otherwise rests on [./Errors]: the model stops where
    the code uses it.

    [compile] and [processCondition] above are the function with a builder
    that awaits the identifier of the condition, as [makeError()()]
    in [addListener] is; [processCondition_with] is the function as
    [register] calls it, with the builder it has at that point. *)
Inductive ErrorBuilder :=
| Awaits (identifiers : nat)         (* takes that many identifiers yet *)
| Overrun.                           (* was called beyond its code *)

Definition makeError : ErrorBuilder := Awaits 3.

(** [builder(identifier)] *)
Definition takes (builder : ErrorBuilder) : ErrorBuilder :=
  match builder with
  | Awaits (S identifiers) => Awaits identifiers
  | _ => Overrun
  end.

(** [builder(code)], where its value is the message of an [invariant]. *)
Definition raised_by (builder : ErrorBuilder) (code : ErrCode) : M ErrCode :=
  match builder with
  | Awaits 0 => ret code
  | _ => stuck
  end.

(** The messages are built before [invariant] is called, whatever the
    condition it tests. *)
Definition compile_with (currentError : ErrorBuilder) (o : InObj)
  : M CondRef :=
  let indexError := takes currentError in
  typeMessage <- raised_by indexError invalidConditionType ;;
  match in_type o with
  | None => throw (Invariant typeMessage)
  | Some type =>
      let typeError := takes currentError in
      selector <-
        match in_selector o with
        | NoSelector => ret (fun (st : val) (_ : string) => st)
        | NotAFunction =>
            selectorMessage <- raised_by typeError invalidConditionSelector ;;
            throw (Invariant selectorMessage)
        | Selector f =>
            raised_by typeError invalidConditionSelector ;;
            ret f
        end ;;
      alloc_condition
        {| cond_type := type; cond_selector := selector;
           cond_value := from_option (fun v => v) initialValue (in_value o);
           cond__value := None;
           cond_passive := in_passive o; cond_required := in_required o;
           cond_id := in_id o; cond_target := in_target o;
           cond_matchedPattern := false |}
  end.

Fixpoint processCondition_with (currentError : ErrorBuilder)
    (condition : InCond) : M CondRef :=
  match condition with
  | InArr alternatives =>
      items <-
        (fix each (l : list InCond) : M (list CondRef) :=
           match l with
           | [] => ret []
           | c :: l' =>
               r <- processCondition_with currentError c ;;
               rs <- each l' ;; ret (r :: rs)
           end) alternatives ;;
      ret (Arr items)
  | InStr type => compile_with currentError (of_string type)
  | InCondObj o => compile_with currentError o
  end.

(** The first element that is an array, with what precedes and follows. *)
Fixpoint first_array (l : list CondRef)
  : option (list CondRef * list CondRef * list CondRef) :=
  match l with
  | [] => None
  | Arr items :: l' => Some ([], items, l')
  | Ref a :: l' =>
      match first_array l' with
      | Some (before, items, after) => Some (Ref a :: before, items, after)
      | None => None
      end
  end.

Fixpoint ref_size (r : CondRef) : nat :=
  match r with
  | Ref _ => 1
  | Arr items =>
      S ((fix sum (l : list CondRef) : nat :=
            match l with
            | [] => 0
            | x :: l' => ref_size x + sum l'
            end) items)
  end.

Definition refs_size (l : list CondRef) : nat :=
  fold_right (fun r n => ref_size r + n) 0 l.

(** [splitConditions] calls itself on a copy in which an array is replaced
    by one of its elements; the recursion is bounded by the size of the
    argument. *)
Fixpoint splitConditions_upto (depth : nat) (l : list CondRef)
  : list (list CondRef) :=
  match depth with
  | 0 => [l]
  | S depth' =>
      match first_array l with
      | None => [l]
      | Some (before, items, after) =>
          let conditionsList :=
            flat_map
              (fun c => splitConditions_upto depth' (before ++ c :: after))
              items in
          match conditionsList with
          | [] => [l]
          | _ => conditionsList
          end
      end
  end.

Definition splitConditions (l : list CondRef) : list (list CondRef) :=
  splitConditions_upto (refs_size l) l.

(** ** [store.register] *)

Record UpdaterIn := { in_conditions : list InCond; in_handler : Handler }.

Record EpicIn := {
  in_name : string;
  in_state : option val;               (* [None]: the default applies *)
  in_scope : option val;
  in_updaters : list UpdaterIn;
  in_instance : bool
}.

(** [registry[type]] with one more updater at its end, where there is an
    array to push it on. *)
Definition with_updater (type : string) (u : Updater)
    (registry : obj (list Updater)) : obj (list Updater) :=
  obj_set type (from_option (fun l => l) [] (obj_get registry type) ++ [u])
    registry.

(** [if (!registry[type]) registry[type] = []; registry[type].push(updater)].
    Under a name that the registry inherits and does not own,
    [registry[type]] is truthy and no array: there is no [push] to call,
    and the result is [None]. *)
Definition push_updater (type : string) (u : Updater)
    (registry : obj (list Updater)) : option (obj (list Updater)) :=
  if obj_has registry type || negb (inherited type)
  then Some (with_updater type u registry)
  else None.

Definition index_updater (updater : Updater) (r : CondRef) : M unit :=
  heap <- gets conditions ;;
  withPatterns <- gets (fun s => patterns (options s)) ;;
  let type := ref_type_key heap r in
  if withPatterns && Pattern.has_star type
  then
    registry <- gets patternRegistry ;;
    match push_updater type updater registry with
    | Some registry => modify (set_patternRegistry registry)
    | None => throw TypeError
    end
  else
    registry <- gets updaterRegistry ;;
    match push_updater type updater registry with
    | Some registry => modify (set_updaterRegistry registry)
    | None => throw TypeError
    end.

Definition make_updater (name : string) (currentError : ErrorBuilder)
    (handler : Handler) (index : nat) (conds : list CondRef) : M Updater :=
  heap <- gets conditions ;;
  message <- raised_by (takes currentError) noPassiveUpdaters ;;
  invariant (existsb (fun r => negb (ref_passive heap r)) conds) message ;;
  let updater := {| u_epic := name; u_handler := handler;
                    u_conditions := conds; u_index := index |} in
  forEach conds (index_updater updater) ;;
  ret updater.

(** The body of [updaters.map(({ conditions, handler }, index) => ...)],
    after the assignment to [currentError]. *)
Definition compile_updater (name : string) (currentError : ErrorBuilder)
    (iu : nat * UpdaterIn) : M (list Updater) :=
  let '(index, u) := iu in
  conds <- mapM (in_conditions u) (processCondition_with currentError) ;;
  mapM (splitConditions conds)
    (make_updater name currentError (in_handler u) index).

Definition indexed {A} (l : list A) : list (nat * A) :=
  combine (seq 0 (length l)) l.

(** [updaters.map(...)].  [currentError = currentError(index)] assigns to
    the variable of [register]: each reducer starts from the builder that
    the one before it left. *)
Fixpoint compile_updaters (name : string) (currentError : ErrorBuilder)
    (l : list (nat * UpdaterIn)) : M (list (list Updater)) :=
  match l with
  | [] => ret []
  | iu :: l' =>
      let currentError := takes currentError in
      updaters <- compile_updater name currentError iu ;;
      rest <- compile_updaters name currentError l' ;;
      ret (updaters :: rest)
  end.

(** [epicRegistry] is written [{}]: [epicRegistry[name]] is truthy also
    under a name it inherits. *)
Definition register (e : EpicIn) : M unit :=
  let name := in_name e in
  registered <- gets (fun s =>
    obj_has (epicRegistry s) name || inherited name) ;;
  invariant (negb registered) duplicateEpic ;;
  updaters <-
    compile_updaters name (takes makeError) (indexed (in_updaters e)) ;;
  let self :=
    {| state := freeze (from_option (fun v => v) initialValue (in_state e));
       scope := freeze (from_option (fun v => v) initialValue (in_scope e));
       _state := None; _scope := None |} in
  modify (fun s =>
    set_epicRegistry
      (obj_set name
         {| epic_self := self; epic_updaters := updaters;
            epic_instances := if in_instance e then Some [] else None |}
         (epicRegistry s)) s).

(** ** Instances *)

(** [Object.keys(epic).concat(epic[defaultEpicInstanceKey] ?
    defaultEpicInstanceKey : [])] *)
Definition getInstances {V} (is_truthy : V -> bool) (epic : Keyed V)
  : list InstKey :=
  map IdKey (obj_keys (named epic)) ++
  match dflt epic with
  | Some v => if is_truthy v then [DefaultKey] else []
  | None => []
  end.

(** The object an updater works on: the Epic itself under
    [defaultEpicInstanceKey], else one of [epic.instances]. *)
Definition instance_of (e : Epic) (id : InstKey) : option Instance :=
  match id with
  | DefaultKey => Some (epic_self e)
  | IdKey k =>
      match epic_instances e with
      | Some l => obj_get l k
      | None => None
      end
  end.

Definition put_instance (id : InstKey) (i : Instance) (e : Epic) : Epic :=
  match id with
  | DefaultKey =>
      {| epic_self := i; epic_updaters := epic_updaters e;
         epic_instances := epic_instances e |}
  | IdKey k =>
      {| epic_self := epic_self e; epic_updaters := epic_updaters e;
         epic_instances :=
           Some (obj_set k i (from_option (fun l => l) [] (epic_instances e))) |}
  end.

Definition read_instance (epicName : string) (id : InstKey) : M Instance :=
  e <- gets (fun s => obj_get (epicRegistry s) epicName) ;;
  match e with
  | Some e => match instance_of e id with Some i => ret i | None => stuck end
  | None => stuck
  end.

Definition write_instance (epicName : string) (id : InstKey)
    (f : Instance -> Instance) : M unit :=
  i <- read_instance epicName id ;;
  modify (fun s =>
    match obj_get (epicRegistry s) epicName with
    | Some e =>
        set_epicRegistry
          (obj_set epicName (put_instance id (f i) e) (epicRegistry s)) s
    | None => s
    end).

(** The two entities of an instance that a handler may update. *)
Inductive Entity := EntState | EntScope.

Definition entity_name (entity : Entity) : string :=
  match entity with EntState => "state" | EntScope => "scope" end.

(** [instance['_' + entity]] *)
Definition staged (entity : Entity) (i : Instance) : option val :=
  match entity with EntState => _state i | EntScope => _scope i end.

(** [instance['_' + entity] = v] *)
Definition stage (entity : Entity) (v : val) (i : Instance) : Instance :=
  match entity with
  | EntState => {| state := state i; scope := scope i;
                   _state := Some v; _scope := _scope i |}
  | EntScope => {| state := state i; scope := scope i;
                   _state := _state i; _scope := Some v |}
  end.

(** ** Listener dispatch: [processEpicListeners] *)

Definition read_listener (address : nat) : M Listener :=
  l <- gets (fun s => listeners s !! address) ;;
  match l with
  | Some l => ret l
  | None => stuck
  end.

Definition set_processed (b : bool) (l : Listener) : Listener :=
  {| l_conditions := l_conditions l; l_handler := l_handler l;
     l_processed := b |}.

Definition write_listener (address : nat) (f : Listener -> Listener)
  : M unit :=
  modify (fun s => set_listeners (alter f address (listeners s)) s).

(** [getRegexFromPattern(pattern)] where it may throw. *)
Definition compile_pattern (pattern : string) : M Pattern.Regex :=
  match Pattern.getRegexFromPattern pattern with
  | Pattern.Parsed r => ret r
  | Pattern.SyntaxErr => throw SyntaxError
  | Pattern.Unsupported => stuck
  end.

(** [getRegexFromPattern(pattern).test(subject)] *)
Definition test_pattern (pattern subject : string) : M bool :=
  r <- compile_pattern pattern ;;
  ret (Pattern.matches r subject).

(** [index[type][id] || index[type][defaultEpicInstanceKey]], with the
    key under which the array was found. *)
Definition choose_array (byTarget : Keyed (list nat)) (id : InstKey)
  : option (InstKey * list nat) :=
  match keyed_get byTarget id with
  | Some l => Some (id, l)
  | None =>
      match dflt byTarget with
      | Some l => Some (DefaultKey, l)
      | None => None
      end
  end.

(** The listeners of one changed instance.  The array found in
    [epicListeners] is the one the pattern listeners are pushed onto. *)
Definition gather_listeners (epicName : string) (id : InstKey)
    (matchedPatterns : list string) : M (list nat) :=
  exact <- gets epicListeners ;;
  wild <- gets patternListeners ;;
  let pushed :=
    flat_map
      (fun key =>
         match obj_get wild key with
         | Some byTarget =>
             match choose_array byTarget id with
             | Some (_, l) => l
             | None => []
             end
         | None => []
         end) matchedPatterns in
  match obj_get exact epicName with
  | None => ret pushed
  | Some byTarget =>
      match choose_array byTarget id with
      | None => ret pushed
      | Some (found, l) =>
          modify (fun s =>
            set_epicListeners
              (obj_set epicName (keyed_set found (l ++ pushed) byTarget)
                 (epicListeners s)) s) ;;
          ret (l ++ pushed)
      end
  end.

Record Flags := {
  hasRequired : bool;
  hasChangedActive : bool;
  hasUnchangedRequired : bool
}.

Definition mark (required passive changed : bool) (f : Flags) : Flags :=
  if required then
    {| hasRequired := true; hasChangedActive := hasChangedActive f;
       hasUnchangedRequired := hasUnchangedRequired f || negb changed |}
  else if negb passive && changed then
    {| hasRequired := hasRequired f; hasChangedActive := true;
       hasUnchangedRequired := hasUnchangedRequired f |}
  else f.

(** The body of [conditions.forEach(condition => ...)] for one listener. *)
Definition listen_condition (cache : EpicCache) (epic : option Epic)
    (f : Flags) (r : CondRef) : M Flags :=
  heap <- gets conditions ;;
  let c := view heap r in
  let type := ref_type_key heap r in
  let id := truthy_string (c ≫= cond_id) in
  let passive := ref_passive heap r in
  let required := ref_required heap r in
  let epicChange := obj_get cache type in
  payload <-
    match id with
    | Some i =>
        change <- defined epicChange ;;
        ret (from_option (fun v => v) undefined (obj_get (named change) i))
    | None =>
        e <- defined epic ;;
        match epic_instances e with
        | Some _ =>
            ret (from_option (fun ch => object_of (named ch) (dflt ch))
                   undefined epicChange)
        | None =>
            change <- defined epicChange ;;
            ret (from_option (fun v => v) undefined (dflt change))
        end
    end ;;
  withPatterns <- gets (fun s => patterns (options s)) ;;
  if withPatterns && Pattern.has_star type then
    regex <- compile_pattern type ;;
    let touched key :=
      Pattern.matches regex key &&
      match id with
      | None => true
      | Some i =>
          match obj_get cache key with
          | Some change => from_option truthy false (obj_get (named change) i)
          | None => false
          end
      end in
    if existsb touched (obj_keys cache)
    then ret (mark required passive true f)
    else ret (mark required true false f)
  else if truthy payload then
    match r, c with
    | Ref address, Some c =>
        let v := cond_selector c payload type in
        write_condition address (set_cond__value (Some v)) ;;
        ret (mark required passive
               (negb (strict_eq v (cond_value c))) f)
    | _, _ => throw TypeError          (* no [selector] to call *)
    end
  else ret (mark required true false f).

Definition reset_ref (shouldUpdate : bool) (r : CondRef) : M unit :=
  match r with
  | Ref address => write_condition address (resetCondition shouldUpdate)
  | Arr _ => ret tt
  end.

(** The local arrays [epicListenerCache] and [postProcessingErrors]. *)
Definition Locals := (list nat * list Exn)%type.

Definition notify (cache : EpicCache) (source : option Action)
    (epic : option Epic) (acc : Locals) (address : nat) : M Locals :=
  listener <- read_listener address ;;
  if l_processed listener then ret acc else
  write_listener address (set_processed true) ;;
  let epicListenerCache := fst acc ++ [address] in
  flags <- foldM (l_conditions listener)
             {| hasRequired := false; hasChangedActive := false;
                hasUnchangedRequired := false |}
             (listen_condition cache epic) ;;
  if (if hasRequired flags then negb (hasUnchangedRequired flags)
      else hasChangedActive flags)
  then
    heap <- gets conditions ;;
    let params := getHandlerParams heap (l_conditions listener) in
    modify (fun s => set_calls (calls s ++ [ListenerCall address params]) s) ;;
    match l_handler listener params source with
    | Some e => ret (epicListenerCache, snd acc ++ [e])
    | None => ret (epicListenerCache, snd acc)
    end
  else ret (epicListenerCache, snd acc).

Definition processEpicListeners (cache : EpicCache) (source : option Action)
  : M (list Exn) :=
  let updatedEpics := obj_keys cache in
  acc <- foldM updatedEpics (([], []) : Locals) (fun acc epicName =>
    withPatterns <- gets (fun s => patterns (options s)) ;;
    wild <- gets patternListeners ;;
    matchedPatterns <-
      (if withPatterns
       then foldM (obj_keys wild) [] (fun matched key =>
              hit <- test_pattern key epicName ;;
              ret (if hit then matched ++ [key] else matched))
       else ret []) ;;
    epic <- gets (fun s => obj_get (epicRegistry s) epicName) ;;
    let changed :=
      from_option (getInstances truthy) [] (obj_get cache epicName) in
    foldM changed acc (fun acc id =>
      found <- gather_listeners epicName id matchedPatterns ;;
      foldM found acc (notify cache source epic))) ;;
  forEach (fst acc) (fun address =>
    listener <- read_listener address ;;
    forEach (l_conditions listener) (reset_ref true) ;;
    write_listener address (set_processed false)) ;;
  (* [return errors] *)
  free_identifier "errors".

(** ** The dispatch cycle *)

Definition validateAction (a : ActionIn) : Action :=
  match a with
  | ActStr type => {| a_type := type; a_payload := undefined; a_target := None |}
  | ActObj a => a
  end.

Definition update_entity (update : HandlerUpdate) (entity : Entity)
  : option val :=
  match entity with
  | EntState => hu_state update
  | EntScope => hu_scope update
  end.

(** [makeHandleUpdate(instance, update)(entity, callback)].  The object
    [instance] is given by the Epic and the id under which the registry holds
    it.  The function is declared beside [processUpdater], not inside it:
    [epicName], [id] and [index] are not bound where it uses them. *)
Definition makeHandleUpdate (owner : string) (key : InstKey)
    (update : HandlerUpdate) (entity : Entity) (callback : M unit) : M unit :=
  match update_entity update entity with
  | None => ret tt
  | Some delta =>
      instance <- read_instance owner key ;;
      let current := from_option (fun v => v) undefined (staged entity instance) in
      match merge (unfreeze current) delta with
      | MergeError =>
          epicName <- @free_identifier string "epicName" ;;
          index <- @free_identifier nat "index" ;;
          throw (Invariant invalidHandlerUpdate)
      | MergeThrows e =>
          epicName <- @free_identifier string "epicName" ;;
          index <- @free_identifier nat "index" ;;
          throw (Thrown e)
      | Merged updatedEntity undoChange redoChange =>
          write_instance owner key (stage entity (freeze updatedEntity)) ;;
          withUndo <- gets (fun s => undo (options s)) ;;
          (if withUndo then
             epicName <- @free_identifier string "epicName" ;;
             id <- @free_identifier InstKey "id" ;;
             entry <- gets undoEntry ;;
             let ofEpic :=
               from_option (fun k => k) keyed_empty (obj_get entry epicName) in
             recorded <- defined (obj_get entry epicName) ;;
             let ofInstance :=
               from_option (fun o => o) [] (keyed_get recorded id) in
             let change := {| ch_undo := undoChange; ch_redo := redoChange |} in
             modify (set_undoEntry
               (obj_set epicName
                  (keyed_set id (obj_set (entity_name entity) change ofInstance)
                     ofEpic) entry))
           else ret tt) ;;
          callback
      end
  end.

Definition log_call (c : Call) : M unit :=
  modify (fun s => set_calls (calls s ++ [c]) s).

(** The body of [instances.forEach(([instance, id]) => ...)]. *)
Definition update_instance (processAction : Action -> bool -> M unit)
    (action : Action) (updater : Updater) (forcePassiveUpdate : bool)
    (id : InstKey) : M unit :=
  let epicName := u_epic updater in
  write_instance epicName id (fun i =>
    {| state := state i; scope := scope i;
       _state := Some (from_option (fun v => v) (state i) (_state i));
       _scope := Some (from_option (fun v => v) (scope i) (_scope i)) |}) ;;
  instance <- read_instance epicName id ;;
  heap <- gets conditions ;;
  source <- gets sourceAction ;;
  let params := getHandlerParams heap (u_conditions updater) in
  log_call (UpdaterCall epicName (u_index updater) id params) ;;
  match
    u_handler updater params
      {| ctx_state := state instance;
         ctx_currentCycleState :=
           from_option (fun v => v) undefined (_state instance);
         ctx_scope := scope instance;
         ctx_currentCycleScope :=
           from_option (fun v => v) undefined (_scope instance);
         ctx_sourceAction := source;
         ctx_currentAction := action |}
  with
  | Raises e => throw e
  | Returns handlerUpdate =>
      let handleUpdate := makeHandleUpdate epicName id handlerUpdate in
      scope <- @free_identifier Entity "scope" ;;
      handleUpdate scope (ret tt) ;;
      state <- @free_identifier Entity "state" ;;
      handleUpdate state
        (if negb forcePassiveUpdate && negb (hu_passive handlerUpdate)
         then
           instance <- read_instance epicName id ;;
           processAction
             {| a_type := epicName;
                a_payload := from_option (fun v => v) undefined (_state instance);
                a_target := None |} false
         else ret tt) ;;
      match hu_actions handlerUpdate with
      | Some actions =>
          forEach actions (fun a => processAction (validateAction a) true)
      | None => ret tt
      end
  end.

(** The passive action guard of [processUpdater]. *)
Definition passive_guard (heap : list Condition) (active : Condition)
    (conds : list CondRef) : bool :=
  cond_passive active &&
  negb (existsb
          (fun r => negb (ref_passive heap r) &&
                    (ref_matchedPattern heap r || ref_changed heap r))
          conds).

(** The conjunction tested by the second guard of [processUpdater]. *)
Definition all_fulfilled (heap : list Condition) (activeCondition : nat)
    (conds : list CondRef) : bool :=
  forallb
    (fun r => same_object r activeCondition ||
              ref_passive heap r || negb (ref_required heap r) ||
              ref_matchedPattern heap r || ref_changed heap r)
    conds.

(** [instances], by their ids. *)
Definition select_instances (action : Action) (epicName : string)
    (epic : Epic) : M (list InstKey) :=
  match epic_instances epic with
  | None => ret [DefaultKey]
  | Some instances =>
      match truthy_string (a_target action) with
      | Some target =>
          (if obj_has instances target then ret tt
           else
             modify (fun s =>
               set_epicRegistry
                 (obj_set epicName
                    (put_instance (IdKey target)
                       {| state := freeze (unfreeze (state (epic_self epic)));
                          scope := freeze (unfreeze (scope (epic_self epic)));
                          _state := None; _scope := None |} epic)
                    (epicRegistry s)) s)) ;;
          ret [IdKey target]
      | None => ret (map IdKey (obj_keys instances))
      end
  end.

Definition processUpdater (processAction : Action -> bool -> M unit)
    (action : Action) (activeCondition : nat) (updater : Updater)
    (forcePassiveUpdate : bool) : M unit :=
  let epicName := u_epic updater in
  let conds := u_conditions updater in
  heap <- gets conditions ;;
  active <- read_condition activeCondition ;;
  if passive_guard heap active conds then ret tt else
  if negb (all_fulfilled heap activeCondition conds) then ret tt else
  epic <- gets (fun s => obj_get (epicRegistry s) epicName) ;;
  epic <- defined epic ;;
  instances <- select_instances action epicName epic ;;
  forEach instances
    (update_instance processAction action updater forcePassiveUpdate).

Definition push_condition (address : nat) : M unit :=
  modify (fun s => set_conditionCache (conditionCache s ++ [address]) s).

(** The body of [(updaterRegistry[action.type] || []).forEach(...)]. *)
Definition direct_updater (processAction : Action -> bool -> M unit)
    (action : Action) (external : bool) (updater : Updater) : M unit :=
  heap <- gets conditions ;;
  match find (ref_has_type heap (a_type action)) (u_conditions updater) with
  | Some (Ref activeCondition) =>
      c <- read_condition activeCondition ;;
      write_condition activeCondition
        (set_cond__value (Some (getSelectorValue c action))) ;;
      push_condition activeCondition ;;
      c <- read_condition activeCondition ;;
      if negb external && negb (didConditionChange c) then ret tt
      else processUpdater processAction action activeCondition updater false
  | _ => throw TypeError
  end.

(** The body of [patternRegistry[key].forEach(...)]. *)
Definition pattern_updater (processAction : Action -> bool -> M unit)
    (action : Action) (key : string) (updater : Updater) : M unit :=
  heap <- gets conditions ;;
  match find (ref_has_type heap key) (u_conditions updater) with
  | Some (Ref activeCondition) =>
      write_condition activeCondition (set_cond_matchedPattern true) ;;
      push_condition activeCondition ;;
      processUpdater processAction action activeCondition updater
        (String.eqb key "*")
  | _ => throw TypeError
  end.

(** [processAction].  [depth] bounds the nesting of the actions that
    handlers chain; a cycle that nests deeper leaves the model. *)
Fixpoint processAction (depth : nat) (action : Action) (external : bool)
  : M unit :=
  match depth with
  | 0 => stuck
  | S depth' =>
      let type := a_type action in
      isEpic <- gets (fun s => obj_has (epicRegistry s) type) ;;
      invariant (negb external || negb isEpic) invalidEpicAction ;;
      seen <- gets (fun s => obj_has (actionCache s) type) ;;
      invariant (negb external || negb seen) noRepeatedExternalAction ;;
      modify (fun s =>
        set_actionCache (obj_set type (a_payload action) (actionCache s)) s) ;;
      direct <- gets (fun s =>
        from_option (fun l => l) [] (obj_get (updaterRegistry s) type)) ;;
      forEach direct (direct_updater (processAction depth') action external) ;;
      withPatterns <- gets (fun s => patterns (options s)) ;;
      if withPatterns then
        keys <- gets (fun s => obj_keys (patternRegistry s)) ;;
        forEach keys (fun key =>
          hit <- test_pattern key type ;;
          if hit then
            matching <- gets (fun s =>
              from_option (fun l => l) [] (obj_get (patternRegistry s) key)) ;;
            forEach matching
              (pattern_updater (processAction depth') action key)
          else ret tt)
      else ret tt
  end.

(** Whether the module runs as strict code.  A file with [import]
    declarations is an ES module and is always strict; [false] covers a
    build that strips strictness, in which an assignment to an unbound name
    creates a global instead of throwing. *)
Variable strictMode : bool.

Definition no_error (processingError : option Exn) : bool :=
  match processingError with
  | Some e => negb (exn_truthy e)
  | None => true
  end.

(** [conditionCache.forEach(resetCondition.bind(null, !processingError))] *)
Definition commit_conditions (shouldUpdate : bool) : M unit :=
  cached <- gets conditionCache ;;
  forEach cached (fun address =>
    write_condition address (resetCondition shouldUpdate)).

(** Names under which an Epic object answers a property read with
    something that is not an instance. *)
Definition epic_properties : list string :=
  ["state"; "scope"; "updaters"; "instances"; "_state"; "_scope";
   "constructor"; "hasOwnProperty"; "isPrototypeOf";
   "propertyIsEnumerable"; "toLocaleString"; "toString"; "valueOf";
   "__proto__"; "__defineGetter__"; "__defineSetter__";
   "__lookupGetter__"; "__lookupSetter__"].

(** [Object.keys(epicCache).forEach(epicName => ...)] of [dispatch]. *)
Definition commit_epics (shouldUpdate : bool) : M unit :=
  cache <- gets epicCache ;;
  forEach (obj_keys cache) (fun epicName =>
    epic <- gets (fun s => obj_get (epicRegistry s) epicName) ;;
    epic <- defined epic ;;
    match epic_instances epic with
    | None => write_instance epicName DefaultKey (resetEpic shouldUpdate)
    | Some _ =>
        let ids :=
          from_option (fun ch => obj_keys (named ch)) []
            (obj_get cache epicName) in
        forEach ids (fun id =>
          (* [resetEpic(epic[id], ...)]: the Epic object has no such
             property, and [resetEpic] reads a property of [undefined] *)
          if existsb (String.eqb id) epic_properties then stuck
          else throw TypeError)
    end).

(** The undo bookkeeping at the end of a cycle. *)
Definition push_undo (limit : Z) (entry : UndoEntry)
    (stack : list UndoEntry) : list UndoEntry :=
  (if (Z.of_nat (length stack) =? limit)%Z then tail stack else stack)
  ++ [entry].

Definition commit_undo (shouldUpdate : bool) : M unit :=
  withUndo <- gets (fun s => undo (options s)) ;;
  if withUndo && shouldUpdate then
    modify (fun s =>
      set_redoStack []
        (set_undoStack
           (push_undo (maxUndoStack (options s)) (undoEntry s) (undoStack s))
           s))
  else ret tt.

(** The assignments that open a cycle. *)
Definition begin_cycle (action : Action) (s : Store) : Store :=
  set_sourceAction (Some action)
    (set_conditionCache []
       (set_actionCache []
          (set_epicCache [] (set_undoEntry [] (set_inCycle true s))))).

(** The part of [dispatch] that follows [// Fresh dispatch cycle]. *)
Definition fresh_cycle (depth : nat) (action : Action) : M unit :=
  modify (begin_cycle action) ;;
  (* [epicListenerCache = []], a name declared only in
     [processEpicListeners] *)
  (if strictMode then free_identifier "epicListenerCache" else ret tt) ;;
  processingError <- try_catch (processAction depth action true) ;;
  modify (fun s => set_afterCycle true (set_inCycle false s)) ;;
  cache <- gets epicCache ;;
  source <- gets sourceAction ;;
  postProcessingErrors <- processEpicListeners cache source ;;
  commit_conditions (no_error processingError) ;;
  commit_epics (no_error processingError) ;;
  commit_undo (no_error processingError) ;;
  modify (set_afterCycle false) ;;
  match processingError with
  | Some e =>
      if exn_truthy e then throw e
      else match postProcessingErrors with
           | [] => ret tt
           | _ => throw (ErrorList postProcessingErrors)
           end
  | None =>
      match postProcessingErrors with
      | [] => ret tt
      | _ => throw (ErrorList postProcessingErrors)
      end
  end.

Definition dispatch (depth : nat) (a : ActionIn) : M unit :=
  let action := validateAction a in
  running <- gets inCycle ;;
  if running then processAction depth action true else
  notifying <- gets afterCycle ;;
  invariant (negb notifying) noDispatchInEpicListener ;;
  fresh_cycle depth action.

(** ** [store.addListener] *)

Record Subscription := {
  sub_listener : nat;
  sub_cache : list (bool * string * InstKey)   (* wildcard index?, type, target *)
}.

(** [index[type][target]] with one more listener at its end, where there
    is an array to push it on. *)
Definition with_listener (type : string) (target : InstKey) (address : nat)
    (index : ListenerIndex) : ListenerIndex :=
  let byTarget := from_option (fun k => k) keyed_empty (obj_get index type) in
  let array := from_option (fun l => l) [] (keyed_get byTarget target) in
  obj_set type (keyed_set target (array ++ [address]) byTarget) index.

(** Whether [o[target]] is truthy without being a property of [o], for an
    object [o] written [{}]. *)
Definition inherited_target (target : InstKey) : bool :=
  match target with
  | IdKey id => inherited id
  | DefaultKey => false
  end.

Definition listener_index (wild : bool) (s : Store) : ListenerIndex :=
  if wild then patternListeners s else epicListeners s.

Definition set_listener_index (wild : bool) (index : ListenerIndex)
    (s : Store) : Store :=
  if wild then set_patternListeners index s else set_epicListeners index s.

(** [if (!listeners[type]) listeners[type] = {}; if (!listeners[type][target])
    listeners[type][target] = []; listeners[type][target].push(epicListener)],
    on [patternListeners] or on [epicListeners].  Under a type that the
    index inherits and does not own, what follows would write to an
    object that is not the store's: the model stops.  Under a target
    that [listeners[type]] inherits and does not own there is no array,
    and no [push] to call. *)
Definition push_listener (wild : bool) (type : string) (target : InstKey)
    (address : nat) : M unit :=
  listeners <- gets (listener_index wild) ;;
  byTarget <-
    match obj_get listeners type with
    | Some byTarget => ret byTarget
    | None =>
        if inherited type then stuck
        else
          modify (set_listener_index wild
                    (obj_set type keyed_empty listeners)) ;;
          ret keyed_empty
    end ;;
  match keyed_get byTarget target with
  | None =>
      if inherited_target target then throw TypeError
      else
        modify (set_listener_index wild
                  (with_listener type target address listeners))
  | Some _ =>
      modify (set_listener_index wild
                (with_listener type target address listeners))
  end.

Definition addListener (conds : list InCond) (handler : ListenerHandler)
  : M Subscription :=
  compiled <- mapM conds processCondition ;;
  address <- gets (fun s => length (listeners s)) ;;
  modify (fun s =>
    set_listeners
      (listeners s ++
         [{| l_conditions := compiled; l_handler := handler;
             l_processed := false |}]) s) ;;
  cache <- mapM compiled (fun r =>
    heap <- gets conditions ;;
    withPatterns <- gets (fun s => patterns (options s)) ;;
    let type := ref_type_key heap r in
    let target :=
      match view heap r ≫= cond_target with
      | Some t => IdKey t
      | None => DefaultKey
      end in
    let wild := withPatterns && Pattern.has_star type in
    push_listener wild type target address ;;
    ret (wild, type, target)) ;;
  ret {| sub_listener := address; sub_cache := cache |}.

(** The function [addListener] returns. *)
Definition unsubscribe (sub : Subscription) : M unit :=
  forEach (sub_cache sub) (fun '(wild, type, target) =>
    let drop (index : ListenerIndex) : ListenerIndex :=
      match obj_get index type with
      | Some byTarget =>
          match keyed_get byTarget target with
          | Some array =>
              obj_set type
                (keyed_set target
                   (filter (fun a => a ≠ sub_listener sub) array) byTarget)
                index
          | None => index
          end
      | None => index
      end in
    if wild
    then modify (fun s => set_patternListeners (drop (patternListeners s)) s)
    else modify (fun s => set_epicListeners (drop (epicListeners s)) s)).

(** ** Undo and redo *)

Inductive Direction := Backward | Forward.

(** The property read from the entry: ['undo'] or ['redo']. *)
Definition direction_key (d : Direction) : string :=
  match d with Backward => "undo" | Forward => "redo" end.

Definition source_stack (d : Direction) (s : Store) : list UndoEntry :=
  match d with Backward => undoStack s | Forward => redoStack s end.

Definition set_source_stack (d : Direction) (l : list UndoEntry) (s : Store)
  : Store :=
  match d with Backward => set_undoStack l s | Forward => set_redoStack l s end.

Definition target_stack (d : Direction) (s : Store) : list UndoEntry :=
  match d with Backward => redoStack s | Forward => undoStack s end.

Definition set_target_stack (d : Direction) (l : list UndoEntry) (s : Store)
  : Store :=
  match d with Backward => set_redoStack l s | Forward => set_undoStack l s end.

(** [from.pop()] *)
Definition pop (d : Direction) : M (option UndoEntry) :=
  stack <- gets (source_stack d) ;;
  match last stack with
  | Some entry =>
      modify (fun s => set_source_stack d (removelast stack) s) ;;
      ret (Some entry)
  | None => ret None
  end.

(** The body of [getInstances(entry[epicName]).forEach(id => ...)].  What is
    read under ['undo'] or ['redo'] next to the entities of an instance is
    [undefined], or a [{undo, redo}] pair should an entity bear that name;
    neither can be called. *)
Definition change_instance (d : Direction) (epic : option Epic)
    (ofInstance : obj Change) (id : InstKey) : M val :=
  instance <-
    match id with
    | DefaultKey => ret (option_map epic_self epic)
    | IdKey k =>
        e <- defined epic ;;
        instances <- defined (epic_instances e) ;;
        ret (obj_get instances k)
    end ;;
  let change := obj_get ofInstance (direction_key d) in
  instance <- defined instance ;;
  let argument := unfreeze (state instance) in
  match change with
  | Some _ => throw TypeError
  | None => throw TypeError
  end.

(** [Object.keys(entry).forEach(epicName => ...)], with the local
    [epicCache] it fills. *)
Definition change_epics (d : Direction) (entry : UndoEntry) : M EpicCache :=
  foldM (obj_keys entry) ([] : EpicCache) (fun cache epicName =>
    epic <- gets (fun s => obj_get (epicRegistry s) epicName) ;;
    let ofEpic :=
      from_option (fun k => k) keyed_empty (obj_get entry epicName) in
    foldM (getInstances (fun _ => true) ofEpic)
      (obj_set epicName keyed_empty cache)
      (fun cache id =>
         let ofInstance := from_option (fun o => o) [] (keyed_get ofEpic id) in
         v <- change_instance d epic ofInstance id ;;
         write_instance epicName id (fun i =>
           {| state := freeze v; scope := scope i;
              _state := _state i; _scope := _scope i |}) ;;
         ret (obj_set epicName
                (keyed_set id (freeze v)
                   (from_option (fun k => k) keyed_empty
                      (obj_get cache epicName))) cache))).

Definition handleChange (d : Direction) : M EpicCache :=
  entry <- pop d ;;
  match entry with
  | None => throw TypeError            (* [Object.keys(undefined)] *)
  | Some entry =>
      cache <- change_epics d entry ;;
      modify (fun s => set_target_stack d (target_stack d s ++ [entry]) s) ;;
      ret cache
  end.

Definition UNDO_ACTION : Action :=
  {| a_type := "STORE_UNDO"; a_payload := undefined; a_target := None |}.

Definition REDO_ACTION : Action :=
  {| a_type := "STORE_REDO"; a_payload := undefined; a_target := None |}.

(** [store.undo] and [store.redo] exist only in a store created with
    [undo]; calling a property that is [undefined] throws. *)
Definition store_undo : M unit :=
  withUndo <- gets (fun s => undo (options s)) ;;
  if withUndo then
    cache <- handleChange Backward ;;
    processEpicListeners cache (Some UNDO_ACTION) ;;
    ret tt
  else throw TypeError.

Definition store_redo : M unit :=
  withUndo <- gets (fun s => undo (options s)) ;;
  if withUndo then
    cache <- handleChange Forward ;;
    processEpicListeners cache (Some REDO_ACTION) ;;
    ret tt
  else throw TypeError.

(** ** [createStore] and the debug accessors *)

Definition createStore (o : Options) : Store :=
  {| options := o; conditions := []; listeners := [];
     epicRegistry := []; updaterRegistry := []; patternRegistry := [];
     epicListeners := []; patternListeners := [];
     undoStack := []; redoStack := [];
     sourceAction := None; epicCache := []; actionCache := [];
     conditionCache := []; inCycle := false; afterCycle := false;
     undoEntry := []; calls := [] |}.

Definition getEpicState (s : Store) (epicName : string) : option val :=
  option_map (fun e => state (epic_self e)) (obj_get (epicRegistry s) epicName).

Definition getEpicScope (s : Store) (epicName : string) : option val :=
  option_map (fun e => scope (epic_self e)) (obj_get (epicRegistry s) epicName).

(** ** Sequences of calls on a store *)

Inductive Op :=
| DoRegister (e : EpicIn)
| DoAddListener (conds : list InCond) (handler : ListenerHandler)
| DoUnsubscribe (sub : Subscription)
| DoDispatch (depth : nat) (a : ActionIn)
| DoUndo
| DoRedo.

Definition run_op (op : Op) (s : Store) : Store :=
  match op with
  | DoRegister e => snd (register e s)
  | DoAddListener conds handler => snd (addListener conds handler s)
  | DoUnsubscribe sub => snd (unsubscribe sub s)
  | DoDispatch depth a => snd (dispatch depth a s)
  | DoUndo => snd (store_undo s)
  | DoRedo => snd (store_redo s)
  end.

Definition run (ops : list Op) (s : Store) : Store :=
  fold_left (fun s op => run_op op s) ops s.

(** ** Relations between the store before and after a computation *)

Definition preserves {A} (R : Store -> Store -> Prop) (m : M A) : Prop :=
  forall s, R s (snd (m s)).

(** The computation ends by a [throw] or leaves the model. *)
Definition never_returns {A} (m : M A) : Prop :=
  forall s a, fst (m s) <> Ok a.

(** The two stacks and the options are left as they were. *)
Definition same_stacks (s s' : Store) : Prop :=
  options s' = options s /\ undoStack s' = undoStack s /\
  redoStack s' = redoStack s.

(** Both stacks together hold at most [maxUndoStack] entries. *)
Definition within_limit (s : Store) : Prop :=
  (Z.of_nat (length (undoStack s) + length (redoStack s))
   <= maxUndoStack (options s))%Z.

Definition keeps_limit (s s' : Store) : Prop :=
  options s' = options s /\
  ((1 <= maxUndoStack (options s))%Z -> within_limit s -> within_limit s').

(** The registry of Epics is left as it was. *)
Definition same_epics (s s' : Store) : Prop :=
  epicRegistry s' = epicRegistry s.

(** [registry'] is [registry] with updaters of the Epic [name] pushed on
    its arrays, and the types they came with as new keys after the ones it
    had: no updater was dropped or moved, and none of another Epic
    added. *)
Definition files_only (name : string) (registry registry' : obj (list Updater))
  : Prop :=
  (exists types, obj_keys registry' = obj_keys registry ++ types) /\
  forall type, exists pushed,
    from_option (fun l => l) [] (obj_get registry' type)
      = from_option (fun l => l) [] (obj_get registry type) ++ pushed /\
    Forall (fun u => u_epic u = name) pushed.

(** What a registration of the Epic [name] does to the three registries
    before it enters the Epic. *)
Definition registering (name : string) (s s' : Store) : Prop :=
  epicRegistry s' = epicRegistry s /\
  files_only name (updaterRegistry s) (updaterRegistry s') /\
  files_only name (patternRegistry s) (patternRegistry s').

Definition same_updaters (s s' : Store) : Prop :=
  updaterRegistry s' = updaterRegistry s /\
  patternRegistry s' = patternRegistry s.

(** Every condition object is still there, with the committed value it
    had. *)
Definition same_values (h h' : list Condition) : Prop :=
  forall a c, h !! a = Some c ->
    exists c', h' !! a = Some c' /\ cond_value c' = cond_value c.

(** No Epic appeared, and every Epic and every instance is still there,
    with the canonical state and scope it had. *)
Definition same_canon (r r' : obj Epic) : Prop :=
  (forall n, obj_get r n = None -> obj_get r' n = None) /\
  (forall n e id i,
     obj_get r n = Some e -> instance_of e id = Some i ->
     exists e' i',
       obj_get r' n = Some e' /\ instance_of e' id = Some i' /\
       state i' = state i /\ scope i' = scope i).

(** Nothing was committed: options, stacks, committed values and
    canonical states are what they were. *)
Definition nothing_committed (s s' : Store) : Prop :=
  same_stacks s s' /\
  same_values (conditions s) (conditions s') /\
  same_canon (epicRegistry s) (epicRegistry s').

(** What the pump leaves alone: besides, the [epicCache] of the cycle. *)
Definition untouched (s s' : Store) : Prop :=
  epicCache s' = epicCache s /\ nothing_committed s s'.

(** The exceptions a computation may end with. *)
Definition raises_only {A} (P : Exn -> Prop) (m : M A) : Prop :=
  forall s e, fst (m s) = Throw e -> P e.

(** Any exception but [duplicateEpic]. *)
Definition not_duplicate (e : Exn) : Prop := e <> Invariant duplicateEpic.

End Model.

Arguments Ok {F A}.
Arguments Throw {F A}.
Arguments Stuck {F A}.

(** ** A value layer to run the store on

    Numbers, the two sentinels and objects known by their identity, with
    [merge] replacing the target by the patch. *)

Inductive Js := Undefined | Initial | Num (n : Z) | Object (identity : nat).

Definition js_eq (a b : Js) : bool :=
  match a, b with
  | Undefined, Undefined => true
  | Initial, Initial => true
  | Num n, Num m => (n =? m)%Z
  | Object i, Object j => Nat.eqb i j
  | _, _ => false
  end.

Definition js_truthy (a : Js) : bool :=
  match a with
  | Undefined => false
  | Num n => negb (n =? 0)%Z
  | _ => true
  end.

#[export] Instance JsFrozen : Frozen := {|
  val := Js;
  undefined := Undefined;
  initialValue := Initial;
  strict_eq := js_eq;
  truthy := js_truthy;
  freeze := fun v => v;
  unfreeze := fun v => v;
  merge := fun target patch => Merged patch target patch;
  object_of := fun _ _ => Object 0;
  object_truthy := fun _ _ => eq_refl
|}.

(** ** Stores used in the examples *)

Definition plain_options : Options :=
  {| debug := true; patterns := false; undo := false; maxUndoStack := 10 |}.

Definition pattern_options : Options :=
  {| debug := true; patterns := true; undo := false; maxUndoStack := 10 |}.

Definition undo_options : Options :=
  {| debug := true; patterns := false; undo := true; maxUndoStack := 2 |}.

(** A handler that asks for the state [n]. *)
Definition set_state (n : Z) : Handler :=
  fun _ _ =>
    Returns {| hu_state := Some (Num n); hu_scope := None;
               hu_actions := None; hu_passive := false |}.

(** A handler that throws the number 7. *)
Definition failing : Handler := fun _ _ => Raises (Thrown (Num 7)).

Definition on (conds : list InCond) (handler : Handler) : UpdaterIn :=
  {| in_conditions := conds; in_handler := handler |}.

Definition epic_in (name : string) (instance : bool)
    (updaters : list UpdaterIn) : EpicIn :=
  {| in_name := name; in_state := Some (Num 0); in_scope := None;
     in_updaters := updaters; in_instance := instance |}.

Definition registered (e : EpicIn) (s : Store) : Store := snd (register e s).

(** One Epic, [e1], whose reducer on the action [a] sets its state to 1. *)
Definition counter_epic : EpicIn :=
  epic_in "e1" false [on [InStr "a"] (set_state 1)].

Definition counter_store : Store :=
  registered counter_epic (createStore plain_options).

(** The same with a reducer that throws. *)
Definition failing_store : Store :=
  registered (epic_in "e1" false [on [InStr "a"] failing])
    (createStore plain_options).

Definition passive_on (type : string) : InCond :=
  InCondObj
    {| in_type := Some type; in_selector := NoSelector; in_value := None;
       in_passive := true; in_required := false;
       in_id := None; in_target := None |}.

(** An Epic with one reducer, on either of two conditions, the second of
    them passive. *)
Definition half_valid_epic : EpicIn :=
  epic_in "e" false [on [InArr [InStr "a"; passive_on "b"]] (set_state 1)].

(** An instanced Epic, of which no instance exists yet. *)
Definition instanced_store : Store :=
  registered (epic_in "e" true [on [InStr "a"] (set_state 1)])
    (createStore plain_options).

Definition plain_action (type : string) : Action :=
  {| a_type := type; a_payload := Undefined; a_target := None |}.

(** The updater that [register] files for a reducer on one condition. *)
Definition sole_updater (name : string) (handler : Handler) : Updater :=
  {| u_epic := name; u_handler := handler; u_conditions := [Ref 0];
     u_index := 0 |}.

(** [f] follows the Epic [e] through a condition whose committed value is
    1. *)
Definition valued_on (type : string) (v : Js) : InCond :=
  InCondObj
    {| in_type := Some type; in_selector := NoSelector; in_value := Some v;
       in_passive := false; in_required := false;
       in_id := None; in_target := None |}.

Definition follower_store : Store :=
  registered (epic_in "f" false [on [valued_on "e" (Num 1)] (set_state 5)])
    (createStore plain_options).

(** With patterns: [e] listens to [a.*]. *)
Definition dotted_store : Store :=
  registered (epic_in "e" false [on [InStr "a.*"] (set_state 1)])
    (createStore pattern_options).

(** With patterns: [e] listens to [a*] and [f] follows [e]. *)
Definition wildcard_store : Store :=
  registered (epic_in "f" false [on [InStr "e"] (set_state 5)])
    (registered (epic_in "e" false [on [InStr "a*"] (set_state 1)])
       (createStore pattern_options)).

(** A store with undo, and one whose undo stack holds two entries of
    cycles that changed nothing. *)
Definition undo_store : Store := createStore undo_options.

Definition stacked_store : Store := set_undoStack [[]; []] undo_store.

(** A store with undo in which [e1] went from 0 to 1, as
    [makeHandleUpdate] would have recorded it. *)
Definition recorded_entry : UndoEntry :=
  [("e1",
    {| named := [];
       dflt := Some [("state", {| ch_undo := Num 0; ch_redo := Num 1 |})] |})].

Definition recorded_store : Store :=
  set_undoStack [recorded_entry]
    (registered
       {| in_name := "e1"; in_state := Some (Num 1); in_scope := None;
          in_updaters := [on [InStr "a"] (set_state 1)];
          in_instance := false |}
       (createStore undo_options)).

(** [e1] listens to [a] and requires [b] with it. *)
Definition required_on (type : string) : InCond :=
  InCondObj
    {| in_type := Some type; in_selector := NoSelector; in_value := None;
       in_passive := false; in_required := true;
       in_id := None; in_target := None |}.

Definition required_store : Store :=
  registered (epic_in "e1" false [on [InStr "a"; required_on "b"] (set_state 1)])
    (createStore plain_options).

Definition action_with (type : string) (payload : Js) : Action :=
  {| a_type := type; a_payload := payload; a_target := None |}.

(** ** [store.unregister] *)

(** [delete o[k]]; a key names at most one property of an object. *)
Definition obj_delete {V} (k : string) (o : obj V) : obj V :=
  List.filter (fun kv => negb (String.eqb k (fst kv))) o.

Section Unregister.
Context {F : Frozen}.

Notation "x <- m ;; k" := (bind m (fun x => k))
  (at level 100, m at next level, right associativity).
Notation "m ;; k" := (bind m (fun _ => k))
  (at level 100, right associativity).

(** The argument of [unregister]: the name of an Epic, or an object that
    carries the name as its [name]. *)
Inductive EpicArg := ByName (name : string) | ByObject (e : EpicIn).

(** [epic.name || epic], as the property key it is used as.  An object
    whose [name] is the empty string stands for itself, and reads as a key
    like any plain object. *)
Definition unregister_key (a : EpicArg) : string :=
  match a with
  | ByName name => name
  | ByObject e =>
      match truthy_string (Some (in_name e)) with
      | Some name => name
      | None => "[object Object]"
      end
  end.

(** [epic === epicName], for the [epic] of an updater: a string, which no
    object is identical to. *)
Definition names_epic (a : EpicArg) (u : Updater) : bool :=
  match a with
  | ByName name => String.eqb (u_epic u) name
  | ByObject e =>
      match truthy_string (Some (in_name e)) with
      | Some name => String.eqb (u_epic u) name
      | None => false
      end
  end.

(** [Object.keys(registry).forEach(condition => { registry[condition] =
    registry[condition].filter(({ epic }) => epic !== epicName) })] *)
Definition drop_updaters (a : EpicArg) (registry : obj (list Updater))
  : obj (list Updater) :=
  fold_left
    (fun r condition =>
       obj_set condition
         (List.filter (fun u => negb (names_epic a u))
            (from_option (fun l => l) [] (obj_get r condition))) r)
    (obj_keys registry) registry.

Definition unregister (a : EpicArg) : M unit :=
  let epicName := unregister_key a in
  registered <- gets (fun s => obj_has (epicRegistry s) epicName) ;;
  if registered then
    modify (fun s =>
      set_epicRegistry (obj_delete epicName (epicRegistry s)) s) ;;
    modify (fun s =>
      set_updaterRegistry (drop_updaters a (updaterRegistry s)) s) ;;
    modify (fun s =>
      set_patternRegistry (drop_updaters a (patternRegistry s)) s)
  else ret tt.

End Unregister.

(** ** What the properties are stated with *)

(** A string without line terminators. *)
Fixpoint one_line (s : string) : bool :=
  match s with
  | EmptyString => true
  | String c s' => negb ((c =? "010")%char || (c =? "013")%char) && one_line s'
  end.

Section Notions.
Context {F : Frozen}.

Notation "x <- m ;; k" := (bind m (fun x => k))
  (at level 100, m at next level, right associativity).
Notation "m ;; k" := (bind m (fun _ => k))
  (at level 100, right associativity).

(** The errors of a condition, and those of a registration. *)
Definition condition_error (e : Exn) : Prop :=
  e = Invariant invalidConditionType \/ e = Invariant invalidConditionSelector.

Definition registration_error (e : Exn) : Prop :=
  e = Invariant duplicateEpic \/ e = Invariant invalidConditionType \/
  e = Invariant invalidConditionSelector \/ e = Invariant noPassiveUpdaters \/
  e = TypeError.

(** The computation stays within the model, and throws nothing but what
    [P] allows. *)
Definition ends_within {A} (P : Exn -> Prop) (m : M A) : Prop :=
  forall s,
    match fst (m s) with
    | Ok _ => True
    | Throw e => P e
    | Stuck => False
    end.

(** The store is what it was. *)
Definition unchanged (s s' : Store) : Prop := s' = s.

(** *** Compiled conditions *)

(** The condition objects under a compiled condition, in order. *)
Fixpoint addresses (r : CondRef) : list nat :=
  match r with
  | Ref a => [a]
  | Arr items =>
      (fix each (l : list CondRef) : list nat :=
         match l with
         | [] => []
         | x :: l' => addresses x ++ each l'
         end) items
  end.

(** The store grew by the condition objects [new] and is otherwise what
    it was. *)
Definition allocated (new : list Condition) (s s' : Store) : Prop :=
  s' = set_conditions (conditions s ++ new) s.

(** What a compilation does: it allocates condition objects, returns
    their addresses in the order of allocation, and throws nothing but the
    errors of a condition. *)
Definition compiles {A} (refs : A -> list nat) (m : M A) : Prop :=
  forall s, exists new,
    allocated new s (snd (m s)) /\
    match fst (m s) with
    | Ok a => refs a = seq (length (conditions s)) (length new)
    | Throw e => condition_error e
    | Stuck => False
    end.

Definition is_ref (r : CondRef) : bool :=
  match r with Ref _ => true | Arr _ => false end.

(** The conditions an element of a [conditions] array stands for: itself,
    or, for an array, what its elements stand for, in order. *)
Fixpoint alternatives (r : CondRef) : list CondRef :=
  match r with
  | Ref a => [Ref a]
  | Arr items =>
      (fix each (l : list CondRef) : list CondRef :=
         match l with
         | [] => []
         | x :: l' => alternatives x ++ each l'
         end) items
  end.

(** One element of each list, the first list varying slowest. *)
Fixpoint product {A} (l : list (list A)) : list (list A) :=
  match l with
  | [] => [[]]
  | xs :: l' => flat_map (fun x => map (cons x) (product l')) xs
  end.

(** Every array, at any depth, has an element. *)
Fixpoint inhabited (r : CondRef) : bool :=
  match r with
  | Ref _ => true
  | Arr items =>
      match items with [] => false | _ => true end &&
      (fix all (l : list CondRef) : bool :=
         match l with
         | [] => true
         | x :: l' => inhabited x && all l'
         end) items
  end.

(** *** The pump *)

Definition is_listener_call (c : Call) : bool :=
  match c with ListenerCall _ _ => true | UpdaterCall _ _ _ _ => false end.

(** The calls of listeners' handlers, in order. *)
Definition listener_calls (s : Store) : list Call :=
  List.filter is_listener_call (calls s).

(** What the pump never assigns. *)
Definition beside_pump (s : Store) :=
  (options s, listeners s, updaterRegistry s, patternRegistry s,
   epicListeners s, patternListeners s, undoStack s, redoStack s,
   sourceAction s, epicCache s, inCycle s, afterCycle s, undoEntry s).

(** What the pump may change: the condition objects, not their number; the
    registry of Epics; [actionCache] and [conditionCache], which grow; the
    record of the calls, which grows by calls of updaters. *)
Definition pump_frame (s s' : Store) : Prop :=
  beside_pump s' = beside_pump s /\
  length (conditions s') = length (conditions s) /\
  (forall t, obj_has (actionCache s) t = true ->
             obj_has (actionCache s') t = true) /\
  (exists l, conditionCache s' = conditionCache s ++ l) /\
  (exists l, calls s' = calls s ++ l /\
             forallb (fun c => negb (is_listener_call c)) l = true).

(** What registrations and subscriptions set up, and what listeners were
    told. *)
Definition beside_cycle (s : Store) :=
  (options s, listeners s, updaterRegistry s, patternRegistry s,
   epicListeners s, patternListeners s, length (conditions s),
   listener_calls s).

Definition quiet (s s' : Store) : Prop := beside_cycle s' = beside_cycle s.

(** *** Listeners *)

(** No Epic of the cache has an instance that [getInstances] lists. *)
Definition no_instance (cache : EpicCache) : Prop :=
  forall n k, obj_get cache n = Some k -> getInstances truthy k = [].

Definition is_call_to (address : nat) (c : Call) : bool :=
  match c with
  | ListenerCall a _ => Nat.eqb a address
  | UpdaterCall _ _ _ _ => false
  end.

(** How many times the handler of the listener at [address] was called. *)
Definition calls_to (address : nat) (s : Store) : nat :=
  length (List.filter (is_call_to address) (calls s)).

(** The listener at [address] bears the mark [processed]. *)
Definition processed_at (s : Store) (address : nat) : Prop :=
  exists l, listeners s !! address = Some l /\ l_processed l = true.

(** Each listener was called once at most, and not at all if it bore the
    mark; one that was called bears the mark. *)
Definition once_each (s s' : Store) : Prop :=
  forall a,
    calls_to a s <= calls_to a s' <= calls_to a s + 1 /\
    (processed_at s a -> processed_at s' a /\ calls_to a s' = calls_to a s) /\
    (calls_to a s < calls_to a s' -> processed_at s' a).

(** No handler was called and no listener object was written. *)
Definition same_told (s s' : Store) : Prop :=
  listeners s' = listeners s /\ calls s' = calls s.

(** No listener object was written, and no handler was called but, once
    at most, that of the listener at [address]. *)
Definition told_to (address : nat) (s s' : Store) : Prop :=
  listeners s' = listeners s /\
  forall a,
    calls_to a s <= calls_to a s' /\
    calls_to a s' <= calls_to a s + (if Nat.eqb a address then 1 else 0).

(** No handler was called. *)
Definition same_calls (s s' : Store) : Prop := calls s' = calls s.

(** *** Subscriptions *)

(** [index[type][target]], an empty array when there is none. *)
Definition listeners_at (index : ListenerIndex) (type : string)
    (target : InstKey) : list nat :=
  match obj_get index type with
  | Some byTarget => from_option (fun l => l) [] (keyed_get byTarget target)
  | None => []
  end.

(** The listener at [address] is in no array of the two indices. *)
Definition unlisted (address : nat) (s : Store) : Prop :=
  forall type target,
    ~ In address (listeners_at (epicListeners s) type target) /\
    ~ In address (listeners_at (patternListeners s) type target).

(** The body of [conditions.map(({ type, target }) => ...)]
    in [addListener], for the listener at [address]. *)
Definition index_listener (address : nat) (r : CondRef)
  : M (bool * string * InstKey) :=
  heap <- gets conditions ;;
  withPatterns <- gets (fun s => patterns (options s)) ;;
  let type := ref_type_key heap r in
  let target :=
    match view heap r ≫= cond_target with
    | Some t => IdKey t
    | None => DefaultKey
    end in
  let wild := withPatterns && Pattern.has_star type in
  push_listener wild type target address ;;
  ret (wild, type, target).

(** [listeners[type][target] = listeners[type][target].filter(listener =>
    listener !== epicListener)] *)
Definition drop_listener (address : nat) (type : string) (target : InstKey)
    (index : ListenerIndex) : ListenerIndex :=
  match obj_get index type with
  | Some byTarget =>
      match keyed_get byTarget target with
      | Some array =>
          obj_set type
            (keyed_set target (filter (fun a => a ≠ address) array) byTarget)
            index
      | None => index
      end
  | None => index
  end.

(** The store but for the two indices of listeners. *)
Definition beside_indices (s : Store) : Store :=
  set_patternListeners [] (set_epicListeners [] s).

(** The indices after [s] hold, beyond what they held, the listener
    at [address], where [cache] says and nowhere else. *)
Definition indexed_by (address : nat) (cache : list (bool * string * InstKey))
    (s s' : Store) : Prop :=
  beside_indices s' = beside_indices s /\
  forall t tg,
    (exists n,
       listeners_at (epicListeners s') t tg
         = listeners_at (epicListeners s) t tg ++ repeat address n /\
       (~ In (false, t, tg) cache -> n = 0) /\
       (In (false, t, tg) cache -> 0 < n)) /\
    (exists n,
       listeners_at (patternListeners s') t tg
         = listeners_at (patternListeners s) t tg ++ repeat address n /\
       (~ In (true, t, tg) cache -> n = 0) /\
       (In (true, t, tg) cache -> 0 < n)).

(** The indices after [s] hold what they held, but for the listener
    at [address] where [cache] says. *)
Definition unindexed_by (address : nat)
    (cache : list (bool * string * InstKey)) (s s' : Store) : Prop :=
  beside_indices s' = beside_indices s /\
  forall t tg,
    (listeners_at (epicListeners s') t tg
       = filter (fun x => x ≠ address) (listeners_at (epicListeners s) t tg) \/
     listeners_at (epicListeners s') t tg = listeners_at (epicListeners s) t tg /\
     ~ In (false, t, tg) cache) /\
    (listeners_at (patternListeners s') t tg
       = filter (fun x => x ≠ address) (listeners_at (patternListeners s) t tg) \/
     listeners_at (patternListeners s') t tg
       = listeners_at (patternListeners s) t tg /\
     ~ In (true, t, tg) cache).

(** *** Routing by patterns *)

(** [getRegexFromPattern(pattern).test(type)] answers [true]. *)
Definition regex_matches (pattern type : string) : bool :=
  match Pattern.pattern_test pattern type with
  | Pattern.Answers b => b
  | _ => false
  end.

(** The updaters that an action of [type] is routed to, each with the key
    it is filed under, in the order in which the pump takes them: those
    filed under the type itself and, with patterns enabled, those filed
    under every pattern whose regex matches the type. *)
Definition routes (s : Store) (type : string) : list (string * Updater) :=
  map (pair type)
    (from_option (fun l => l) [] (obj_get (updaterRegistry s) type)) ++
  (if patterns (options s)
   then
     flat_map
       (fun key =>
          if regex_matches key type
          then map (pair key)
                 (from_option (fun l => l) []
                    (obj_get (patternRegistry s) key))
          else [])
       (obj_keys (patternRegistry s))
   else []).

(** The condition of an updater that the pump takes as the active one
    under [key]: the first of that type. *)
Definition active_condition (heap : list Condition)
    (route : string * Updater) : option nat :=
  match find (ref_has_type heap (fst route)) (u_conditions (snd route)) with
  | Some (Ref address) => Some address
  | _ => None
  end.

(** The call is one of the handler of an updater of [us]. *)
Definition call_of (us : list Updater) (c : Call) : Prop :=
  match c with
  | UpdaterCall name index _ _ =>
      exists u, In u us /\ u_epic u = name /\ u_index u = index
  | ListenerCall _ _ => False
  end.

(** The condition objects of [heap] are in [heap'], with their types. *)
Definition types_kept (heap heap' : list Condition) : Prop :=
  forall a, option_map cond_type (heap' !! a) = option_map cond_type (heap !! a).

(** Since [s0] the options, the registries of updaters and the types of
    the conditions have stayed. *)
Definition kept (s0 s : Store) : Prop :=
  options s = options s0 /\
  updaterRegistry s = updaterRegistry s0 /\
  patternRegistry s = patternRegistry s0 /\
  types_kept (conditions s0) (conditions s).

(** From [s], with the outcome [end], the pump took the updaters of [l]
    in order, each by its active condition, which it cached: all of them
    if it returned, those before the one at which it stopped otherwise;
    and it called no handler but of [l]. *)
Definition took (s0 : Store) (l : list (string * Updater))
    (s : Store) (outcome : Result unit * Store) : Prop :=
  kept s0 (snd outcome) /\
  exists done rest,
    conditionCache (snd outcome) = conditionCache s ++ done /\
    map (active_condition (conditions s0)) l = map Some done ++ rest /\
    (fst outcome = Ok tt -> rest = []) /\
    exists new, calls (snd outcome) = calls s ++ new /\
                Forall (call_of (map snd l)) new.

(** The loop of [processEpicListeners] over the changed Epics, before
    the conditions of the listeners are reset.  It returns the local
    arrays: [epicListenerCache], the listeners that were told, in the
    order in which they were, and [postProcessingErrors]. *)
Definition notify_listeners (cache : EpicCache) (source : option Action)
  : M Locals :=
  foldM (obj_keys cache) (([], []) : Locals) (fun acc epicName =>
    withPatterns <- gets (fun s => patterns (options s)) ;;
    wild <- gets patternListeners ;;
    matchedPatterns <-
      (if withPatterns
       then foldM (obj_keys wild) [] (fun matched key =>
              hit <- test_pattern key epicName ;;
              ret (if hit then matched ++ [key] else matched))
       else ret []) ;;
    epic <- gets (fun s => obj_get (epicRegistry s) epicName) ;;
    let changed :=
      from_option (getInstances truthy) [] (obj_get cache epicName) in
    foldM changed acc (fun acc id =>
      found <- gather_listeners epicName id matchedPatterns ;;
      foldM found acc (notify cache source epic))).

(** The listeners in the arrays of an entry of an index. *)
Definition listed (byTarget : Keyed (list nat)) : list nat :=
  flat_map snd (named byTarget) ++ from_option (fun l => l) [] (dflt byTarget).

(** The listener at [address] is filed under the Epic [epicName] or, with
    patterns enabled, under a pattern whose regex matches [epicName]. *)
Definition listens_to (s : Store) (epicName : string) (address : nat)
  : Prop :=
  (exists byTarget,
     obj_get (epicListeners s) epicName = Some byTarget /\
     In address (listed byTarget)) \/
  (patterns (options s) = true /\
   exists key byTarget,
     regex_matches key epicName = true /\
     obj_get (patternListeners s) key = Some byTarget /\
     In address (listed byTarget)).

(** The listener at [address] is filed for an Epic that changed. *)
Definition routed (s0 : Store) (cache : EpicCache) (address : nat) : Prop :=
  exists epicName, In epicName (obj_keys cache) /\ listens_to s0 epicName address.

(** Neither the options nor an index nor a listener object changed. *)
Definition same_indices (s s' : Store) : Prop :=
  options s' = options s /\
  patternListeners s' = patternListeners s /\
  epicListeners s' = epicListeners s /\
  listeners s' = listeners s.

(** Where the loop of [processEpicListeners] stands, with the
    listeners [told] so far, since it began on [s0]: the options
    and [patternListeners] are what they were; [epicListeners] holds,
    under a name, listeners that were filed for it; the listeners told
    were filed for an Epic that changed; and a listener that bears the
    mark was told, or bore it before. *)
Definition telling (s0 : Store) (cache : EpicCache) (told : list nat)
    (s : Store) : Prop :=
  options s = options s0 /\
  patternListeners s = patternListeners s0 /\
  (forall n byTarget a,
     obj_get (epicListeners s) n = Some byTarget ->
     In a (listed byTarget) -> listens_to s0 n a) /\
  (forall a, In a told -> routed s0 cache a) /\
  (forall a, processed_at s a -> In a told \/ processed_at s0 a).

(** The listeners that await a change of the instance [id] of the
    Epic [n] under a pattern that matches [n] were told, or bore the mark
    before. *)
Definition told_of (s0 : Store) (cache : EpicCache) (n : string)
    (id : InstKey) (told : list nat) : Prop :=
  patterns (options s0) = true ->
  forall key byTarget found l a,
    obj_get (patternListeners s0) key = Some byTarget ->
    regex_matches key n = true ->
    choose_array byTarget id = Some (found, l) ->
    In a l ->
    In a told \/ processed_at s0 a.

(** What [processUpdater] does for the updater [u]: it leaves the options,
    the registries of updaters, the conditions and their cache alone, and
    calls no handler but that of [u]. *)
Definition handles (u : Updater) (s s' : Store) : Prop :=
  options s' = options s /\
  updaterRegistry s' = updaterRegistry s /\
  patternRegistry s' = patternRegistry s /\
  conditions s' = conditions s /\
  conditionCache s' = conditionCache s /\
  exists new, calls s' = calls s ++ new /\ Forall (call_of [u]) new.

(** *** Undo entries *)

(** The entry records a change for no instance of any Epic, as the entry
    of a cycle in which no reducer changed anything. *)
Definition blank (entry : UndoEntry) : Prop :=
  forall n k, obj_get entry n = Some k -> named k = [] /\ dflt k = None.

End Notions.

(** ** The class [Epic] of [src/Epic.ts] *)

Module EpicClass.
Section EpicClass.
Context {F : Frozen}.

(** The first argument of [on]: one condition (an [anyOf] array is one),
    or what [resolve] marked, an array or an object of conditions. *)
Inductive Resolvable :=
| SoloFormat (c : InCond)
| ArrayFormat (l : list InCond)
| ObjectFormat (o : obj InCond).

(** What the handler given to [on] receives as its first argument. *)
Inductive Values :=
| SoloValue (v : val)
| ArrayValues (l : list val)
| ObjectValues (o : obj val).

(** The function given to [on], with its [name]. *)
Record EpicHandler := {
  h_name : string;
  h_run : Values -> HandlerCtx -> HandlerResult
}.

Record EpicUpdater := {
  up_name : string;
  up_conditions : list InCond;
  up_handler : Handler
}.

Record EpicObject := {
  e_name : string;
  e_state : val;
  e_scope : val;
  _updaters : list EpicUpdater
}.

(** [Object.keys(condition)] *)
Definition indexedKeys (condition : Resolvable) : list string :=
  match condition with
  | ObjectFormat o => obj_keys o
  | _ => []
  end.

Definition inputConditions (condition : Resolvable) : list InCond :=
  match condition with
  | SoloFormat c => [c]
  | ArrayFormat l => l
  | ObjectFormat o =>
      flat_map
        (fun key => match obj_get o key with Some c => [c] | None => [] end)
        (obj_keys o)
  end.

(** [values.reduce((a, c, i) => Object.assign(a, { [indexedKeys[i]]: c }),
    {})]; beyond the keys, [indexedKeys[i]] is [undefined]. *)
Definition keyed_values (keys : list string) (values : list val) : obj val :=
  fold_left
    (fun a ic => obj_set (nth (fst ic) keys "undefined") (snd ic) a)
    (combine (seq 0 (length values)) values) [].

Definition outputValues (condition : Resolvable) (values : list val)
  : Values :=
  match condition with
  | SoloFormat _ => SoloValue (from_option (fun v => v) undefined (head values))
  | ArrayFormat _ => ArrayValues values
  | ObjectFormat _ => ObjectValues (keyed_values (indexedKeys condition) values)
  end.

Definition on (condition : Resolvable) (handler : EpicHandler)
    (e : EpicObject) : EpicObject :=
  {| e_name := e_name e; e_state := e_state e; e_scope := e_scope e;
     _updaters :=
       _updaters e ++
       [{| up_name := h_name handler;
           up_conditions := inputConditions condition;
           up_handler := fun values ctx =>
             h_run handler (outputValues condition values) ctx |}] |}.

End EpicClass.
End EpicClass.

(** ** More stores for the examples *)

(** With patterns: [e] listens to [*+], which [new RegExp] refuses once
    the [*] is replaced. *)
Definition malformed_store : Store :=
  registered (epic_in "e" false [on [InStr "*+"] (set_state 1)])
    (createStore pattern_options).

(** A store with undo, of which the last cycle touched [e1] and changed
    nothing. *)
Definition blank_entry : UndoEntry := [("e1", keyed_empty)].

Definition blank_store : Store :=
  set_undoStack [blank_entry]
    (registered counter_epic (createStore undo_options)).

(** A condition whose [type] is not a string. *)
Definition untyped : InCond :=
  InCondObj
    {| in_type := None; in_selector := NoSelector; in_value := None;
       in_passive := false; in_required := false;
       in_id := None; in_target := None |}.

(** An Epic whose reducer has a condition without a type, after one
    on [a]. *)
Definition untyped_epic : EpicIn :=
  epic_in "e" false [on [InStr "a"; untyped] (set_state 1)].

(** An Epic with a reducer on the action [constructor]. *)
Definition constructor_epic : EpicIn :=
  epic_in "e" false [on [InStr "constructor"] (set_state 1)].

(** A condition on the instance [constructor] of [e1]. *)
Definition constructor_target : InCond :=
  InCondObj
    {| in_type := Some "e1"; in_selector := NoSelector; in_value := None;
       in_passive := false; in_required := false;
       in_id := None; in_target := Some "constructor" |}.

(** A listener's handler that returns. *)
Definition silent : ListenerHandler := fun _ _ => None.

(** With patterns: the instanced Epic [e], and a listener that awaits
    the Epics [e*]; and the changes of a cycle in which the state of the
    instance [i1] of [e] became 1. *)
Definition awaiting_store : Store :=
  snd (addListener [InStr "e*"] silent
         (registered (epic_in "e" true [on [InStr "a"] (set_state 1)])
            (createStore pattern_options))).

Definition awaiting_cache : EpicCache :=
  [("e", {| named := [("i1", Num 1)]; dflt := None |})].

(** The store of [e1] with a listener to [e1], and the subscription
    that [addListener] returned for it. *)
Definition listening_store : Store :=
  snd (addListener [InStr "e1"] silent counter_store).

Definition e1_subscription : Subscription :=
  {| sub_listener := 0; sub_cache := [(false, "e1", DefaultKey)] |}.

(** The changes of a cycle in which the state of [e1] became 0. *)
Definition zero_cache : EpicCache :=
  [("e1", {| named := []; dflt := Some (Num 0) |})].

(** The compiled conditions of a reducer on a condition, on one of three
    more, and on a fifth. *)
Definition nested_conditions : list CondRef :=
  [Ref 0; Arr [Ref 1; Arr [Ref 2; Ref 3]]; Ref 4].

(** An Epic of [src/Epic.ts], a function for its reducers, and an object
    of two conditions. *)
Definition bare_epic : EpicClass.EpicObject :=
  {| EpicClass.e_name := "e"; EpicClass.e_state := Initial;
     EpicClass.e_scope := Initial; EpicClass._updaters := [] |}.

Definition keep : EpicClass.EpicHandler :=
  {| EpicClass.h_name := "keep";
     EpicClass.h_run := fun _ _ =>
       Returns {| hu_state := None; hu_scope := None;
                  hu_actions := None; hu_passive := false |} |}.

Definition xy_conditions : obj InCond := [("x", InStr "a"); ("y", InStr "b")].

Definition first_context : HandlerCtx :=
  {| ctx_state := Initial; ctx_currentCycleState := Initial;
     ctx_scope := Initial; ctx_currentCycleScope := Initial;
     ctx_sourceAction := None; ctx_currentAction := plain_action "a" |}.

(** The store of the counter after the pump took the action [a]: its
    condition is cached, with a value staged. *)
Definition pumped_store : Store :=
  snd (processAction 1 (plain_action "a") true counter_store).

(** * Properties *)

Section Facts.
Context {F : Frozen}.

Notation "x <- m ;; k" := (bind m (fun x => k))
  (at level 100, m at next level, right associativity).
Notation "m ;; k" := (bind m (fun _ => k))
  (at level 100, right associativity).

(** ** Objects *)

Lemma obj_get_set_same {V} (o : obj V) k v : obj_get (obj_set k v o) k = Some v.
Proof.
  induction o as [|[k' v'] o IH]; simpl.
  - rewrite String.eqb_refl. reflexivity.
  - destruct (String.eqb k k') eqn:E; simpl.
    + rewrite String.eqb_refl. reflexivity.
    + rewrite E. exact IH.
Qed.

Lemma obj_get_set_other {V} (o : obj V) k k' v :
  k' <> k -> obj_get (obj_set k v o) k' = obj_get o k'.
Proof.
  intros N. induction o as [|[k0 v0] o IH]; simpl.
  - destruct (String.eqb k' k) eqn:E; [|reflexivity].
    apply String.eqb_eq in E. contradiction.
  - destruct (String.eqb k k0) eqn:E; simpl.
    + apply String.eqb_eq in E. subst k0.
      destruct (String.eqb k' k) eqn:E'; [|reflexivity].
      apply String.eqb_eq in E'. contradiction.
    + destruct (String.eqb k' k0); [reflexivity | exact IH].
Qed.

Lemma instance_of_put id i e : instance_of (put_instance id i e) id = Some i.
Proof. destruct id; simpl; [reflexivity | apply obj_get_set_same]. Qed.

(** ** Relations kept by the control operators *)

Section Frame.
Context (R : Store -> Store -> Prop) `{!PreOrder R}.

Lemma preserves_ret {A} (a : A) : preserves R (ret a).
Proof. intros s. reflexivity. Qed.

Lemma preserves_throw {A} e : preserves R (@throw _ A e).
Proof. intros s. reflexivity. Qed.

Lemma preserves_stuck {A} : preserves R (@stuck _ A).
Proof. intros s. reflexivity. Qed.

Lemma preserves_gets {A} (f : Store -> A) : preserves R (gets f).
Proof. intros s. reflexivity. Qed.

Lemma preserves_free {A} name : preserves R (@free_identifier _ A name).
Proof. intros s. reflexivity. Qed.

Lemma preserves_modify f : (forall s, R s (f s)) -> preserves R (modify f).
Proof. intros H s. apply H. Qed.

Lemma preserves_bind {A B} (m : M A) (k : A -> M B) :
  preserves R m -> (forall a, preserves R (k a)) -> preserves R (bind m k).
Proof.
  intros Hm Hk s. unfold bind. specialize (Hm s).
  destruct (m s) as [[a| e |] s']; simpl in *; try assumption.
  etransitivity; [exact Hm | apply Hk].
Qed.

Lemma preserves_try_catch {A} (m : M A) :
  preserves R m -> preserves R (try_catch m).
Proof.
  intros Hm s. unfold try_catch. specialize (Hm s).
  destruct (m s) as [[a| e |] s']; assumption.
Qed.

Lemma preserves_forEach {A} (l : list A) (f : A -> M unit) :
  (forall x, preserves R (f x)) -> preserves R (forEach l f).
Proof.
  intros Hf. induction l as [|x l IH]; simpl.
  - apply preserves_ret.
  - apply preserves_bind; [apply Hf | intros _; exact IH].
Qed.

Lemma preserves_mapM {A B} (l : list A) (f : A -> M B) :
  (forall x, preserves R (f x)) -> preserves R (mapM l f).
Proof.
  intros Hf. induction l as [|x l IH]; simpl.
  - apply preserves_ret.
  - apply preserves_bind; [apply Hf | intros y].
    apply preserves_bind; [exact IH | intros ys; apply preserves_ret].
Qed.

Lemma preserves_foldM {A B} (l : list A) (acc : B) (f : B -> A -> M B) :
  (forall b x, preserves R (f b x)) -> preserves R (foldM l acc f).
Proof.
  intros Hf. revert acc. induction l as [|x l IH]; intros acc; simpl.
  - apply preserves_ret.
  - apply preserves_bind; [apply Hf | intros b; apply IH].
Qed.

Lemma preserves_invariant c code : preserves R (invariant c code).
Proof. destruct c; [apply preserves_ret | apply preserves_throw]. Qed.

Lemma preserves_defined {A} (o : option A) : preserves R (defined o).
Proof. destruct o; [apply preserves_ret | apply preserves_throw]. Qed.

End Frame.

Lemma preserves_weaken {A} (R R' : Store -> Store -> Prop) (m : M A) :
  (forall s s', R s s' -> R' s s') -> preserves R m -> preserves R' m.
Proof. intros H Hm s. apply H, Hm. Qed.

(** One step through a computation, by its outermost operator. *)
Ltac frame_step :=
  match goal with
  | |- preserves ?R (ret _) => apply (preserves_ret R)
  | |- preserves ?R (throw _) => apply (preserves_throw R)
  | |- preserves ?R stuck => apply (preserves_stuck R)
  | |- preserves ?R (gets _) => apply (preserves_gets R)
  | |- preserves ?R (free_identifier _) => apply (preserves_free R)
  | |- preserves ?R (invariant _ _) => apply (preserves_invariant R)
  | |- preserves ?R (defined _) => apply (preserves_defined R)
  | |- preserves ?R (bind _ _) => apply (preserves_bind R); [| intros ?]
  | |- preserves ?R (try_catch _) => apply (preserves_try_catch R)
  | |- preserves ?R (forEach _ _) => apply (preserves_forEach R); intros ?
  | |- preserves ?R (mapM _ _) => apply (preserves_mapM R); intros ?
  | |- preserves ?R (foldM _ _ _) => apply (preserves_foldM R); intros ? ?
  | |- preserves ?R (modify _) => apply (preserves_modify R); intros ?
  | |- preserves _ (match ?x with _ => _ end) => destruct x
  end.

(** ** Computations that never return *)

Lemma never_returns_throw {A} e : never_returns (@throw _ A e).
Proof. intros s a. discriminate. Qed.

Lemma never_returns_bind_l {A B} (m : M A) (k : A -> M B) :
  never_returns m -> never_returns (bind m k).
Proof.
  intros H s b. unfold bind. specialize (H s).
  destruct (m s) as [[a|e|] s']; simpl in *; try discriminate.
  exfalso. apply (H a). reflexivity.
Qed.

Lemma never_returns_bind_r {A B} (m : M A) (k : A -> M B) :
  (forall a, never_returns (k a)) -> never_returns (bind m k).
Proof.
  intros H s b. unfold bind.
  destruct (m s) as [[a|e|] s']; simpl; try discriminate. apply H.
Qed.

(** [processEpicListeners] ends on [return errors], and [errors] is bound
    nowhere. *)
Lemma processEpicListeners_never_returns cache source :
  never_returns (processEpicListeners cache source).
Proof.
  unfold processEpicListeners.
  apply never_returns_bind_r. intros acc.
  apply never_returns_bind_r. intros _.
  apply never_returns_throw.
Qed.

(** Induction on conditions, through the arrays. *)
Lemma InCond_nested_ind (P : InCond -> Prop) :
  (forall type, P (InStr type)) ->
  (forall o, P (InCondObj o)) ->
  (forall l, Forall P l -> P (InArr l)) ->
  forall c, P c.
Proof.
  intros Hs Ho Ha. fix IH 1. intros [type|o|l].
  - apply Hs.
  - apply Ho.
  - apply Ha. induction l as [|c l IHl]; constructor; [apply IH | exact IHl].
Qed.

(** Compiling conditions allocates condition objects and does nothing
    else to the store. *)
Lemma processCondition_preserves (R : Store -> Store -> Prop) :
  PreOrder R -> (forall x s, R s (set_conditions x s)) ->
  forall c, preserves R (processCondition c).
Proof.
  intros HR Hset.
  assert (Hcompile : forall o, preserves R (compile o)).
  { intros o. unfold compile, alloc_condition. repeat frame_step. apply Hset. }
  induction c as [type|o|l IH] using InCond_nested_ind; simpl.
  - apply Hcompile.
  - apply Hcompile.
  - frame_step; [|frame_step].
    induction IH as [|c l Hc _ IHl]; repeat frame_step; assumption.
Qed.

Lemma preserves_raised_by (R : Store -> Store -> Prop) :
  PreOrder R -> forall builder code, preserves R (raised_by builder code).
Proof. intros HR [[|n]|] code s; reflexivity. Qed.

Lemma processCondition_with_preserves (R : Store -> Store -> Prop) :
  PreOrder R -> (forall x s, R s (set_conditions x s)) ->
  forall builder c, preserves R (processCondition_with builder c).
Proof.
  intros HR Hset builder.
  assert (Hcompile : forall o, preserves R (compile_with builder o)).
  { intros o. unfold compile_with, alloc_condition.
    repeat first [ apply preserves_raised_by; exact HR | frame_step ].
    apply Hset. }
  induction c as [type|o|l IH] using InCond_nested_ind; simpl.
  - apply Hcompile.
  - apply Hcompile.
  - frame_step; [|frame_step].
    induction IH as [|c l Hc _ IHl]; repeat frame_step; assumption.
Qed.

(** Compiling the reducers of an Epic allocates condition objects and
    files updaters, and does nothing else to the store. *)
Lemma compile_updaters_preserves (R : Store -> Store -> Prop) :
  PreOrder R ->
  (forall x s, R s (set_conditions x s)) ->
  (forall x s, R s (set_updaterRegistry x s)) ->
  (forall x s, R s (set_patternRegistry x s)) ->
  forall name l builder, preserves R (compile_updaters name builder l).
Proof.
  intros HR Hc Hu Hp name l.
  induction l as [|iu l IH]; intros builder; cbn [compile_updaters].
  - frame_step.
  - unfold compile_updater, make_updater, index_updater.
    repeat first [ apply processCondition_with_preserves; [exact HR|exact Hc]
                 | apply preserves_raised_by; exact HR
                 | apply IH
                 | frame_step ]; auto.
Qed.

(** ** The undo and redo stacks *)

#[local] Instance same_stacks_pre : PreOrder same_stacks.
Proof.
  split.
  - intros s. repeat split.
  - intros a b c (H1 & H2 & H3) (H4 & H5 & H6).
    repeat split; congruence.
Qed.

#[local] Instance keeps_limit_pre : PreOrder keeps_limit.
Proof.
  split.
  - intros s. split; [reflexivity | tauto].
  - intros a b c [H1 H2] [H3 H4]. split; [congruence|].
    rewrite H1 in H4. tauto.
Qed.

Lemma same_stacks_keeps_limit s s' : same_stacks s s' -> keeps_limit s s'.
Proof.
  intros (H1 & H2 & H3). split; [exact H1|].
  unfold within_limit. rewrite H1, H2, H3. tauto.
Qed.

Lemma stacks_limit {A} (m : M A) :
  preserves same_stacks m -> preserves keeps_limit m.
Proof. apply preserves_weaken, same_stacks_keeps_limit. Qed.

Ltac stacks_solve :=
  repeat match goal with
  | |- same_stacks _ (match ?x with _ => _ end) => destruct x
  end;
  try (repeat split; reflexivity).

Lemma write_condition_stacks a f : preserves same_stacks (write_condition a f).
Proof. unfold write_condition. repeat frame_step; stacks_solve. Qed.

Lemma read_condition_stacks a : preserves same_stacks (read_condition a).
Proof. unfold read_condition. repeat frame_step; stacks_solve. Qed.

Lemma read_instance_stacks n k : preserves same_stacks (read_instance n k).
Proof. unfold read_instance. repeat frame_step; stacks_solve. Qed.

Lemma write_instance_stacks n k f :
  preserves same_stacks (write_instance n k f).
Proof.
  unfold write_instance. frame_step; [apply read_instance_stacks|].
  repeat frame_step; stacks_solve.
Qed.

Lemma test_pattern_stacks p t : preserves same_stacks (test_pattern p t).
Proof.
  unfold test_pattern, compile_pattern. repeat frame_step; stacks_solve.
Qed.

Create HintDb stacks.
Hint Resolve write_condition_stacks read_condition_stacks read_instance_stacks
  write_instance_stacks test_pattern_stacks : stacks.

Ltac stacks_auto :=
  repeat first [ solve [auto with stacks] | frame_step ]; stacks_solve.

Lemma makeHandleUpdate_stacks o k u e cb :
  preserves same_stacks cb ->
  preserves same_stacks (makeHandleUpdate o k u e cb).
Proof. intros Hcb. unfold makeHandleUpdate. stacks_auto. Qed.

Lemma update_instance_stacks recur action u fp id :
  (forall a e, preserves same_stacks (recur a e)) ->
  preserves same_stacks (update_instance recur action u fp id).
Proof.
  intros H. unfold update_instance, log_call.
  repeat first [ solve [auto with stacks] | apply makeHandleUpdate_stacks
               | frame_step ]; stacks_solve.
Qed.

Lemma select_instances_stacks action n e :
  preserves same_stacks (select_instances action n e).
Proof. unfold select_instances. stacks_auto. Qed.

Hint Resolve update_instance_stacks select_instances_stacks : stacks.

Lemma processUpdater_stacks recur action a u fp :
  (forall a e, preserves same_stacks (recur a e)) ->
  preserves same_stacks (processUpdater recur action a u fp).
Proof. intros H. unfold processUpdater. stacks_auto. Qed.

Hint Resolve processUpdater_stacks : stacks.

Lemma direct_updater_stacks recur action ext u :
  (forall a e, preserves same_stacks (recur a e)) ->
  preserves same_stacks (direct_updater recur action ext u).
Proof. intros H. unfold direct_updater, push_condition. stacks_auto. Qed.

Lemma pattern_updater_stacks recur action key u :
  (forall a e, preserves same_stacks (recur a e)) ->
  preserves same_stacks (pattern_updater recur action key u).
Proof. intros H. unfold pattern_updater, push_condition. stacks_auto. Qed.

Hint Resolve direct_updater_stacks pattern_updater_stacks : stacks.

(** The pump never touches the stacks, however deep the cycle runs. *)
Lemma processAction_stacks depth : forall action ext,
  preserves same_stacks (processAction depth action ext).
Proof.
  induction depth as [|depth IH]; intros action ext; simpl; stacks_auto.
Qed.

Lemma processEpicListeners_stacks cache source :
  preserves same_stacks (processEpicListeners cache source).
Proof.
  unfold processEpicListeners, notify, gather_listeners, listen_condition,
    reset_ref, read_listener, write_listener, compile_pattern.
  stacks_auto.
Qed.

Lemma commit_conditions_stacks b : preserves same_stacks (commit_conditions b).
Proof. unfold commit_conditions. stacks_auto. Qed.

Lemma commit_epics_stacks b : preserves same_stacks (commit_epics b).
Proof. unfold commit_epics. stacks_auto. Qed.

Lemma change_epics_stacks d entry : preserves same_stacks (change_epics d entry).
Proof. unfold change_epics, change_instance. stacks_auto. Qed.

Hint Resolve processAction_stacks processEpicListeners_stacks
  commit_conditions_stacks commit_epics_stacks change_epics_stacks : stacks.

Lemma push_undo_length limit entry stack :
  (1 <= limit)%Z -> (Z.of_nat (length stack) <= limit)%Z ->
  (Z.of_nat (length (push_undo limit entry stack)) <= limit)%Z.
Proof.
  intros H1 H2. unfold push_undo.
  destruct (Z.of_nat (length stack) =? limit)%Z eqn:E.
  - apply Z.eqb_eq in E. destruct stack; simpl in *; [lia|].
    rewrite length_app. simpl. lia.
  - apply Z.eqb_neq in E. rewrite length_app. simpl. lia.
Qed.

Lemma removelast_length {A} (l : list A) x :
  last l = Some x -> length l = S (length (removelast l)).
Proof.
  intros H. destruct l as [|a l] using rev_ind; [discriminate|].
  rewrite removelast_last, length_app. simpl. lia.
Qed.

Lemma commit_undo_limit b : preserves keeps_limit (commit_undo b).
Proof.
  unfold commit_undo. repeat frame_step; try reflexivity.
  split; [reflexivity|]. unfold within_limit. simpl. intros H1 H2.
  rewrite Nat.add_0_r. apply push_undo_length; [exact H1 | lia].
Qed.

Section Strict.
Variable strictMode : bool.

Lemma fresh_cycle_limit depth action :
  preserves keeps_limit (fresh_cycle strictMode depth action).
Proof.
  unfold fresh_cycle.
  repeat first [ apply commit_undo_limit
               | solve [apply stacks_limit; auto with stacks]
               | frame_step ];
  try (apply same_stacks_keeps_limit; repeat split; reflexivity).
Qed.

Lemma dispatch_limit depth a :
  preserves keeps_limit (dispatch strictMode depth a).
Proof.
  unfold dispatch.
  repeat first [ apply fresh_cycle_limit
               | solve [apply stacks_limit; auto with stacks]
               | frame_step ].
Qed.

Lemma fresh_cycle_never_returns depth action :
  never_returns (fresh_cycle strictMode depth action).
Proof.
  unfold fresh_cycle.
  do 6 (apply never_returns_bind_r; intros ?).
  apply never_returns_bind_l, processEpicListeners_never_returns.
Qed.

End Strict.

Lemma handleChange_limit d : preserves keeps_limit (handleChange d).
Proof.
  intros s. unfold handleChange, pop.
  unfold bind at 1. unfold bind at 1. unfold gets at 1.
  destruct (last (source_stack d s)) as [entry|] eqn:E; [|reflexivity].
  apply removelast_length in E.
  unfold bind at 1. unfold modify at 1. unfold ret at 1.
  unfold bind at 1.
  pose proof (change_epics_stacks d entry
                (set_source_stack d (removelast (source_stack d s)) s)) as H.
  destruct (change_epics d entry
              (set_source_stack d (removelast (source_stack d s)) s))
    as [[cache|e|] s2]; simpl in H; destruct H as (H1 & H2 & H3); simpl;
    (split; [destruct d; simpl in *; congruence|]);
    unfold within_limit; intros L1 L2;
    destruct d; simpl in *; rewrite ?H1, ?H2, ?H3, ?length_app; simpl; lia.
Qed.

Lemma store_undo_limit : preserves keeps_limit store_undo.
Proof.
  unfold store_undo.
  repeat first [ apply handleChange_limit
               | solve [apply stacks_limit; auto with stacks]
               | frame_step ].
Qed.

Lemma store_redo_limit : preserves keeps_limit store_redo.
Proof.
  unfold store_redo.
  repeat first [ apply handleChange_limit
               | solve [apply stacks_limit; auto with stacks]
               | frame_step ].
Qed.

Lemma processCondition_stacks c : preserves same_stacks (processCondition c).
Proof.
  apply processCondition_preserves; [typeclasses eauto|].
  intros x s. repeat split; reflexivity.
Qed.

Lemma register_stacks e : preserves same_stacks (register e).
Proof.
  unfold register.
  repeat first [ apply compile_updaters_preserves; [typeclasses eauto|..]
               | frame_step ]; intros; stacks_solve.
Qed.

Lemma addListener_stacks conds handler :
  preserves same_stacks (addListener conds handler).
Proof.
  unfold addListener, push_listener, set_listener_index.
  repeat first [ apply processCondition_stacks | frame_step ]; stacks_solve.
Qed.

Lemma unsubscribe_stacks sub : preserves same_stacks (unsubscribe sub).
Proof.
  unfold unsubscribe. frame_step. destruct x as [[wild type] target].
  destruct wild; frame_step; stacks_solve.
Qed.

Lemma run_limit strictMode ops : forall s, keeps_limit s (run strictMode ops s).
Proof.
  induction ops as [|op ops IH]; intros s; simpl.
  - reflexivity.
  - etransitivity; [|apply IH].
    destruct op; simpl.
    + apply stacks_limit, register_stacks.
    + apply stacks_limit, addListener_stacks.
    + apply stacks_limit, unsubscribe_stacks.
    + apply dispatch_limit.
    + apply store_undo_limit.
    + apply store_redo_limit.
Qed.

(** C5. On a store whose [maxUndoStack] is at least 1 and whose two stacks
    together hold no more than [maxUndoStack] entries (as they do when the
    store is created), the undo stack holds at most [maxUndoStack] entries
    after any sequence of [dispatch], [undo] and [redo], with [register],
    [addListener] and its unsubscription among them; the commit step
    drops the oldest entry before it pushes exactly when the stack is
    full, and leaves a stack within the limit. *)
Theorem undoStack_within_limit strictMode (ops : list Op) (s : Store) :
  (1 <= maxUndoStack (options s))%Z ->
  within_limit s ->
  (Z.of_nat (length (undoStack (run strictMode ops s)))
   <= maxUndoStack (options s))%Z /\
  (undo (options s) = true ->
   undoStack (snd (commit_undo true s)) =
     (if (Z.of_nat (length (undoStack s)) =? maxUndoStack (options s))%Z
      then tail (undoStack s) else undoStack s) ++ [undoEntry s] /\
   (Z.of_nat (length (undoStack (snd (commit_undo true s))))
    <= maxUndoStack (options s))%Z).
Proof.
  intros H1 H2. split.
  - destruct (run_limit strictMode ops s) as [Ho Hl].
    specialize (Hl H1 H2). unfold within_limit in Hl. rewrite Ho in Hl. lia.
  - intros Hu. unfold commit_undo, bind, gets, modify. rewrite Hu. simpl.
    split; [reflexivity|].
    apply push_undo_length; [exact H1|]. unfold within_limit in H2. lia.
Qed.

(** ** Registration *)

#[local] Instance same_epics_pre : PreOrder same_epics.
Proof.
  split; [intros s; reflexivity|].
  intros a b c H1 H2. unfold same_epics in *. congruence.
Qed.

Lemma processCondition_same_epics c :
  preserves same_epics (processCondition c).
Proof. apply processCondition_preserves; [typeclasses eauto | reflexivity]. Qed.

Lemma compile_updaters_same_epics name builder l :
  preserves same_epics (compile_updaters name builder l).
Proof.
  apply compile_updaters_preserves; [typeclasses eauto|..];
    intros; reflexivity.
Qed.

(** *** What a registration files *)

Lemma files_only_refl name registry : files_only name registry registry.
Proof.
  split.
  - exists []. symmetry. apply app_nil_r.
  - intros type. exists []. split; [symmetry; apply app_nil_r | constructor].
Qed.

Lemma files_only_trans name r1 r2 r3 :
  files_only name r1 r2 -> files_only name r2 r3 -> files_only name r1 r3.
Proof.
  intros [[t1 K1] H1] [[t2 K2] H2]. split.
  - exists (t1 ++ t2). rewrite K2, K1, app_assoc. reflexivity.
  - intros type. destruct (H1 type) as (p1 & E1 & F1).
    destruct (H2 type) as (p2 & E2 & F2).
    exists (p1 ++ p2). split.
    + rewrite E2, E1, app_assoc. reflexivity.
    + apply Forall_app. split; assumption.
Qed.

#[local] Instance registering_pre name : PreOrder (registering name).
Proof.
  split.
  - intros s. split; [reflexivity|]. split; apply files_only_refl.
  - intros a b c (E1 & U1 & P1) (E2 & U2 & P2). split; [congruence|].
    split; eapply files_only_trans; eassumption.
Qed.

#[local] Instance same_updaters_pre : PreOrder same_updaters.
Proof.
  split.
  - intros s. split; reflexivity.
  - intros a b c [U1 P1] [U2 P2]. split; congruence.
Qed.

Lemma obj_keys_set {V} (o : obj V) k v :
  exists added, obj_keys (obj_set k v o) = obj_keys o ++ added.
Proof.
  induction o as [|[k' v'] o IH]; simpl.
  - exists [k]. reflexivity.
  - destruct (String.eqb k k') eqn:E; simpl.
    + apply String.eqb_eq in E. subst k'. exists []. rewrite app_nil_r.
      reflexivity.
    + destruct IH as [added IH]. exists added. rewrite IH. reflexivity.
Qed.

Lemma with_updater_files name type u registry :
  u_epic u = name -> files_only name registry (with_updater type u registry).
Proof.
  intros Hu. unfold with_updater. split; [apply obj_keys_set|].
  intros type'. destruct (string_dec type' type) as [->|N].
  - exists [u]. rewrite obj_get_set_same. split; [reflexivity|].
    repeat constructor. exact Hu.
  - exists []. rewrite obj_get_set_other by exact N.
    split; [symmetry; apply app_nil_r | constructor].
Qed.

Lemma index_updater_registering name updater r :
  u_epic updater = name ->
  preserves (registering name) (index_updater updater r).
Proof.
  intros Hu s. unfold index_updater, bind, gets, push_updater.
  destruct (patterns (options s) &&
            Pattern.has_star (ref_type_key (conditions s) r)).
  - destruct (obj_has (patternRegistry s) _ || negb (inherited _));
      simpl; [|reflexivity].
    split; [reflexivity|]. split; [apply files_only_refl|].
    apply with_updater_files, Hu.
  - destruct (obj_has (updaterRegistry s) _ || negb (inherited _));
      simpl; [|reflexivity].
    split; [reflexivity|]. split; [|apply files_only_refl].
    apply with_updater_files, Hu.
Qed.

Lemma compile_updaters_registering name l : forall builder,
  preserves (registering name) (compile_updaters name builder l).
Proof.
  induction l as [|iu l IH]; intros builder; cbn [compile_updaters].
  - frame_step.
  - unfold compile_updater, make_updater.
    repeat first [ apply (processCondition_with_preserves (registering name));
                     [typeclasses eauto
                     |intros; split; [reflexivity|split; apply files_only_refl]]
                 | apply preserves_raised_by; typeclasses eauto
                 | apply index_updater_registering; reflexivity
                 | apply IH
                 | frame_step ].
Qed.

Section Raises.
Context (P : Exn -> Prop).

Lemma raises_ret {A} (a : A) : raises_only P (ret a).
Proof. intros s e H. discriminate. Qed.

Lemma raises_gets {A} (f : Store -> A) : raises_only P (gets f).
Proof. intros s e H. discriminate. Qed.

Lemma raises_modify f : raises_only P (modify f).
Proof. intros s e H. discriminate. Qed.

Lemma raises_stuck {A} : raises_only P (@stuck _ A).
Proof. intros s e H. discriminate. Qed.

Lemma raises_raised_by {B} builder code (k : ErrCode -> M B) :
  raises_only P (k code) -> raises_only P (bind (raised_by builder code) k).
Proof.
  intros H. destruct builder as [[|n]|]; [exact H | |];
    intros s e E; discriminate.
Qed.

Lemma raises_throw {A} e : P e -> raises_only P (@throw _ A e).
Proof. intros H s e' E. injection E as <-. exact H. Qed.

Lemma raises_invariant c code :
  P (Invariant code) -> raises_only P (invariant c code).
Proof. destruct c; [intros _; apply raises_ret | apply raises_throw]. Qed.

Lemma raises_bind {A B} (m : M A) (k : A -> M B) :
  raises_only P m -> (forall a, raises_only P (k a)) ->
  raises_only P (bind m k).
Proof.
  intros Hm Hk s e. unfold bind. specialize (Hm s).
  destruct (m s) as [[a|e'|] s']; simpl in *.
  - apply Hk.
  - intros E. injection E as <-. apply Hm. reflexivity.
  - discriminate.
Qed.

Lemma raises_forEach {A} (l : list A) (f : A -> M unit) :
  (forall x, raises_only P (f x)) -> raises_only P (forEach l f).
Proof.
  intros Hf. induction l as [|x l IH]; simpl.
  - apply raises_ret.
  - apply raises_bind; [apply Hf | intros _; exact IH].
Qed.

Lemma raises_mapM {A B} (l : list A) (f : A -> M B) :
  (forall x, raises_only P (f x)) -> raises_only P (mapM l f).
Proof.
  intros Hf. induction l as [|x l IH]; simpl.
  - apply raises_ret.
  - apply raises_bind; [apply Hf | intros y].
    apply raises_bind; [exact IH | intros ys; apply raises_ret].
Qed.

End Raises.

Ltac raises_step :=
  match goal with
  | |- raises_only ?P (bind (raised_by _ _) _) =>
      apply (raises_raised_by P); cbv beta
  | |- raises_only ?P stuck => apply (raises_stuck P)
  | |- raises_only ?P (ret _) => apply (raises_ret P)
  | |- raises_only ?P (gets _) => apply (raises_gets P)
  | |- raises_only ?P (modify _) => apply (raises_modify P)
  | |- raises_only ?P (throw _) => apply (raises_throw P)
  | |- raises_only ?P (invariant _ _) => apply (raises_invariant P)
  | |- raises_only ?P (bind _ _) => apply (raises_bind P); [| intros ?]
  | |- raises_only ?P (forEach _ _) => apply (raises_forEach P); intros ?
  | |- raises_only ?P (mapM _ _) => apply (raises_mapM P); intros ?
  | |- raises_only _ (match ?x with _ => _ end) => destruct x
  end.

Lemma compile_not_duplicate o : raises_only not_duplicate (compile o).
Proof.
  unfold compile, alloc_condition. repeat raises_step; discriminate.
Qed.

Lemma processCondition_not_duplicate c :
  raises_only not_duplicate (processCondition c).
Proof.
  induction c as [type|o|l IH] using InCond_nested_ind; simpl.
  - apply compile_not_duplicate.
  - apply compile_not_duplicate.
  - raises_step; [|raises_step].
    induction IH as [|c l Hc _ IHl]; repeat raises_step; assumption.
Qed.

(** What the compilation of reducers throws, whatever the builder. *)
Section RegistrationErrors.
Context (P : Exn -> Prop).
Hypothesis Ptype : P (Invariant invalidConditionType).
Hypothesis Pselector : P (Invariant invalidConditionSelector).

Lemma processCondition_with_raises builder c :
  raises_only P (processCondition_with builder c).
Proof.
  assert (Hcompile : forall o, raises_only P (compile_with builder o)).
  { intros o. unfold compile_with, alloc_condition.
    repeat raises_step; assumption. }
  induction c as [type|o|l IH] using InCond_nested_ind; simpl.
  - apply Hcompile.
  - apply Hcompile.
  - raises_step; [|raises_step].
    induction IH as [|c l Hc _ IHl]; repeat raises_step; assumption.
Qed.

Hypothesis Ppassive : P (Invariant noPassiveUpdaters).
Hypothesis Ppush : P TypeError.

Lemma make_updater_raises name builder handler index conds :
  raises_only P (make_updater name builder handler index conds).
Proof.
  unfold make_updater, index_updater. repeat raises_step; assumption.
Qed.

Lemma compile_updaters_raises name l : forall builder,
  raises_only P (compile_updaters name builder l).
Proof.
  induction l as [|iu l IH]; intros builder; cbn [compile_updaters].
  - raises_step.
  - unfold compile_updater.
    repeat first [ apply processCondition_with_raises
                 | apply make_updater_raises
                 | apply IH
                 | raises_step ].
Qed.

End RegistrationErrors.

Lemma compile_updaters_not_duplicate name builder l :
  raises_only not_duplicate (compile_updaters name builder l).
Proof. apply compile_updaters_raises; discriminate. Qed.

Lemma bind_throws {A B} (m : M A) (k : A -> M B) s x s' :
  bind m k s = (Throw x, s') ->
  m s = (Throw x, s') \/
  exists a s1, m s = (Ok a, s1) /\ k a s1 = (Throw x, s').
Proof.
  unfold bind. destruct (m s) as [[a|e|] s1]; intros E.
  - right. exists a, s1. split; [reflexivity | exact E].
  - left. injection E as <- <-. reflexivity.
  - discriminate.
Qed.

(** With one reducer, an error of a condition is thrown before any updater
    is filed: the conditions of a reducer are all compiled first. *)
Lemma single_reducer_condition_error name iu s x s' :
  compile_updaters name (takes makeError) [iu] s = (Throw x, s') ->
  x = Invariant invalidConditionType \/
  x = Invariant invalidConditionSelector ->
  same_updaters s s'.
Proof.
  cbn [compile_updaters]. intros E Hx.
  apply bind_throws in E as [E|(us & s1 & _ & E)];
    [|apply bind_throws in E as [E|(? & ? & _ & E)]; discriminate].
  unfold compile_updater in E. destruct iu as [index u].
  apply bind_throws in E as [E|(conds & s1 & _ & E)].
  - pose proof (preserves_mapM same_updaters (in_conditions u)
                  (processCondition_with (takes (takes makeError)))
                  (processCondition_with_preserves same_updaters _
                     (fun x s => conj eq_refl eq_refl) _) s) as H.
    rewrite E in H. exact H.
  - exfalso.
    assert (H : raises_only
                  (fun e => e = Invariant noPassiveUpdaters \/ e = TypeError)
                  (mapM (splitConditions conds)
                     (make_updater name (takes (takes makeError))
                        (in_handler u) index))).
    { apply raises_mapM. intros l.
      unfold make_updater, index_updater. repeat raises_step; auto. }
    specialize (H s1 x). rewrite E in H. specialize (H eq_refl).
    destruct Hx as [->| ->], H as [H|H]; discriminate.
Qed.

(** The depth given to [splitConditions_upto] is enough: more changes
    nothing. *)
Lemma ref_size_Arr items : ref_size (Arr items) = S (refs_size items).
Proof.
  unfold refs_size. simpl. f_equal.
  all: induction items as [|x l IH]; simpl; congruence.
Qed.

Lemma refs_size_app l1 l2 : refs_size (l1 ++ l2) = refs_size l1 + refs_size l2.
Proof.
  induction l1 as [|x l IH]; simpl; [reflexivity|].
  unfold refs_size in *. simpl. rewrite IH. lia.
Qed.

Lemma refs_size_In c items : In c items -> ref_size c <= refs_size items.
Proof.
  induction items as [|x l IH]; simpl; [tauto|].
  intros [->|H]; unfold refs_size in *; simpl; [lia|].
  specialize (IH H). lia.
Qed.

Lemma first_array_size l before items after c :
  first_array l = Some (before, items, after) -> In c items ->
  refs_size (before ++ c :: after) < refs_size l.
Proof.
  revert before. induction l as [|x l IH]; intros before H Hc;
    [discriminate|].
  destruct x as [a|its].
  - simpl in H. destruct (first_array l) as [[[b i] af]|]; [|discriminate].
    injection H as <- <- <-. specialize (IH b eq_refl Hc).
    unfold refs_size in *. simpl in *. lia.
  - simpl in H. injection H as <- <- <-.
    pose proof (refs_size_In c its Hc) as Hle.
    change (refs_size (c :: l) < refs_size (Arr its :: l)).
    unfold refs_size. cbn [fold_right]. rewrite ref_size_Arr.
    fold (refs_size l). lia.
Qed.

Lemma flat_map_In_ext {A B} (f g : A -> list B) l :
  (forall x, In x l -> f x = g x) -> flat_map f l = flat_map g l.
Proof.
  induction l as [|x l IH]; intros H; simpl; [reflexivity|].
  rewrite (H x (or_introl eq_refl)), IH; [reflexivity|].
  intros y Hy. apply H. right. exact Hy.
Qed.

Lemma splitConditions_upto_enough d : forall d' l,
  refs_size l <= d -> refs_size l <= d' ->
  splitConditions_upto d l = splitConditions_upto d' l.
Proof.
  induction d as [|d IH]; intros d' l H H'.
  - destruct l as [|x l].
    + destruct d'; reflexivity.
    + unfold refs_size in H. simpl in H. destruct x; simpl in H; lia.
  - destruct d' as [|d'].
    + destruct l as [|x l]; [reflexivity|].
      unfold refs_size in H'. simpl in H'. destruct x; simpl in H'; lia.
    + simpl. destruct (first_array l) as [[[b its] af]|] eqn:E; [|reflexivity].
      assert (Hext :
        flat_map (fun c => splitConditions_upto d (b ++ c :: af)) its
        = flat_map (fun c => splitConditions_upto d' (b ++ c :: af)) its).
      { apply flat_map_In_ext. intros c Hc.
        pose proof (first_array_size _ _ _ _ c E Hc).
        apply IH; lia. }
      rewrite Hext. reflexivity.
Qed.


(** ** The guards of [processUpdater] *)

Lemma passive_guard_true heap c conds :
  cond_passive c = true ->
  (forall r, In r conds -> ref_passive heap r = false ->
     ref_matchedPattern heap r = false /\ ref_changed heap r = false) ->
  passive_guard heap c conds = true.
Proof.
  intros Hp H. unfold passive_guard. rewrite Hp. simpl.
  apply negb_true_iff. apply not_true_is_false. intros E.
  apply existsb_exists in E as (r & Hin & Hr).
  apply andb_prop in Hr as [H1 H2]. apply negb_true_iff in H1.
  destruct (H r Hin H1) as [H3 H4]. rewrite H3, H4 in H2. discriminate.
Qed.

Lemma passive_guard_false heap c conds :
  cond_passive c = false \/
  (exists r, In r conds /\ ref_passive heap r = false /\
     (ref_matchedPattern heap r = true \/ ref_changed heap r = true)) ->
  passive_guard heap c conds = false.
Proof.
  intros [Hp | (r & Hin & H1 & H2)]; unfold passive_guard.
  - rewrite Hp. reflexivity.
  - apply andb_false_intro2. apply negb_false_iff.
    apply existsb_exists. exists r. split; [exact Hin|].
    rewrite H1. simpl. destruct H2 as [-> | ->]; [reflexivity | apply orb_true_r].
Qed.

Lemma all_fulfilled_false heap a conds :
  (exists r, In r conds /\ same_object r a = false /\
     ref_passive heap r = false /\ ref_required heap r = true /\
     ref_matchedPattern heap r = false /\ ref_changed heap r = false) ->
  all_fulfilled heap a conds = false.
Proof.
  intros (r & Hin & H1 & H2 & H3 & H4 & H5).
  apply not_true_is_false. intros E. unfold all_fulfilled in E.
  rewrite forallb_forall in E. specialize (E r Hin).
  rewrite H1, H2, H3, H4, H5 in E. discriminate.
Qed.

Lemma all_fulfilled_true heap a conds :
  (forall r, In r conds ->
     same_object r a = true \/ ref_passive heap r = true \/
     ref_required heap r = false \/ ref_matchedPattern heap r = true \/
     ref_changed heap r = true) ->
  all_fulfilled heap a conds = true.
Proof.
  intros H. apply forallb_forall. intros r Hin.
  destruct (H r Hin) as [-> | [-> | [-> | [-> | ->]]]];
    rewrite ?orb_true_r; reflexivity.
Qed.

Lemma processUpdater_unfold recur action a u fp s c :
  conditions s !! a = Some c ->
  processUpdater recur action a u fp s =
  if passive_guard (conditions s) c (u_conditions u) then (Ok tt, s) else
  if negb (all_fulfilled (conditions s) a (u_conditions u)) then (Ok tt, s) else
  (epic <- defined (obj_get (epicRegistry s) (u_epic u)) ;;
   instances <- select_instances action (u_epic u) epic ;;
   forEach instances (update_instance recur action u fp)) s.
Proof.
  intros H. unfold processUpdater, read_condition.
  unfold bind at 1. unfold gets at 1.
  unfold bind at 1. unfold bind at 1. unfold gets at 1. rewrite H.
  unfold ret at 1.
  destruct (passive_guard _ _ _); [reflexivity|].
  destruct (negb _); [reflexivity|].
  reflexivity.
Qed.

Lemma select_instances_calls action n e s :
  calls (snd (select_instances action n e s)) = calls s /\
  conditions (snd (select_instances action n e s)) = conditions s.
Proof.
  unfold select_instances.
  destruct (epic_instances e) as [l|]; [|split; reflexivity].
  destruct (truthy_string (a_target action)) as [t|]; [|split; reflexivity].
  unfold bind. destruct (obj_has l t); split; reflexivity.
Qed.

Lemma read_instance_ok n id s e i :
  obj_get (epicRegistry s) n = Some e -> instance_of e id = Some i ->
  read_instance n id s = (Ok i, s).
Proof.
  intros He Hi. unfold read_instance, bind, gets. rewrite He, Hi. reflexivity.
Qed.

Lemma write_instance_ok n id f s e i :
  obj_get (epicRegistry s) n = Some e -> instance_of e id = Some i ->
  write_instance n id f s =
    (Ok tt, set_epicRegistry
              (obj_set n (put_instance id (f i) e) (epicRegistry s)) s).
Proof.
  intros He Hi. unfold write_instance. unfold bind.
  rewrite (read_instance_ok n id s e i He Hi). unfold modify. rewrite He.
  reflexivity.
Qed.

Lemma update_instance_calls recur action u fp id s e i :
  obj_get (epicRegistry s) (u_epic u) = Some e -> instance_of e id = Some i ->
  exists x s',
    update_instance recur action u fp id s = (Throw x, s') /\
    calls s' =
      calls s ++ [UpdaterCall (u_epic u) (u_index u) id
                    (getHandlerParams (conditions s) (u_conditions u))].
Proof.
  intros He Hi. unfold update_instance.
  unfold bind at 1. erewrite write_instance_ok by eassumption.
  unfold bind at 1. erewrite read_instance_ok;
    [| simpl; apply obj_get_set_same | apply instance_of_put].
  unfold bind at 1. unfold gets at 1.
  unfold bind at 1. unfold gets at 1.
  unfold bind at 1. unfold log_call, modify.
  match goal with |- context [u_handler u ?p ?c] => destruct (u_handler u p c) end.
  - unfold bind at 1. unfold free_identifier, throw. eauto.
  - unfold throw. eauto.
Qed.

(** C7, as amended.  With the triggering condition [c] at address [a]:
    if [c] is passive and no condition of the updater that is not passive
    has [matchedPattern] or a staged value that differs from the committed
    one, [processUpdater] does nothing; if some other condition is
    neither passive, nor optional, nor matched, nor changed, it does
    nothing; and when both guards pass and instance selection gives at
    least one instance of a registered Epic, the handler is invoked, on
    the first instance selected. *)
Theorem processUpdater_guards recur action a u fp s c :
  conditions s !! a = Some c ->
  let heap := conditions s in
  let conds := u_conditions u in
  (cond_passive c = true ->
   (forall r, In r conds -> ref_passive heap r = false ->
      ref_matchedPattern heap r = false /\ ref_changed heap r = false) ->
   processUpdater recur action a u fp s = (Ok tt, s)) /\
  ((exists r, In r conds /\ same_object r a = false /\
      ref_passive heap r = false /\ ref_required heap r = true /\
      ref_matchedPattern heap r = false /\ ref_changed heap r = false) ->
   processUpdater recur action a u fp s = (Ok tt, s)) /\
  ((cond_passive c = false \/
    exists r, In r conds /\ ref_passive heap r = false /\
      (ref_matchedPattern heap r = true \/ ref_changed heap r = true)) ->
   (forall r, In r conds ->
      same_object r a = true \/ ref_passive heap r = true \/
      ref_required heap r = false \/ ref_matchedPattern heap r = true \/
      ref_changed heap r = true) ->
   forall epic id ids,
     obj_get (epicRegistry s) (u_epic u) = Some epic ->
     fst (select_instances action (u_epic u) epic s) = Ok (id :: ids) ->
     calls (snd (processUpdater recur action a u fp s)) =
       calls s ++ [UpdaterCall (u_epic u) (u_index u) id
                     (getHandlerParams heap conds)]).
Proof.
  intros Hc heap conds. rewrite (processUpdater_unfold _ _ _ _ _ _ _ Hc).
  fold heap conds. repeat split.
  - intros Hp H. rewrite (passive_guard_true _ _ _ Hp H). reflexivity.
  - intros H. rewrite (all_fulfilled_false _ _ _ H).
    destruct (passive_guard heap c conds); reflexivity.
  - intros H1 H2 epic id ids He Hsel.
    rewrite (passive_guard_false _ _ _ H1), (all_fulfilled_true _ _ _ H2).
    simpl. unfold bind at 1. rewrite He. unfold defined, ret at 1.
    unfold bind at 1.
    destruct (select_instances action (u_epic u) epic s) as [r s1] eqn:Es.
    simpl in Hsel. subst r. simpl forEach. unfold bind at 1.
    assert (Hs1 : calls s1 = calls s /\ conditions s1 = conditions s /\
              exists e i, obj_get (epicRegistry s1) (u_epic u) = Some e /\
                          instance_of e id = Some i).
    { unfold select_instances in Es.
      destruct (epic_instances epic) as [l|] eqn:El.
      - destruct (truthy_string (a_target action)) as [t|].
        + unfold bind in Es. destruct (obj_has l t) eqn:Eh;
            simpl in Es; inversion Es; subst; clear Es.
          * repeat split; try reflexivity. exists epic.
            unfold obj_has in Eh.
            destruct (obj_get l t) as [i|] eqn:Eg; [|discriminate].
            exists i. split; [exact He|]. simpl. rewrite El. exact Eg.
          * repeat split; try reflexivity.
            cbn [snd modify epicRegistry set_epicRegistry].
            rewrite obj_get_set_same. eexists _, _. split; [reflexivity|].
            simpl. apply obj_get_set_same.
        + simpl in Es. inversion Es as [[Hid Hs]]. subst s1.
          repeat split; try reflexivity.
          exists epic. destruct l as [|[k i] l]; [discriminate|].
          simpl in Hid. inversion Hid; subst. exists i. split; [exact He|].
          simpl. rewrite El. simpl. rewrite String.eqb_refl. reflexivity.
      - simpl in Es. inversion Es; subst.
        repeat split; try reflexivity.
        eexists _, _. split; [exact He | reflexivity]. }
    destruct Hs1 as (Hcalls & Hconds & e & i & He1 & Hi1).
    destruct (update_instance_calls recur action u fp id s1 e i He1 Hi1)
      as (x & s2 & Hrun & Hlog).
    rewrite Hrun. simpl. rewrite Hlog, Hcalls, Hconds. reflexivity.
Qed.

(** C8.  For an action that is not external, an updater of
    [updaterRegistry] whose triggering condition selects from the payload
    a value equal to its committed value is skipped: the staged value is
    recorded, the condition joins [conditionCache], and [processUpdater] is
    not entered, so that no handler is invoked. *)
Theorem unchanged_selector_skips recur action u s a c :
  find (ref_has_type (conditions s) (a_type action)) (u_conditions u)
    = Some (Ref a) ->
  conditions s !! a = Some c ->
  strict_eq (getSelectorValue c action) (cond_value c) = true ->
  direct_updater recur action false u s =
    (Ok tt,
     set_conditionCache (conditionCache s ++ [a])
       (set_conditions
          (alter (set_cond__value (Some (getSelectorValue c action))) a
             (conditions s)) s)) /\
  calls (snd (direct_updater recur action false u s)) = calls s.
Proof.
  intros Hfind Hc Heq.
  assert (E : direct_updater recur action false u s =
    (Ok tt,
     set_conditionCache (conditionCache s ++ [a])
       (set_conditions
          (alter (set_cond__value (Some (getSelectorValue c action))) a
             (conditions s)) s))).
  { unfold direct_updater. unfold bind at 1. unfold gets at 1.
    rewrite Hfind. unfold read_condition, write_condition, push_condition.
    unfold bind, gets, modify, ret. rewrite Hc. simpl.
    rewrite list_lookup_alter, Hc. cbn [fmap option_fmap option_map].
    unfold didConditionChange. cbn [cond__value cond_value set_cond__value negb andb].
    destruct (decide (a = a)) as [_|N]; [|congruence].
    cbn [cond__value cond_value set_cond__value negb andb snd fst].
    rewrite Heq. reflexivity. }
  split; [exact E | rewrite E; reflexivity].
Qed.


(** ** What the pump leaves alone *)

Lemma same_values_refl h : same_values h h.
Proof. intros a c H. exists c. split; [exact H | reflexivity]. Qed.

Lemma same_values_trans h1 h2 h3 :
  same_values h1 h2 -> same_values h2 h3 -> same_values h1 h3.
Proof.
  intros H1 H2 a c Hc. destruct (H1 a c Hc) as (c' & Hc' & E).
  destruct (H2 a c' Hc') as (c'' & Hc'' & E'). exists c''.
  split; [exact Hc'' | congruence].
Qed.

Lemma same_canon_refl r : same_canon r r.
Proof.
  split; [tauto|]. intros n e id i He Hi. exists e, i. repeat split; assumption.
Qed.

Lemma same_canon_trans r1 r2 r3 :
  same_canon r1 r2 -> same_canon r2 r3 -> same_canon r1 r3.
Proof.
  intros [N1 H1] [N2 H2]. split; [auto|].
  intros n e id i He Hi.
  destruct (H1 n e id i He Hi) as (e' & i' & He' & Hi' & Es & Ec).
  destruct (H2 n e' id i' He' Hi') as (e'' & i'' & He'' & Hi'' & Es' & Ec').
  exists e'', i''. repeat split; congruence.
Qed.

#[local] Instance nothing_committed_pre : PreOrder nothing_committed.
Proof.
  split.
  - intros s. repeat split; [apply same_values_refl | tauto |].
    apply same_canon_refl.
  - intros a b c (S1 & V1 & C1) (S2 & V2 & C2). split; [|split].
    + etransitivity; eassumption.
    + eapply same_values_trans; eassumption.
    + eapply same_canon_trans; eassumption.
Qed.

#[local] Instance untouched_pre : PreOrder untouched.
Proof.
  split.
  - intros s. split; reflexivity.
  - intros a b c [E1 N1] [E2 N2]. split; [congruence|].
    etransitivity; eassumption.
Qed.

Lemma same_values_alter h a f :
  (forall c, cond_value (f c) = cond_value c) ->
  same_values h (alter f a h).
Proof.
  intros Hf b c Hc. rewrite list_lookup_alter.
  destruct (decide (a = b)) as [->|N].
  - rewrite Hc. simpl. eexists. split; [reflexivity | apply Hf].
  - exists c. split; [exact Hc | reflexivity].
Qed.

Lemma instance_of_put_other id id' i e :
  id' <> id ->
  instance_of e id' = None \/
  instance_of (put_instance id i e) id' = instance_of e id'.
Proof.
  intros N. destruct id as [|k], id' as [|k']; simpl.
  - congruence.
  - right. reflexivity.
  - right. reflexivity.
  - destruct (epic_instances e) as [l|]; [right | left; reflexivity].
    apply obj_get_set_other. congruence.
Qed.

(** Writing an instance back with its state and scope unchanged. *)
Lemma same_canon_put r n e id i i' :
  obj_get r n = Some e -> instance_of e id = Some i ->
  state i' = state i -> scope i' = scope i ->
  same_canon r (obj_set n (put_instance id i' e) r).
Proof.
  intros He Hi Es Ec. split.
  - intros m Hm. rewrite obj_get_set_other; [exact Hm|]. congruence.
  - intros m e0 id0 i0 He0 Hi0.
    destruct (String.eqb m n) eqn:Emn.
    + apply String.eqb_eq in Emn. subst m.
      rewrite He in He0. injection He0 as <-.
      rewrite obj_get_set_same. exists (put_instance id i' e).
      destruct (decide (id0 = id)) as [->|N].
      * exists i'. rewrite instance_of_put. rewrite Hi in Hi0.
        injection Hi0 as <-. repeat split; assumption.
      * destruct (instance_of_put_other id id0 i' e N) as [E|E];
          [congruence|].
        exists i0. rewrite E. repeat split. exact Hi0.
    + apply String.eqb_neq in Emn. exists e0, i0.
      rewrite obj_get_set_other by exact Emn. repeat split; assumption.
Qed.

(** A new instance beside those that exist. *)
Lemma same_canon_new r n e k i l :
  obj_get r n = Some e -> epic_instances e = Some l ->
  obj_has l k = false ->
  same_canon r (obj_set n (put_instance (IdKey k) i e) r).
Proof.
  intros He Hl Hk. split.
  - intros m Hm. rewrite obj_get_set_other; [exact Hm|]. congruence.
  - intros m e0 id0 i0 He0 Hi0.
    destruct (String.eqb m n) eqn:Emn.
    + apply String.eqb_eq in Emn. subst m.
      rewrite He in He0. injection He0 as <-.
      rewrite obj_get_set_same. exists (put_instance (IdKey k) i e), i0.
      destruct (decide (id0 = IdKey k)) as [->|N].
      * simpl in Hi0. rewrite Hl in Hi0. unfold obj_has in Hk.
        rewrite Hi0 in Hk. discriminate.
      * destruct (instance_of_put_other (IdKey k) id0 i e N) as [E|E];
          [congruence|].
        rewrite E. repeat split. exact Hi0.
    + apply String.eqb_neq in Emn. exists e0, i0.
      rewrite obj_get_set_other by exact Emn. repeat split; assumption.
Qed.

Ltac untouched_solve :=
  try (split; [reflexivity|]; split; [repeat split; reflexivity|];
       split; [apply same_values_refl | apply same_canon_refl]).

Lemma write_condition_untouched a f :
  (forall c, cond_value (f c) = cond_value c) ->
  preserves untouched (write_condition a f).
Proof.
  intros Hf. unfold write_condition. frame_step.
  split; [reflexivity|]. split; [repeat split; reflexivity|].
  split; [apply same_values_alter, Hf | apply same_canon_refl].
Qed.

Lemma read_condition_untouched a : preserves untouched (read_condition a).
Proof. unfold read_condition. repeat frame_step; untouched_solve. Qed.

Lemma read_instance_untouched n k : preserves untouched (read_instance n k).
Proof. unfold read_instance. repeat frame_step; untouched_solve. Qed.

Lemma write_instance_untouched n id f :
  (forall i, state (f i) = state i /\ scope (f i) = scope i) ->
  preserves untouched (write_instance n id f).
Proof.
  intros Hf s. unfold write_instance, read_instance, bind, gets, modify.
  destruct (obj_get (epicRegistry s) n) as [e|] eqn:He; [|reflexivity].
  destruct (instance_of e id) as [i|] eqn:Hi; [|reflexivity].
  simpl. rewrite He.
  split; [reflexivity|]. split; [repeat split; reflexivity|].
  split; [apply same_values_refl|]. simpl.
  apply (same_canon_put _ _ _ _ i); try assumption; apply Hf.
Qed.

Lemma test_pattern_untouched p t : preserves untouched (test_pattern p t).
Proof.
  unfold test_pattern, compile_pattern. repeat frame_step; untouched_solve.
Qed.

(** A continuation that is never entered needs no proof. *)
Lemma preserves_bind_never {A B} (R : Store -> Store -> Prop)
    (m : M A) (k : A -> M B) :
  preserves R m -> never_returns m -> preserves R (bind m k).
Proof.
  intros Hm Hn s. unfold bind. specialize (Hm s). specialize (Hn s).
  destruct (m s) as [[a|e|] s']; simpl in *; try assumption.
  exfalso. apply (Hn a). reflexivity.
Qed.

Lemma update_instance_untouched recur action u fp id :
  preserves untouched (update_instance recur action u fp id).
Proof.
  unfold update_instance, log_call.
  frame_step; [apply write_instance_untouched; intros i; split; reflexivity|].
  frame_step; [apply read_instance_untouched|].
  do 3 (frame_step; [frame_step; untouched_solve|]).
  destruct (u_handler u _ _); [|frame_step].
  apply preserves_bind_never; [frame_step | apply never_returns_throw].
Qed.

Lemma select_instances_untouched action n e s :
  obj_get (epicRegistry s) n = Some e ->
  untouched s (snd (select_instances action n e s)).
Proof.
  intros He. unfold select_instances.
  destruct (epic_instances e) as [l|] eqn:El; [|reflexivity].
  destruct (truthy_string (a_target action)) as [t|]; [|reflexivity].
  unfold bind. destruct (obj_has l t) eqn:Eh; [reflexivity|]. simpl.
  split; [reflexivity|]. split; [repeat split; reflexivity|].
  split; [apply same_values_refl|]. simpl.
  eapply same_canon_new; eassumption.
Qed.

Lemma processUpdater_untouched recur action a u fp :
  preserves untouched (processUpdater recur action a u fp).
Proof.
  unfold processUpdater.
  frame_step; [frame_step|]. frame_step; [apply read_condition_untouched|].
  destruct (passive_guard _ _ _); [frame_step|].
  destruct (negb _); [frame_step|].
  intros s. unfold bind at 1. unfold gets at 1. unfold bind at 1.
  destruct (obj_get (epicRegistry s) (u_epic u)) as [e|] eqn:He;
    [|reflexivity].
  unfold defined, ret at 1.
  pose proof (select_instances_untouched action (u_epic u) e s He) as Hsel.
  unfold bind.
  destruct (select_instances action (u_epic u) e s) as [[ids| |] s1];
    simpl in *; try exact Hsel.
  etransitivity; [exact Hsel|].
  apply (preserves_forEach untouched). intros id.
  apply update_instance_untouched.
Qed.

Lemma direct_updater_untouched recur action ext u :
  preserves untouched (direct_updater recur action ext u).
Proof.
  unfold direct_updater, push_condition.
  repeat first [ apply processUpdater_untouched
               | apply read_condition_untouched
               | apply write_condition_untouched; intros ?; reflexivity
               | frame_step ]; untouched_solve.
Qed.

Lemma pattern_updater_untouched recur action key u :
  preserves untouched (pattern_updater recur action key u).
Proof.
  unfold pattern_updater, push_condition.
  repeat first [ apply processUpdater_untouched
               | apply write_condition_untouched; intros ?; reflexivity
               | frame_step ]; untouched_solve.
Qed.

(** The pump stages and never commits: whatever the handlers answer, it
    leaves the stacks, the committed value of every condition, the
    canonical state and scope of every Epic and the [epicCache] as they
    were. *)
Lemma processAction_untouched depth action ext :
  preserves untouched (processAction depth action ext).
Proof.
  destruct depth as [|depth]; simpl; [frame_step|].
  repeat first [ apply direct_updater_untouched
               | apply pattern_updater_untouched
               | apply test_pattern_untouched
               | frame_step ]; untouched_solve.
Qed.

(** With nothing in the cache the listener dispatch goes straight
    to [return errors]. *)
Lemma processEpicListeners_empty source s :
  processEpicListeners [] source s = (Throw (ReferenceError "errors"), s).
Proof. reflexivity. Qed.

(** ** What [undo], [redo] and a fresh cycle end with *)

Lemma fresh_cycle_strict depth action s :
  fresh_cycle true depth action s
  = (Throw (ReferenceError "epicListenerCache"), begin_cycle action s).
Proof. reflexivity. Qed.

Lemma fresh_cycle_sloppy depth action s :
  exists s1,
    untouched (begin_cycle action s) s1 /\
    (fresh_cycle false depth action s = (Stuck, s1) \/
     fresh_cycle false depth action s
     = (Throw (ReferenceError "errors"),
        set_afterCycle true (set_inCycle false s1))).
Proof.
  pose proof (processAction_untouched depth action true
                (begin_cycle action s)) as H.
  cbv beta iota delta [fresh_cycle bind modify try_catch ret gets].
  destruct (processAction depth action true (begin_cycle action s))
    as [[[]|e|] s1]; simpl in H; exists s1; (split; [exact H|]).
  - right. destruct H as [Hc _].
    cbn [epicCache set_afterCycle set_inCycle]. rewrite Hc. reflexivity.
  - right. destruct H as [Hc _].
    cbn [epicCache set_afterCycle set_inCycle]. rewrite Hc. reflexivity.
  - left. reflexivity.
Qed.

Lemma begin_cycle_commits_nothing action s :
  nothing_committed s (begin_cycle action s).
Proof.
  split; [repeat split; reflexivity|].
  split; [apply same_values_refl | apply same_canon_refl].
Qed.

Lemma fresh_cycle_commits_nothing strictMode depth action :
  preserves nothing_committed (fresh_cycle strictMode depth action).
Proof.
  intros s. destruct strictMode.
  - rewrite fresh_cycle_strict. apply begin_cycle_commits_nothing.
  - destruct (fresh_cycle_sloppy depth action s) as (s1 & [_ H] & [E|E]);
      rewrite E; simpl;
      (etransitivity; [apply begin_cycle_commits_nothing|]); exact H.
Qed.

Lemma dispatch_keeps_committed strictMode depth a :
  preserves nothing_committed (dispatch strictMode depth a).
Proof.
  unfold dispatch.
  frame_step; [frame_step|]. destruct a0.
  - apply (preserves_weaken untouched); [intros s s' [_ H]; exact H|].
    apply processAction_untouched.
  - repeat first [ apply fresh_cycle_commits_nothing | frame_step ].
Qed.

Lemma store_undo_never_returns : never_returns store_undo.
Proof.
  intros s a. unfold store_undo. unfold bind at 1. unfold gets at 1.
  destruct (undo (options s)); [|discriminate].
  revert s a. apply never_returns_bind_r. intros cache.
  apply never_returns_bind_l, processEpicListeners_never_returns.
Qed.

Lemma store_redo_never_returns : never_returns store_redo.
Proof.
  intros s a. unfold store_redo. unfold bind at 1. unfold gets at 1.
  destruct (undo (options s)); [|discriminate].
  revert s a. apply never_returns_bind_r. intros cache.
  apply never_returns_bind_l, processEpicListeners_never_returns.
Qed.

Lemma fresh_dispatch_throws strictMode depth a s x :
  inCycle s = false -> fst (dispatch strictMode depth a s) <> Ok x.
Proof.
  intros H. unfold dispatch. unfold bind at 1. unfold gets at 1. rewrite H.
  revert s x H.
  assert (N : forall b,
             never_returns
               (invariant b noDispatchInEpicListener ;;
                fresh_cycle strictMode depth (validateAction a))).
  { intros b. apply never_returns_bind_r. intros _.
    apply fresh_cycle_never_returns. }
  intros s x _. unfold bind at 1. unfold gets at 1. apply N.
Qed.

Lemma dispatch_fresh strictMode depth a s :
  inCycle s = false -> afterCycle s = false ->
  dispatch strictMode depth a s
  = fresh_cycle strictMode depth (validateAction a) s.
Proof.
  intros H1 H2. unfold dispatch. unfold bind at 1. unfold gets at 1.
  rewrite H1. unfold bind at 1. unfold gets at 1. rewrite H2. reflexivity.
Qed.

(** What is read under ['undo'] or ['redo'] cannot be called. *)
Lemma change_instance_never_returns d epic ofInstance id :
  never_returns (change_instance d epic ofInstance id).
Proof.
  unfold change_instance.
  apply never_returns_bind_r. intros instance.
  apply never_returns_bind_r. intros instance'.
  destruct (obj_get ofInstance (direction_key d)); apply never_returns_throw.
Qed.

Lemma change_epics_same_epics d entry :
  preserves same_epics (change_epics d entry).
Proof.
  unfold change_epics.
  frame_step. frame_step; [frame_step|]. frame_step.
  apply preserves_bind_never; [|apply change_instance_never_returns].
  unfold change_instance. repeat frame_step.
Qed.

Lemma processEpicListeners_same_epics cache source :
  preserves same_epics (processEpicListeners cache source).
Proof.
  unfold processEpicListeners, notify, gather_listeners, listen_condition,
    reset_ref, read_listener, write_listener, write_condition,
    test_pattern, compile_pattern.
  repeat frame_step; reflexivity.
Qed.

Lemma handleChange_same_epics d : preserves same_epics (handleChange d).
Proof.
  unfold handleChange, pop.
  repeat first [ apply change_epics_same_epics | frame_step ];
    destruct d; reflexivity.
Qed.

Lemma store_undo_same_epics : preserves same_epics store_undo.
Proof.
  unfold store_undo.
  repeat first [ apply handleChange_same_epics
               | apply processEpicListeners_same_epics | frame_step ].
Qed.

Lemma store_redo_same_epics : preserves same_epics store_redo.
Proof.
  unfold store_redo.
  repeat first [ apply handleChange_same_epics
               | apply processEpicListeners_same_epics | frame_step ].
Qed.

(** The answer of a handler is never applied: the first thing done with
    it is the evaluation of [scope], so that what [processUpdater] would
    call next plays no part. *)
Lemma update_instance_independent recur recur' action u fp id :
  update_instance recur action u fp id = update_instance recur' action u fp id.
Proof. reflexivity. Qed.

(** The pump never processes an action from within [processUpdater]: one
    level of calls is all a cycle uses. *)
Lemma processAction_depth depth action ext :
  processAction (S depth) action ext = processAction 1 action ext.
Proof. reflexivity. Qed.

End Facts.

(** ** Patterns *)

Lemma plain_char c :
  negb (Pattern.is_structural c || Pattern.is_quantifier c ||
        (c =? ".")%char) = true ->
  Pattern.is_quantifier c = false /\ Pattern.is_structural c = false /\
  (c =? ".")%char = false /\ (c =? "$")%char = false.
Proof.
  intros H. apply negb_true_iff in H.
  apply orb_false_elim in H as [H Hd]. apply orb_false_elim in H as [Hs Hq].
  repeat split; try assumption.
  unfold Pattern.is_structural in Hs.
  repeat (apply orb_false_elim in Hs as [Hs ?]). assumption.
Qed.

Lemma parse_items_plain p :
  Pattern.plain p = true ->
  Pattern.parse_items (Pattern.replace_stars p ++ "$") =
    Pattern.Parsed (Pattern.wildcard_items p).
Proof.
  induction p as [|c p IH]; [reflexivity|].
  cbn [Pattern.plain]. intros H. apply andb_prop in H as [Hc Hp].
  specialize (IH Hp).
  cbn [Pattern.replace_stars Pattern.wildcard_items].
  unfold Pattern.wildcard_item.
  destruct (c =? "*")%char eqn:Ec.
  - cbn. rewrite IH. reflexivity.
  - destruct (plain_char c Hc) as (Hq & Hs & Hd & Hend).
    cbn [append Pattern.parse_items]. rewrite Hend, Hq, Hs.
    unfold Pattern.atom_of. rewrite Hd.
    destruct p as [|d p].
    + cbn in *. reflexivity.
    + cbn [Pattern.replace_stars append] in *.
      destruct (d =? "*")%char eqn:Ed.
      * cbn [append]. cbn. cbn in IH. rewrite IH. reflexivity.
      * cbn [append]. cbn [Pattern.plain] in Hp.
        apply andb_prop in Hp as [Hd' _]. rewrite Ed in Hd'.
        destruct (plain_char d Hd') as (Hq' & _).
        rewrite Hq'. cbn [append] in IH. rewrite IH. reflexivity.
Qed.

Lemma dotted_char c :
  negb (Pattern.is_structural c || Pattern.is_quantifier c) = true ->
  Pattern.is_quantifier c = false /\ Pattern.is_structural c = false /\
  (c =? "$")%char = false.
Proof.
  intros H. apply negb_true_iff in H.
  apply orb_false_elim in H as [Hs Hq].
  repeat split; try assumption.
  unfold Pattern.is_structural in Hs.
  repeat (apply orb_false_elim in Hs as [Hs ?]). assumption.
Qed.

Lemma parse_items_dotted p :
  Pattern.dotted p = true ->
  Pattern.parse_items (Pattern.replace_stars p ++ "$") =
    Pattern.Parsed (Pattern.dotted_items p).
Proof.
  induction p as [|c p IH]; [reflexivity|].
  cbn [Pattern.dotted]. intros H. apply andb_prop in H as [Hc Hp].
  specialize (IH Hp).
  cbn [Pattern.replace_stars Pattern.dotted_items].
  unfold Pattern.dotted_item.
  destruct (c =? "*")%char eqn:Ec.
  - cbn. rewrite IH. reflexivity.
  - destruct (dotted_char c Hc) as (Hq & Hs & Hend).
    cbn [append Pattern.parse_items]. rewrite Hend, Hq, Hs.
    destruct p as [|d p].
    + cbn in *. reflexivity.
    + cbn [Pattern.replace_stars append] in *.
      destruct (d =? "*")%char eqn:Ed.
      * cbn [append]. cbn. cbn in IH. rewrite IH. reflexivity.
      * cbn [append]. cbn [Pattern.dotted] in Hp.
        apply andb_prop in Hp as [Hd' _]. rewrite Ed in Hd'.
        destruct (dotted_char d Hd') as (Hq' & _).
        rewrite Hq'. cbn [append] in IH. rewrite IH. reflexivity.
Qed.

Lemma plain_dotted p : Pattern.plain p = true -> Pattern.dotted p = true.
Proof.
  induction p as [|c p IH]; [reflexivity|].
  cbn [Pattern.plain Pattern.dotted]. intros H.
  apply andb_prop in H as [Hc Hp]. rewrite (IH Hp), andb_true_r.
  destruct (c =? "*")%char; [reflexivity|]. cbn [orb] in *.
  apply negb_true_iff in Hc. apply orb_false_elim in Hc as [Hc _].
  rewrite Hc. reflexivity.
Qed.

Lemma replace_stars_app p q :
  Pattern.replace_stars (p ++ q)
  = (Pattern.replace_stars p ++ Pattern.replace_stars q)%string.
Proof.
  induction p as [|c p IH]; [reflexivity|].
  cbn [append Pattern.replace_stars]. rewrite IH.
  destruct (c =? "*")%char; reflexivity.
Qed.

Lemma replace_stars_none p :
  Pattern.has_star p = false -> Pattern.replace_stars p = p.
Proof.
  induction p as [|c p IH]; [reflexivity|].
  cbn [Pattern.has_star Pattern.replace_stars]. intros H.
  apply orb_false_elim in H as [Hc Hp]. rewrite Hc, (IH Hp). reflexivity.
Qed.


(** ** The store on concrete inputs *)



Lemma undoStack_within_limit_witness :
  (Z.of_nat
     (length
        (undoStack
           (run true
              [DoRegister counter_epic; DoUndo; DoRedo;
               DoDispatch 3 (ActStr "a"); DoUndo]
              stacked_store)))
   <= 2)%Z /\
  (true = true ->
   undoStack (snd (commit_undo true stacked_store)) = [[]; []] /\
   (Z.of_nat (length (undoStack (snd (commit_undo true stacked_store))))
    <= 2)%Z).
Proof.
  apply (undoStack_within_limit true
           [DoRegister counter_epic; DoUndo; DoRedo;
            DoDispatch 3 (ActStr "a"); DoUndo] stacked_store).
  - vm_compute. discriminate.
  - vm_compute. discriminate.
Defined.

Lemma processUpdater_guards_witness :
  calls (snd (processUpdater (processAction 1) (plain_action "a") 0
                (sole_updater "e1" (set_state 1)) false counter_store))
  = [UpdaterCall "e1" 0 DefaultKey [Undefined]].
Proof.
  destruct (processUpdater_guards (processAction 1) (plain_action "a") 0
              (sole_updater "e1" (set_state 1)) false counter_store
              _ eq_refl) as (_ & _ & H).
  eapply (H (or_introl eq_refl)).
  - intros r [<- | []]. left. reflexivity.
  - reflexivity.
  - reflexivity.
Defined.

(** C7 as stated fails: for an instanced Epic without instances and an
    action without target both guards pass, and the handler is not
    invoked. *)
Lemma no_instance_no_call :
  passive_guard (conditions instanced_store)
    {| cond_type := "a"; cond_selector := fun st _ => st;
       cond_value := Initial; cond__value := None; cond_passive := false;
       cond_required := false; cond_id := None; cond_target := None;
       cond_matchedPattern := false |} [Ref 0] = false /\
  all_fulfilled (conditions instanced_store) 0 [Ref 0] = true /\
  obj_get (updaterRegistry instanced_store) "a"
    = Some [sole_updater "e" (set_state 1)] /\
  processUpdater (processAction 1) (plain_action "a") 0
    (sole_updater "e" (set_state 1)) false instanced_store
  = (Ok tt, instanced_store).
Proof. repeat split; vm_compute; reflexivity. Qed.

Lemma unchanged_selector_skips_witness :
  calls (snd (direct_updater (processAction 1)
                {| a_type := "e"; a_payload := Num 1; a_target := None |}
                false (sole_updater "f" (set_state 5)) follower_store))
  = [].
Proof.
  exact (proj2 (unchanged_selector_skips (processAction 1)
                  {| a_type := "e"; a_payload := Num 1; a_target := None |}
                  (sole_updater "f" (set_state 5)) follower_store 0 _
                  eq_refl eq_refl eq_refl)).
Defined.

(** C1 fails on the code.  No [dispatch] promotes anything: whatever the
    store and the action, the stacks, the committed value of every
    condition and the canonical state and scope of every Epic are after
    [dispatch] what they were before.  On the store of [e1], whose
    reducer asks for the state 1 on the action [a]: as strict code
    [dispatch] throws on [epicListenerCache = []] before the pump runs;
    without strictness the handler is invoked, [handleUpdate(scope)]
    throws on the unbound [scope] before anything is staged,
    [processEpicListeners] throws on [return errors], nothing was entered
    in [epicCache], and the state of [e1] is still 0.  On the store whose
    reducer requires [b] beside [a], the pump ends without an error on
    the action [a] with payload 5 and no handler is invoked; the value 5
    staged on the condition is not promoted. *)
Theorem dispatch_commits_nothing :
  (forall (F : Frozen) strictMode depth a s,
     nothing_committed s (snd (dispatch strictMode depth a s))) /\
  dispatch true 3 (ActStr "a") counter_store
    = (Throw (ReferenceError "epicListenerCache"),
       begin_cycle (plain_action "a") counter_store) /\
  fst (dispatch false 3 (ActStr "a") counter_store)
    = Throw (ReferenceError "errors") /\
  calls (snd (dispatch false 3 (ActStr "a") counter_store))
    = [UpdaterCall "e1" 0 DefaultKey [Undefined]] /\
  getEpicState (snd (dispatch false 3 (ActStr "a") counter_store)) "e1"
    = Some (Num 0) /\
  epicCache (snd (dispatch false 3 (ActStr "a") counter_store)) = [] /\
  processAction 3 (action_with "a" (Num 5)) true
      (begin_cycle (action_with "a" (Num 5)) required_store)
    = (Ok tt,
       set_conditionCache [0]
         (set_actionCache [("a", Num 5)]
            (set_conditions
               (alter (set_cond__value (Some (Num 5))) 0
                  (conditions required_store))
               (begin_cycle (action_with "a" (Num 5)) required_store)))) /\
  fst (dispatch false 3 (ActObj (action_with "a" (Num 5))) required_store)
    = Throw (ReferenceError "errors") /\
  map (fun c => (cond_value c, cond__value c))
      (conditions
         (snd (dispatch false 3 (ActObj (action_with "a" (Num 5)))
                 required_store)))
    = [(Initial, Some (Num 5)); (Initial, None)].
Proof.
  split; [intros; apply dispatch_keeps_committed|].
  do 7 (split; [vm_compute; reflexivity|]). vm_compute. reflexivity.
Qed.

(** C2 fails on the code.  A fresh cycle never rethrows what a reducer
    threw: as strict code it throws on [epicListenerCache] before the pump
    runs, and otherwise it throws on [errors] when the listener dispatch
    returns.  On the store of [e1], whose reducer throws 7 on the
    action [a], the staged [_value] of the condition is still there
    afterwards and [afterCycle] is still set, so that the next [dispatch]
    is refused. *)
Theorem dispatch_loses_handler_error :
  (forall (F : Frozen) depth a s,
     inCycle s = false -> afterCycle s = false ->
     fst (dispatch true depth a s)
       = Throw (ReferenceError "epicListenerCache") /\
     (fst (dispatch false depth a s) = Stuck \/
      fst (dispatch false depth a s) = Throw (ReferenceError "errors"))) /\
  fst (dispatch true 3 (ActStr "a") failing_store)
    = Throw (ReferenceError "epicListenerCache") /\
  fst (dispatch false 3 (ActStr "a") failing_store)
    = Throw (ReferenceError "errors") /\
  calls (snd (dispatch false 3 (ActStr "a") failing_store))
    = [UpdaterCall "e1" 0 DefaultKey [Undefined]] /\
  map cond__value (conditions (snd (dispatch false 3 (ActStr "a") failing_store)))
    = [Some Undefined] /\
  afterCycle (snd (dispatch false 3 (ActStr "a") failing_store)) = true /\
  fst (dispatch false 3 (ActStr "b")
         (snd (dispatch false 3 (ActStr "a") failing_store)))
    = Throw (Invariant noDispatchInEpicListener).
Proof.
  split.
  - intros F depth a s H1 H2. rewrite !(dispatch_fresh _ _ _ _ H1 H2). split.
    + rewrite fresh_cycle_strict. reflexivity.
    + destruct (fresh_cycle_sloppy depth (validateAction a) s)
        as (s1 & _ & [E|E]); rewrite E; [left | right]; reflexivity.
  - repeat split; vm_compute; reflexivity.
Qed.

(** C4 fails on the code.  [undo] and [redo] never return and never
    change an Epic.  With both stacks empty they throw a TypeError.  With
    an entry that records the step of [e1] from 0 to 1, [undo] throws a
    TypeError too: the entry is gone from the undo stack, it is not on the
    redo stack, and the state of [e1] is what it was. *)
Theorem undo_throws :
  (forall (F : Frozen) s,
     (forall x, fst (store_undo s) <> Ok x) /\
     (forall x, fst (store_redo s) <> Ok x) /\
     epicRegistry (snd (store_undo s)) = epicRegistry s /\
     epicRegistry (snd (store_redo s)) = epicRegistry s) /\
  store_undo undo_store = (Throw TypeError, undo_store) /\
  store_redo undo_store = (Throw TypeError, undo_store) /\
  fst (store_undo recorded_store) = Throw TypeError /\
  undoStack (snd (store_undo recorded_store)) = [] /\
  redoStack (snd (store_undo recorded_store)) = [] /\
  getEpicState recorded_store "e1" = Some (Num 1) /\
  getEpicState (snd (store_undo recorded_store)) "e1" = Some (Num 1).
Proof.
  split.
  - intros F s. repeat split.
    + apply store_undo_never_returns.
    + apply store_redo_never_returns.
    + apply store_undo_same_epics.
    + apply store_redo_same_epics.
  - repeat split; vm_compute; reflexivity.
Qed.

(** C9 fails on the code.  The pump never processes an action from
    within [processUpdater], whatever the pattern: one level of calls is
    all a cycle uses.  With [e] updated on the pattern [a*] and [f]
    following [e]: on the action [ab] the handler of [e] is invoked
    and [processUpdater] throws on the unbound [scope]; no action of
    type [e] is processed and the handler of [f] is not invoked. *)
Theorem pattern_update_does_not_chain :
  (forall (F : Frozen) depth action ext,
     processAction (S depth) action ext = processAction 1 action ext) /\
  fst (processAction 3 (plain_action "ab") true wildcard_store)
    = Throw (ReferenceError "scope") /\
  calls (snd (processAction 3 (plain_action "ab") true wildcard_store))
    = [UpdaterCall "e" 0 DefaultKey [Undefined]] /\
  obj_keys (actionCache
              (snd (processAction 3 (plain_action "ab") true wildcard_store)))
    = ["ab"] /\
  fst (dispatch true 3 (ActStr "ab") wildcard_store)
    = Throw (ReferenceError "epicListenerCache") /\
  calls (snd (dispatch false 3 (ActStr "ab") wildcard_store))
    = [UpdaterCall "e" 0 DefaultKey [Undefined]].
Proof.
  split; [intros; apply processAction_depth|].
  repeat split; vm_compute; reflexivity.
Qed.

(** C10 fails on the code.  A fresh [dispatch] never returns: the
    listener dispatch ends on [return errors].  On a store without Epics
    and without listeners, [dispatch] of an action that nothing listens
    to throws a ReferenceError. *)
Theorem dispatch_never_returns :
  (forall (F : Frozen) strictMode depth a s x,
     inCycle s = false -> fst (dispatch strictMode depth a s) <> Ok x) /\
  fst (dispatch true 3 (ActStr "x") (createStore plain_options))
    = Throw (ReferenceError "epicListenerCache") /\
  fst (dispatch false 3 (ActStr "x") (createStore plain_options))
    = Throw (ReferenceError "errors").
Proof.
  split; [intros; apply fresh_dispatch_throws; assumption|].
  split; vm_compute; reflexivity.
Qed.

(** * More of the code *)

Section Coverage.
Context {F : Frozen}.

#[local] Existing Instance same_stacks_pre.
#[local] Existing Instance same_epics_pre.
#[local] Existing Instance nothing_committed_pre.
#[local] Existing Instance untouched_pre.

Notation "x <- m ;; k" := (bind m (fun x => k))
  (at level 100, m at next level, right associativity).
Notation "m ;; k" := (bind m (fun _ => k))
  (at level 100, right associativity).

Ltac frame_step :=
  match goal with
  | |- preserves ?R (ret _) => apply (preserves_ret R)
  | |- preserves ?R (throw _) => apply (preserves_throw R)
  | |- preserves ?R stuck => apply (preserves_stuck R)
  | |- preserves ?R (gets _) => apply (preserves_gets R)
  | |- preserves ?R (free_identifier _) => apply (preserves_free R)
  | |- preserves ?R (invariant _ _) => apply (preserves_invariant R)
  | |- preserves ?R (defined _) => apply (preserves_defined R)
  | |- preserves ?R (bind _ _) => apply (preserves_bind R); [| intros ?]
  | |- preserves ?R (try_catch _) => apply (preserves_try_catch R)
  | |- preserves ?R (forEach _ _) => apply (preserves_forEach R); intros ?
  | |- preserves ?R (mapM _ _) => apply (preserves_mapM R); intros ?
  | |- preserves ?R (foldM _ _ _) => apply (preserves_foldM R); intros ? ?
  | |- preserves ?R (modify _) => apply (preserves_modify R); intros ?
  | |- preserves _ (match ?x with _ => _ end) => destruct x
  end.

(** ** [store.unregister] and [store.register] *)

Lemma obj_get_delete_same {V} (o : obj V) k : obj_get (obj_delete k o) k = None.
Proof.
  induction o as [|[k' v] o IH]; simpl; [reflexivity|].
  destruct (String.eqb k k') eqn:E; simpl; [exact IH|].
  rewrite E. exact IH.
Qed.

Lemma obj_get_delete_other {V} (o : obj V) k k' :
  k' <> k -> obj_get (obj_delete k o) k' = obj_get o k'.
Proof.
  intros N. induction o as [|[k0 v] o IH]; simpl; [reflexivity|].
  destruct (String.eqb k k0) eqn:E; simpl.
  - apply String.eqb_eq in E. subst k0.
    destruct (String.eqb k' k) eqn:E'; [|exact IH].
    apply String.eqb_eq in E'. contradiction.
  - destruct (String.eqb k' k0); [reflexivity | exact IH].
Qed.

Lemma obj_get_In_keys {V} (o : obj V) k :
  In k (obj_keys o) <-> obj_get o k <> None.
Proof.
  induction o as [|[k' v] o IH]; simpl; [tauto|].
  destruct (String.eqb k k') eqn:E.
  - apply String.eqb_eq in E. subst. split; [discriminate | auto].
  - apply String.eqb_neq in E. rewrite <- IH. split; [|tauto].
    intros [H|H]; [congruence | exact H].
Qed.

Lemma obj_keys_set_present {V} (o : obj V) k v :
  In k (obj_keys o) -> obj_keys (obj_set k v o) = obj_keys o.
Proof.
  induction o as [|[k' v'] o IH]; simpl; [tauto|].
  destruct (String.eqb k k') eqn:E; simpl.
  - apply String.eqb_eq in E. subst. reflexivity.
  - apply String.eqb_neq in E. intros [H|H]; [congruence|].
    rewrite IH by exact H. reflexivity.
Qed.

Lemma obj_get_set {V} (o : obj V) k k' v :
  obj_get (obj_set k v o) k' = if String.eqb k' k then Some v else obj_get o k'.
Proof.
  destruct (String.eqb k' k) eqn:E.
  - apply String.eqb_eq in E. subst. apply obj_get_set_same.
  - apply String.eqb_neq in E. apply obj_get_set_other, E.
Qed.

Lemma filter_filter {A} (f : A -> bool) l :
  List.filter f (List.filter f l) = List.filter f l.
Proof.
  induction l as [|x l IH]; simpl; [reflexivity|].
  destruct (f x) eqn:E; simpl; rewrite ?E, IH; reflexivity.
Qed.

Lemma drop_updaters_fold a ks : forall r key,
  (forall k, In k ks -> In k (obj_keys r)) ->
  obj_keys (fold_left
    (fun r condition =>
       obj_set condition
         (List.filter (fun u => negb (names_epic a u))
            (from_option (fun l => l) [] (obj_get r condition))) r) ks r)
    = obj_keys r /\
  obj_get (fold_left
    (fun r condition =>
       obj_set condition
         (List.filter (fun u => negb (names_epic a u))
            (from_option (fun l => l) [] (obj_get r condition))) r) ks r) key
  = if existsb (String.eqb key) ks
    then option_map (List.filter (fun u => negb (names_epic a u))) (obj_get r key)
    else obj_get r key.
Proof.
  induction ks as [|k ks IH]; intros r key Hks; simpl; [split; reflexivity|].
  assert (Hk : In k (obj_keys r)) by (apply Hks; left; reflexivity).
  set (r1 := obj_set k _ r).
  assert (Hkeys : obj_keys r1 = obj_keys r)
    by (apply obj_keys_set_present, Hk).
  destruct (IH r1 key) as [IHk IHg].
  { intros k0 H0. rewrite Hkeys. apply Hks. right. exact H0. }
  split; [congruence|]. rewrite IHg. unfold r1. rewrite obj_get_set.
  apply obj_get_In_keys in Hk.
  destruct (String.eqb key k) eqn:E; simpl.
  - apply String.eqb_eq in E. subst k.
    destruct (obj_get r key) as [us|]; [|congruence]. simpl.
    destruct (existsb _ ks); simpl; rewrite ?filter_filter; reflexivity.
  - reflexivity.
Qed.

Lemma existsb_eqb_In key ks : existsb (String.eqb key) ks = true <-> In key ks.
Proof.
  rewrite existsb_exists. split.
  - intros (x & H & E). apply String.eqb_eq in E. subst. exact H.
  - intros H. exists key. split; [exact H | apply String.eqb_refl].
Qed.

Lemma drop_updaters_get a r key :
  obj_get (drop_updaters a r) key
  = option_map (List.filter (fun u => negb (names_epic a u))) (obj_get r key).
Proof.
  unfold drop_updaters.
  destruct (drop_updaters_fold a (obj_keys r) r key (fun k H => H)) as [_ ->].
  destruct (existsb (String.eqb key) (obj_keys r)) eqn:E; [reflexivity|].
  destruct (obj_get r key) as [us|] eqn:G; [|reflexivity].
  assert (In key (obj_keys r)) as H by (apply obj_get_In_keys; congruence).
  apply existsb_eqb_In in H. congruence.
Qed.

Lemma drop_updaters_keys a r : obj_keys (drop_updaters a r) = obj_keys r.
Proof.
  unfold drop_updaters.
  apply (drop_updaters_fold a (obj_keys r) r "" (fun k H => H)).
Qed.

(** X6.  [unregister] of an Epic that is registered returns.  The Epic is
    gone from [epicRegistry] and every other name reads as before; in
    both registries of updaters every key stays, with the updaters it had
    in the order it had them, those of the Epic left out. *)
Theorem unregister_removes (a : EpicArg) (s : Store) :
  obj_has (epicRegistry s) (unregister_key a) = true ->
  let s' := snd (unregister a s) in
  let kept := List.filter (fun u => negb (names_epic a u)) in
  fst (unregister a s) = Ok tt /\
  obj_get (epicRegistry s') (unregister_key a) = None /\
  (forall n, n <> unregister_key a ->
     obj_get (epicRegistry s') n = obj_get (epicRegistry s) n) /\
  (forall key,
     obj_get (updaterRegistry s') key
       = option_map kept (obj_get (updaterRegistry s) key) /\
     obj_get (patternRegistry s') key
       = option_map kept (obj_get (patternRegistry s) key)) /\
  (forall key us u,
     obj_get (updaterRegistry s') key = Some us \/
     obj_get (patternRegistry s') key = Some us ->
     In u us -> names_epic a u = false) /\
  obj_keys (updaterRegistry s') = obj_keys (updaterRegistry s) /\
  obj_keys (patternRegistry s') = obj_keys (patternRegistry s).
Proof.
  intros H. unfold unregister, bind, gets, modify. rewrite H. simpl.
  split; [reflexivity|].
  split; [apply obj_get_delete_same|].
  split; [intros n N; apply obj_get_delete_other, N|].
  split; [intros key; split; apply drop_updaters_get|].
  split; [|split; apply drop_updaters_keys].
  intros key us u Hus Hu.
  assert (E : exists us0, us = List.filter (fun u => negb (names_epic a u)) us0).
  { destruct Hus as [Hus|Hus]; rewrite drop_updaters_get in Hus.
    - destruct (obj_get (updaterRegistry s) key) as [us0|]; [|discriminate].
      injection Hus as <-. eauto.
    - destruct (obj_get (patternRegistry s) key) as [us0|]; [|discriminate].
      injection Hus as <-. eauto. }
  destruct E as [us0 ->]. apply filter_In in Hu as [_ Hu].
  apply negb_true_iff in Hu. exact Hu.
Qed.

Section Ends.
Context (P : Exn -> Prop).

Lemma ends_ret {A} (a : A) : ends_within P (ret a).
Proof. intros s. exact I. Qed.

Lemma ends_gets {A} (f : Store -> A) : ends_within P (gets f).
Proof. intros s. exact I. Qed.

Lemma ends_modify f : ends_within P (modify f).
Proof. intros s. exact I. Qed.

Lemma ends_throw {A} e : P e -> ends_within P (@throw _ A e).
Proof. intros H s. exact H. Qed.

Lemma ends_invariant c code :
  P (Invariant code) -> ends_within P (invariant c code).
Proof. destruct c; [intros _; apply ends_ret | apply ends_throw]. Qed.

Lemma ends_bind {A B} (m : M A) (k : A -> M B) :
  ends_within P m -> (forall a, ends_within P (k a)) ->
  ends_within P (bind m k).
Proof.
  intros Hm Hk s. unfold bind. specialize (Hm s).
  destruct (m s) as [[a|e|] s']; simpl in *; [apply Hk | exact Hm | exact Hm].
Qed.

Lemma ends_forEach {A} (l : list A) (f : A -> M unit) :
  (forall x, ends_within P (f x)) -> ends_within P (forEach l f).
Proof.
  intros Hf. induction l as [|x l IH]; simpl.
  - apply ends_ret.
  - apply ends_bind; [apply Hf | intros _; exact IH].
Qed.

Lemma ends_mapM {A B} (l : list A) (f : A -> M B) :
  (forall x, ends_within P (f x)) -> ends_within P (mapM l f).
Proof.
  intros Hf. induction l as [|x l IH]; simpl.
  - apply ends_ret.
  - apply ends_bind; [apply Hf | intros y].
    apply ends_bind; [exact IH | intros ys; apply ends_ret].
Qed.

End Ends.

Lemma ends_weaken {A} (P Q : Exn -> Prop) (m : M A) :
  (forall e, P e -> Q e) -> ends_within P m -> ends_within Q m.
Proof.
  intros H Hm s. specialize (Hm s).
  destruct (fst (m s)); [exact I | apply H, Hm | exact Hm].
Qed.

Ltac ends_step :=
  match goal with
  | |- ends_within ?P (ret _) => apply (ends_ret P)
  | |- ends_within ?P (gets _) => apply (ends_gets P)
  | |- ends_within ?P (modify _) => apply (ends_modify P)
  | |- ends_within ?P (throw _) => apply (ends_throw P)
  | |- ends_within ?P (invariant _ _) => apply (ends_invariant P)
  | |- ends_within ?P (bind _ _) => apply (ends_bind P); [| intros ?]
  | |- ends_within ?P (forEach _ _) => apply (ends_forEach P); intros ?
  | |- ends_within ?P (mapM _ _) => apply (ends_mapM P); intros ?
  | |- ends_within _ (match ?x with _ => _ end) => destruct x
  end.

Lemma compile_ends o : ends_within condition_error (compile o).
Proof.
  unfold compile, alloc_condition. repeat ends_step;
    unfold condition_error; tauto.
Qed.

Lemma processCondition_ends c : ends_within condition_error (processCondition c).
Proof.
  induction c as [type|o|l IH] using InCond_nested_ind; simpl.
  - apply compile_ends.
  - apply compile_ends.
  - ends_step; [|ends_step].
    induction IH as [|c l Hc _ IHl]; repeat ends_step; assumption.
Qed.

(** With the builder that [addListener] and the first reducer of an Epic
    pass, [processCondition_with] is [processCondition]. *)
Lemma compile_with_ready o : compile_with (Awaits 1) o = compile o.
Proof.
  unfold compile_with, compile. cbn [takes raised_by].
  destruct (in_type o); [|reflexivity].
  destruct (in_selector o); reflexivity.
Qed.

Lemma processCondition_with_ready c :
  processCondition_with (Awaits 1) c = processCondition c.
Proof.
  induction c as [type|o|l IH] using InCond_nested_ind;
    cbn [processCondition_with processCondition].
  - apply compile_with_ready.
  - apply compile_with_ready.
  - f_equal. induction IH as [|c l Hc _ IHl]; [reflexivity|].
    rewrite Hc, IHl. reflexivity.
Qed.

Lemma mapM_ready l :
  mapM l (processCondition_with (Awaits 1)) = mapM l processCondition.
Proof.
  induction l as [|c l IH]; simpl; [reflexivity|].
  rewrite processCondition_with_ready, IH. reflexivity.
Qed.

Lemma bind_ret_l {A B} (a : A) (k : A -> M B) : bind (ret a) k = k a.
Proof. reflexivity. Qed.

Lemma make_updater_ends name handler index conds :
  ends_within registration_error
    (make_updater name (Awaits 1) handler index conds).
Proof.
  unfold make_updater, index_updater. cbn [takes raised_by].
  ends_step; [ends_step|]. rewrite bind_ret_l.
  repeat ends_step; unfold registration_error; tauto.
Qed.

Lemma compile_updater_ends name iu :
  ends_within registration_error (compile_updater name (Awaits 1) iu).
Proof.
  unfold compile_updater. destruct iu as [index u]. rewrite mapM_ready.
  repeat first
    [ apply (ends_weaken condition_error);
      [unfold condition_error, registration_error; tauto
      | apply processCondition_ends]
    | apply make_updater_ends
    | ends_step ].
Qed.

(** X1.  [register] of an Epic with one reducer at most stays within the
    model, and ends normally or by one of five errors: [duplicateEpic],
    [invalidConditionType], [invalidConditionSelector],
    [noPassiveUpdaters], or the TypeError of a condition type
    that the registries inherit. *)
Theorem register_outcomes (e : EpicIn) (s : Store) :
  length (in_updaters e) <= 1 ->
  fst (register e s) = Ok tt \/
  fst (register e s) = Throw (Invariant duplicateEpic) \/
  fst (register e s) = Throw (Invariant invalidConditionType) \/
  fst (register e s) = Throw (Invariant invalidConditionSelector) \/
  fst (register e s) = Throw (Invariant noPassiveUpdaters) \/
  fst (register e s) = Throw TypeError.
Proof.
  intros Hl.
  assert (H : ends_within registration_error (register e)).
  { unfold register. destruct (in_updaters e) as [|u [|u' l]];
      [| |simpl in Hl; lia];
      cbn [indexed length seq combine compile_updaters takes makeError];
      repeat first [ apply compile_updater_ends | ends_step ];
      unfold registration_error; tauto. }
  specialize (H s). destruct (fst (register e s)) as [[]|x|].
  - left. reflexivity.
  - right. destruct H as [->|[->|[->|[->| ->]]]]; tauto.
  - contradiction.
Qed.

Lemma mapM_length {A B} (l : list A) (f : A -> M B) : forall s ys,
  fst (mapM l f s) = Ok ys -> length ys = length l.
Proof.
  induction l as [|x l IH]; intros s ys; simpl.
  - intros E. injection E as <-. reflexivity.
  - unfold bind. destruct (f x s) as [[y|e|] s1]; simpl; try discriminate.
    specialize (IH s1).
    destruct (mapM l f s1) as [[ys'|e|] s2]; simpl in *; try discriminate.
    intros E. injection E as <-. simpl. f_equal. apply IH. reflexivity.
Qed.

Lemma compile_updaters_length name l : forall builder s us,
  fst (compile_updaters name builder l s) = Ok us -> length us = length l.
Proof.
  induction l as [|iu l IH]; intros builder s us; cbn [compile_updaters].
  - intros E. injection E as <-. reflexivity.
  - unfold bind.
    destruct (compile_updater name (takes builder) iu s) as [[y|e|] s1];
      simpl; try discriminate.
    specialize (IH (takes builder) s1).
    destruct (compile_updaters name (takes builder) l s1) as [[ys'|e|] s2];
      simpl in *; try discriminate.
    intros E. injection E as <-. simpl. f_equal. apply IH. reflexivity.
Qed.

Lemma register_ok e s s' :
  register e s = (Ok tt, s') ->
  obj_has (epicRegistry s) (in_name e) = false /\
  inherited (in_name e) = false /\
  exists updaters s1,
    compile_updaters (in_name e) (Awaits 2) (indexed (in_updaters e)) s
      = (Ok updaters, s1) /\
    s' = set_epicRegistry
      (obj_set (in_name e)
         {| epic_self :=
              {| state := freeze (from_option (fun v => v) initialValue (in_state e));
                 scope := freeze (from_option (fun v => v) initialValue (in_scope e));
                 _state := None; _scope := None |};
            epic_updaters := updaters;
            epic_instances := if in_instance e then Some [] else None |}
         (epicRegistry s1)) s1.
Proof.
  unfold register. unfold bind at 1. unfold gets at 1.
  destruct (obj_has (epicRegistry s) (in_name e) || inherited (in_name e))
    eqn:Hreg; simpl; [discriminate|].
  apply orb_false_elim in Hreg as [Hreg Hin].
  intros E. split; [exact Hreg|]. split; [exact Hin|].
  unfold bind, ret in E. cbn beta iota in E.
  destruct (compile_updaters (in_name e) (Awaits 2)
              (indexed (in_updaters e)) s)
    as [[us|x|] s1]; try discriminate.
  exists us, s1. split; [reflexivity|].
  unfold modify in E. injection E as <-. reflexivity.
Qed.


(** X7.  After a [register] that threw anything but [duplicateEpic],
    [unregister] of the same name finds no Epic and changes nothing: the
    updaters that the failed registration had filed stay in the
    registries. *)
Theorem unregister_after_failed_register (e : EpicIn) (s s' : Store) (x : Exn) :
  register e s = (Throw x, s') ->
  x <> Invariant duplicateEpic ->
  unregister (ByName (in_name e)) s' = (Ok tt, s').
Proof.
  intros H N.
  assert (Hfree : obj_has (epicRegistry s) (in_name e)
                  || inherited (in_name e) = false).
  { destruct (obj_has (epicRegistry s) (in_name e) || inherited (in_name e))
      eqn:E; [|reflexivity].
    exfalso. apply N. unfold register, bind, gets in H. rewrite E in H.
    simpl in H. congruence. }
  assert (Hreg : obj_has (epicRegistry s) (in_name e) = false).
  { apply orb_false_elim in Hfree. tauto. }
  assert (Hsame : epicRegistry s' = epicRegistry s).
  { unfold register in H. unfold bind at 1 in H. unfold gets at 1 in H.
    rewrite Hfree in H. simpl in H.
    unfold bind, ret in H. cbn beta iota in H.
    pose proof (compile_updaters_same_epics (in_name e) (Awaits 2)
                  (indexed (in_updaters e)) s) as Hs.
    destruct (compile_updaters (in_name e) (Awaits 2)
                (indexed (in_updaters e)) s)
      as [[us|x'|] s1]; try discriminate.
    injection H as <- <-. exact Hs. }
  unfold unregister, bind, gets. simpl. rewrite Hsame, Hreg. reflexivity.
Qed.

(** X8.  After [unregister] the name is free, unless it is one that the
    registry inherits: a [register] under it does not
    throw [duplicateEpic], whether the Epic had been registered or not. *)
Theorem register_after_unregister (a : EpicArg) (e : EpicIn) (s : Store) :
  in_name e = unregister_key a ->
  inherited (in_name e) = false ->
  fst (register e (snd (unregister a s))) <> Throw (Invariant duplicateEpic).
Proof.
  intros Hn Hin.
  assert (Hfree : obj_has (epicRegistry (snd (unregister a s))) (in_name e) = false).
  { unfold unregister, bind, gets, modify.
    destruct (obj_has (epicRegistry s) (unregister_key a)) eqn:E; simpl.
    - unfold obj_has. rewrite Hn, obj_get_delete_same. reflexivity.
    - rewrite Hn. exact E. }
  set (s1 := snd (unregister a s)) in *.
  unfold register. unfold bind at 1. unfold gets at 1.
  rewrite Hfree, Hin. simpl.
  unfold bind at 1. unfold ret at 1.
  pose proof (compile_updaters_not_duplicate (in_name e) (Awaits 2)
                (indexed (in_updaters e)) s1) as Hr.
  unfold bind.
  destruct (compile_updaters (in_name e) (Awaits 2)
              (indexed (in_updaters e)) s1)
    as [[us|x|] s2]; simpl in *; try discriminate.
  intros E. injection E as ->. apply (Hr _ eq_refl). reflexivity.
Qed.

(** ** Compiling conditions *)

Lemma allocated_nil s : allocated [] s s.
Proof. unfold allocated. rewrite app_nil_r. destruct s; reflexivity. Qed.

Lemma allocated_app n1 n2 s s1 s2 :
  allocated n1 s s1 -> allocated n2 s1 s2 -> allocated (n1 ++ n2) s s2.
Proof.
  unfold allocated. intros -> ->. cbn [conditions set_conditions].
  rewrite app_assoc. reflexivity.
Qed.

Lemma addresses_Arr items : addresses (Arr items) = flat_map addresses items.
Proof. reflexivity. Qed.

Lemma compile_compiles o : compiles addresses (compile o).
Proof.
  intros s. unfold compile.
  destruct (in_type o) as [type|].
  - destruct (in_selector o).
    + unfold bind, ret, alloc_condition, bind, gets, modify, ret.
      eexists. split; [unfold allocated; cbn; reflexivity | reflexivity].
    + exists []. split; [apply allocated_nil|]. right. reflexivity.
    + unfold bind, ret, alloc_condition, bind, gets, modify, ret.
      eexists. split; [unfold allocated; cbn; reflexivity | reflexivity].
  - exists []. split; [apply allocated_nil|]. left. reflexivity.
Qed.

Lemma compiles_each (f : InCond -> M CondRef)
    (each : list InCond -> M (list CondRef)) :
  each [] = ret [] ->
  (forall c l, each (c :: l) = (r <- f c ;; rs <- each l ;; ret (r :: rs))) ->
  forall l, Forall (fun c => compiles addresses (f c)) l ->
  compiles (flat_map addresses) (each l).
Proof.
  intros E0 E1 l. induction 1 as [|c l Hc _ IH]; intros s.
  - rewrite E0. exists []. split; [apply allocated_nil | reflexivity].
  - rewrite E1. destruct (Hc s) as (n1 & A1 & R1). unfold bind.
    destruct (f c s) as [[r|e|] s1]; cbn [fst snd] in *.
    + destruct (IH s1) as (n2 & A2 & R2).
      destruct (each l s1) as [[rs|e|] s2]; unfold ret; cbn [fst snd] in *.
      * exists (n1 ++ n2). split; [eapply allocated_app; eassumption|].
        cbn [flat_map]. rewrite R1, R2. unfold allocated in A1. subst s1.
        cbn [conditions set_conditions]. rewrite !length_app.
        rewrite seq_app. reflexivity.
      * exists (n1 ++ n2). split; [eapply allocated_app; eassumption|].
        exact R2.
      * contradiction.
    + exists n1. split; assumption.
    + contradiction.
Qed.

Lemma compiles_map {A B} (refs : A -> list nat) (refs' : B -> list nat)
    (m : M A) (g : A -> B) :
  (forall a, refs' (g a) = refs a) -> compiles refs m ->
  compiles refs' (a <- m ;; ret (g a)).
Proof.
  intros Hg Hm s. destruct (Hm s) as (new & A1 & R). exists new.
  unfold bind. destruct (m s) as [[a|e|] s1]; unfold ret; cbn [fst snd] in *;
    (split; [exact A1|]); [|exact R..].
  rewrite Hg. exact R.
Qed.

Lemma processCondition_compiles c : compiles addresses (processCondition c).
Proof.
  induction c as [type|o|l IH] using InCond_nested_ind; cbn [processCondition].
  - apply compile_compiles.
  - apply compile_compiles.
  - apply (compiles_map (flat_map addresses)); [reflexivity|].
    apply (compiles_each processCondition); [reflexivity.. | exact IH].
Qed.

(** X3.  [processCondition] does nothing to the store but append new
    condition objects.  When it returns, the objects under what it
    returns are the new ones, each once, in the order of allocation: no
    compiled condition shares an object with another.  It throws nothing
    but [invalidConditionType] and [invalidConditionSelector]. *)
Theorem processCondition_allocates (c : InCond) (s : Store) :
  exists new,
    snd (processCondition c s) = set_conditions (conditions s ++ new) s /\
    (forall r, fst (processCondition c s) = Ok r ->
       addresses r = seq (length (conditions s)) (length new)) /\
    (forall e, fst (processCondition c s) = Throw e ->
       e = Invariant invalidConditionType \/
       e = Invariant invalidConditionSelector) /\
    fst (processCondition c s) <> Stuck.
Proof.
  destruct (processCondition_compiles c s) as (new & A & R).
  exists new. split; [exact A|].
  destruct (fst (processCondition c s)) as [r|e|].
  - repeat split; try discriminate. intros r' E. injection E as <-. exact R.
  - repeat split; try discriminate. intros e' E. injection E as <-. exact R.
  - contradiction.
Qed.

Lemma first_array_split l before items after :
  first_array l = Some (before, items, after) ->
  l = before ++ Arr items :: after /\ forallb is_ref before = true.
Proof.
  revert before. induction l as [|x l IH]; intros before H; [discriminate|].
  destruct x as [a|its]; simpl in H.
  - destruct (first_array l) as [[[b i] af]|]; [|discriminate].
    injection H as <- <- <-. destruct (IH b eq_refl) as [-> Hb].
    split; [reflexivity | exact Hb].
  - injection H as <- <- <-. split; reflexivity.
Qed.

Lemma first_array_none l :
  first_array l = None -> forallb is_ref l = true.
Proof.
  induction l as [|x l IH]; [reflexivity|].
  destruct x as [a|its]; simpl; [|discriminate].
  destruct (first_array l) as [[[b i] af]|]; [discriminate|].
  intros _. apply IH. reflexivity.
Qed.

Lemma splitConditions_upto_shape d : forall l,
  splitConditions_upto d l <> [] /\
  Forall (fun v => length v = length l) (splitConditions_upto d l).
Proof.
  induction d as [|d IH]; intros l; simpl.
  - split; [discriminate | repeat constructor].
  - destruct (first_array l) as [[[b its] af]|] eqn:E;
      [|split; [discriminate | repeat constructor]].
    destruct (first_array_split _ _ _ _ E) as [-> _].
    destruct (flat_map _ its) as [|v vs] eqn:Ef;
      [split; [discriminate | repeat constructor]|].
    split; [discriminate|]. rewrite <- Ef.
    apply List.Forall_flat_map. apply List.Forall_forall. intros c _.
    destruct (IH (b ++ c :: af)) as [_ H].
    eapply List.Forall_impl; [|exact H]. intros w Hw. cbv beta in Hw.
    rewrite Hw, !length_app. reflexivity.
Qed.

(** X4.  [splitConditions] never returns an empty list, every vector it
    returns has as many elements as its argument, and an argument without
    arrays comes back alone. *)
Theorem splitConditions_shape (l : list CondRef) :
  splitConditions l <> [] /\
  (forall v, In v (splitConditions l) -> length v = length l) /\
  (forallb is_ref l = true -> splitConditions l = [l]).
Proof.
  unfold splitConditions.
  destruct (splitConditions_upto_shape (refs_size l) l) as [H1 H2].
  split; [exact H1|]. split.
  - rewrite List.Forall_forall in H2. exact H2.
  - intros H. destruct (refs_size l); [reflexivity|]. simpl.
    destruct (first_array l) as [[[b its] af]|] eqn:E; [|reflexivity].
    destruct (first_array_split _ _ _ _ E) as [-> _].
    rewrite forallb_app in H. apply andb_prop in H as [_ H]. discriminate.
Qed.

Lemma alternatives_Arr items :
  alternatives (Arr items) = flat_map alternatives items.
Proof. reflexivity. Qed.

Lemma inhabited_Arr items :
  inhabited (Arr items) =
  match items with [] => false | _ => true end && forallb inhabited items.
Proof. reflexivity. Qed.

Lemma alternatives_refs r : forallb is_ref (alternatives r) = true.
Proof.
  revert r. fix IH 1. intros [a|items]; [reflexivity|].
  rewrite alternatives_Arr.
  induction items as [|x l IHl]; simpl; [reflexivity|].
  rewrite forallb_app, IH, IHl. reflexivity.
Qed.

Lemma alternatives_inhabited r : inhabited r = true -> alternatives r <> [].
Proof.
  revert r. fix IH 1. intros [a|items]; [discriminate|].
  rewrite alternatives_Arr, inhabited_Arr.
  destruct items as [|x l]; [discriminate|]. simpl.
  intros H. apply andb_prop in H as [H _].
  specialize (IH x H). destruct (alternatives x); [congruence | discriminate].
Qed.

Lemma product_refs (b : list CondRef) ls :
  forallb is_ref b = true ->
  product (map alternatives b ++ ls) = map (app b) (product ls).
Proof.
  induction b as [|x b IH]; simpl.
  - intros _. rewrite map_id. reflexivity.
  - destruct x as [a|its]; [|discriminate]. simpl. intros H.
    rewrite IH by exact H. rewrite app_nil_r, map_map. reflexivity.
Qed.

Lemma product_nonempty {A} (ls : list (list A)) :
  Forall (fun l => l <> []) ls -> product ls <> [].
Proof.
  induction 1 as [|l ls Hl _ IH]; simpl; [discriminate|].
  destruct l as [|x l]; [congruence|]. simpl.
  destruct (product ls); [congruence | discriminate].
Qed.

Lemma flat_map_flat_map {A B C} (f : A -> list B) (g : B -> list C) l :
  flat_map g (flat_map f l) = flat_map (fun x => flat_map g (f x)) l.
Proof.
  induction l as [|x l IH]; simpl; [reflexivity|].
  rewrite flat_map_app, IH. reflexivity.
Qed.

Lemma map_flat_map {A B C} (f : A -> list B) (g : B -> C) l :
  map g (flat_map f l) = flat_map (fun x => map g (f x)) l.
Proof.
  induction l as [|x l IH]; simpl; [reflexivity|].
  rewrite map_app, IH. reflexivity.
Qed.

Lemma splitConditions_upto_product d : forall l,
  refs_size l <= d -> forallb inhabited l = true ->
  splitConditions_upto d l = product (map alternatives l).
Proof.
  induction d as [|d IH]; intros l Hd Hi.
  - destruct l as [|x l]; [reflexivity|].
    unfold refs_size in Hd. simpl in Hd. destruct x; simpl in Hd; lia.
  - simpl. destruct (first_array l) as [[[b its] af]|] eqn:E.
    + destruct (first_array_split _ _ _ _ E) as [El Hb].
      assert (Hstep : forall c, In c its ->
                splitConditions_upto d (b ++ c :: af)
                = map (app b)
                    (flat_map (fun x => map (cons x) (product (map alternatives af)))
                       (alternatives c))).
      { intros c Hc. rewrite IH.
        - rewrite map_app. cbn [map]. rewrite product_refs by exact Hb.
          reflexivity.
        - pose proof (first_array_size _ _ _ _ c E Hc). lia.
        - subst l. rewrite forallb_app in Hi |- *.
          apply andb_prop in Hi as [H1 H2]. rewrite H1.
          cbn [forallb andb] in H2 |- *.
          apply andb_prop in H2 as [H2 H3]. rewrite H3, andb_true_r.
          rewrite inhabited_Arr in H2. apply andb_prop in H2 as [_ H2].
          rewrite forallb_forall in H2. apply H2, Hc. }
      rewrite (flat_map_In_ext _ _ _ Hstep).
      assert (Ep : product (map alternatives l)
                   = flat_map
                       (fun c => map (app b)
                          (flat_map
                             (fun x => map (cons x) (product (map alternatives af)))
                             (alternatives c))) its).
      { subst l. rewrite map_app. cbn [map].
        rewrite product_refs by exact Hb. cbn [product].
        rewrite alternatives_Arr, flat_map_flat_map, map_flat_map.
        reflexivity. }
      rewrite <- Ep.
      destruct (product (map alternatives l)) eqn:Ez; [|reflexivity].
      exfalso. revert Ez. apply product_nonempty.
      apply List.Forall_map, List.Forall_forall. intros r Hr.
      apply alternatives_inhabited.
      rewrite forallb_forall in Hi. apply Hi, Hr.
    + apply first_array_none in E.
      clear Hd Hi. induction l as [|x l IHl]; [reflexivity|].
      destruct x as [a|its]; [|discriminate]. simpl in *.
      rewrite <- IHl by exact E. rewrite app_nil_r. reflexivity.
Qed.

(** X5.  When no array of the argument, at any depth, is empty,
    [splitConditions] returns one vector for each way of choosing one
    condition from each element, nested arrays flattened, the choices of
    the first array varying slowest; no vector holds an array any more. *)
Theorem splitConditions_product (l : list CondRef) :
  forallb inhabited l = true ->
  splitConditions l = product (map alternatives l) /\
  (forall v, In v (splitConditions l) -> forallb is_ref v = true).
Proof.
  intros H.
  assert (E : splitConditions l = product (map alternatives l)).
  { apply splitConditions_upto_product; [reflexivity | exact H]. }
  split; [exact E|]. rewrite E. clear E H.
  induction l as [|x l IH]; simpl.
  - intros v [<-|[]]. reflexivity.
  - intros v Hv. apply in_flat_map in Hv as (c & Hc & Hv).
    apply in_map_iff in Hv as (w & <- & Hw). simpl.
    rewrite (IH w Hw), andb_true_r.
    pose proof (alternatives_refs x) as Hr. rewrite forallb_forall in Hr.
    apply Hr, Hc.
Qed.

(** ** The frame of the pump *)

#[local] Instance pump_frame_pre : PreOrder pump_frame.
Proof.
  split.
  - intros s. split; [reflexivity|]. split; [reflexivity|].
    split; [tauto|]. split; exists []; rewrite app_nil_r; [|split]; reflexivity.
  - intros a b c (B1 & L1 & A1 & [l1 C1] & [k1 [K1 N1]])
                 (B2 & L2 & A2 & [l2 C2] & [k2 [K2 N2]]).
    split; [congruence|]. split; [congruence|]. split; [auto|].
    split.
    + exists (l1 ++ l2). rewrite C2, C1, app_assoc. reflexivity.
    + exists (k1 ++ k2). rewrite K2, K1, app_assoc. split; [reflexivity|].
      rewrite forallb_app, N1, N2. reflexivity.
Qed.

Lemma pump_frame_refl s : pump_frame s s.
Proof. reflexivity. Qed.

Lemma pump_frame_conditions s x :
  length x = length (conditions s) -> pump_frame s (set_conditions x s).
Proof.
  intros H. split; [reflexivity|]. split; [exact H|]. split; [tauto|].
  split; exists []; rewrite app_nil_r; [|split]; reflexivity.
Qed.

Lemma pump_frame_epicRegistry s x : pump_frame s (set_epicRegistry x s).
Proof.
  split; [reflexivity|]. split; [reflexivity|]. split; [tauto|].
  split; exists []; rewrite app_nil_r; [|split]; reflexivity.
Qed.

Lemma pump_frame_conditionCache s l :
  pump_frame s (set_conditionCache (conditionCache s ++ l) s).
Proof.
  split; [reflexivity|]. split; [reflexivity|]. split; [tauto|].
  split; [exists l; reflexivity|].
  exists []; rewrite app_nil_r; split; reflexivity.
Qed.

Lemma obj_has_set {V} (o : obj V) k v t :
  obj_has (obj_set k v o) t = String.eqb t k || obj_has o t.
Proof.
  unfold obj_has. rewrite obj_get_set.
  destruct (String.eqb t k); reflexivity.
Qed.

Lemma pump_frame_actionCache s t v :
  pump_frame s (set_actionCache (obj_set t v (actionCache s)) s).
Proof.
  split; [reflexivity|]. split; [reflexivity|]. split.
  - intros t' H. cbn [actionCache set_actionCache].
    rewrite obj_has_set, H. apply orb_true_r.
  - split; exists []; rewrite app_nil_r; [|split]; reflexivity.
Qed.

Lemma pump_frame_calls s n i id p :
  pump_frame s (set_calls (calls s ++ [UpdaterCall n i id p]) s).
Proof.
  split; [reflexivity|]. split; [reflexivity|]. split; [tauto|].
  split; [exists []; rewrite app_nil_r; reflexivity|].
  eexists. split; reflexivity.
Qed.

Ltac pump_leaf :=
  repeat match goal with
  | |- pump_frame _ (match ?x with _ => _ end) => destruct x
  end;
  first [ apply pump_frame_refl | apply pump_frame_epicRegistry
        | apply pump_frame_conditionCache | apply pump_frame_actionCache
        | apply pump_frame_calls
        | apply pump_frame_conditions; apply length_alter ].

Lemma write_condition_pump a f : preserves pump_frame (write_condition a f).
Proof. unfold write_condition. frame_step. pump_leaf. Qed.

Lemma read_condition_pump a : preserves pump_frame (read_condition a).
Proof. unfold read_condition. repeat frame_step. Qed.

Lemma read_instance_pump n k : preserves pump_frame (read_instance n k).
Proof. unfold read_instance. repeat frame_step. Qed.

Lemma write_instance_pump n k f : preserves pump_frame (write_instance n k f).
Proof.
  unfold write_instance. frame_step; [apply read_instance_pump|].
  frame_step. pump_leaf.
Qed.

Lemma test_pattern_pump p t : preserves pump_frame (test_pattern p t).
Proof. unfold test_pattern, compile_pattern. repeat frame_step. Qed.

Lemma update_instance_pump recur action u fp id :
  preserves pump_frame (update_instance recur action u fp id).
Proof.
  unfold update_instance, log_call.
  frame_step; [apply write_instance_pump|].
  frame_step; [apply read_instance_pump|].
  do 2 (frame_step; [frame_step|]).
  frame_step; [frame_step; pump_leaf|].
  destruct (u_handler u _ _); [|frame_step].
  apply preserves_bind_never; [frame_step | apply never_returns_throw].
Qed.

Lemma select_instances_pump action n e :
  preserves pump_frame (select_instances action n e).
Proof. unfold select_instances. repeat frame_step; pump_leaf. Qed.

Lemma processUpdater_pump recur action a u fp :
  preserves pump_frame (processUpdater recur action a u fp).
Proof.
  unfold processUpdater.
  repeat first [ apply read_condition_pump | apply select_instances_pump
               | apply update_instance_pump | frame_step ].
Qed.

Lemma direct_updater_pump recur action ext u :
  preserves pump_frame (direct_updater recur action ext u).
Proof.
  unfold direct_updater, push_condition.
  repeat first [ apply processUpdater_pump | apply read_condition_pump
               | apply write_condition_pump | frame_step ]; pump_leaf.
Qed.

Lemma pattern_updater_pump recur action key u :
  preserves pump_frame (pattern_updater recur action key u).
Proof.
  unfold pattern_updater, push_condition.
  repeat first [ apply processUpdater_pump | apply write_condition_pump
               | frame_step ]; pump_leaf.
Qed.

Lemma processAction_pump depth action ext :
  preserves pump_frame (processAction depth action ext).
Proof.
  destruct depth as [|depth]; simpl; [frame_step|].
  repeat first [ apply direct_updater_pump | apply pattern_updater_pump
               | apply test_pattern_pump | frame_step ]; pump_leaf.
Qed.

Lemma processAction_of_epic depth action s :
  obj_has (epicRegistry s) (a_type action) = true ->
  processAction (S depth) action true s
    = (Throw (Invariant invalidEpicAction), s).
Proof.
  intros H. simpl. unfold bind at 1. unfold gets at 1. rewrite H. reflexivity.
Qed.

Lemma processAction_repeated depth action s :
  obj_has (epicRegistry s) (a_type action) = false ->
  obj_has (actionCache s) (a_type action) = true ->
  processAction (S depth) action true s
    = (Throw (Invariant noRepeatedExternalAction), s).
Proof.
  intros H1 H2. simpl. unfold bind at 1. unfold gets at 1. rewrite H1.
  simpl. unfold bind at 1. unfold ret at 1.
  unfold bind at 1. unfold gets at 1. rewrite H2. reflexivity.
Qed.

(** X9.  An external action whose type names a registered Epic is
    refused with [invalidEpicAction], and one whose type [actionCache]
    already holds with [noRepeatedExternalAction]; either way the store is
    left as it is. *)
Theorem processAction_refuses depth (action : Action) (s : Store) :
  (obj_has (epicRegistry s) (a_type action) = true ->
   processAction (S depth) action true s
     = (Throw (Invariant invalidEpicAction), s)) /\
  (obj_has (epicRegistry s) (a_type action) = false ->
   obj_has (actionCache s) (a_type action) = true ->
   processAction (S depth) action true s
     = (Throw (Invariant noRepeatedExternalAction), s)).
Proof.
  split; [apply processAction_of_epic | apply processAction_repeated].
Qed.

Lemma processAction_records depth action ext s :
  obj_has (epicRegistry s) (a_type action) = false ->
  obj_has (actionCache s) (a_type action) = false ->
  obj_has (actionCache (snd (processAction (S depth) action ext s)))
    (a_type action) = true.
Proof.
  intros H1 H2. simpl. unfold bind at 1. unfold gets at 1. rewrite H1.
  rewrite orb_true_r. unfold invariant at 1. unfold bind at 1. unfold ret at 1.
  unfold bind at 1. unfold gets at 1. rewrite H2. rewrite orb_true_r.
  unfold invariant at 1. unfold bind at 1. unfold ret at 1.
  unfold bind at 1. unfold modify at 1.
  match goal with
  | |- context [bind ?m ?k ?s0] =>
      assert (Hp : pump_frame s0 (snd (bind m k s0)))
  end.
  { apply (preserves_bind pump_frame); [frame_step|intros direct].
    apply (preserves_bind pump_frame);
      [apply (preserves_forEach pump_frame); intros u;
       apply direct_updater_pump|intros _].
    apply (preserves_bind pump_frame); [frame_step|intros wp].
    destruct wp; [|frame_step].
    apply (preserves_bind pump_frame); [frame_step|intros keys].
    apply (preserves_forEach pump_frame). intros key.
    apply (preserves_bind pump_frame); [apply test_pattern_pump|intros hit].
    destruct hit; [|frame_step].
    apply (preserves_bind pump_frame); [frame_step|intros matching].
    apply (preserves_forEach pump_frame). intros u.
    apply pattern_updater_pump. }
  destruct Hp as (_ & _ & Ha & _). apply Ha.
  cbn [actionCache set_actionCache]. rewrite obj_has_set, String.eqb_refl.
  reflexivity.
Qed.

(** X10.  Once the pump has accepted an external action of some type, it
    refuses every later external action of that type
    with [noRepeatedExternalAction] and leaves the store as it is, whatever
    the first one ended with. *)
Theorem external_action_once depth depth' (action action' : Action) (s : Store) :
  a_type action' = a_type action ->
  obj_has (epicRegistry s) (a_type action) = false ->
  obj_has (actionCache s) (a_type action) = false ->
  let s' := snd (processAction (S depth) action true s) in
  processAction (S depth') action' true s'
    = (Throw (Invariant noRepeatedExternalAction), s').
Proof.
  intros Ht H1 H2 s'.
  apply processAction_repeated.
  - rewrite Ht.
    destruct (processAction_untouched (S depth) action true s)
      as (_ & _ & _ & Hn & _).
    unfold obj_has in *. fold s' in Hn.
    destruct (obj_get (epicRegistry s) (a_type action)) eqn:E; [discriminate|].
    rewrite (Hn _ E). reflexivity.
  - rewrite Ht. apply processAction_records; assumption.
Qed.

(** ** Patterns *)

Lemma wildcard_match_literal p : forall t,
  Pattern.has_star p = false ->
  Pattern.wildcard_match p t = String.eqb t p.
Proof.
  unfold Pattern.wildcard_match.
  induction p as [|c p IH]; intros t H.
  - destruct t; reflexivity.
  - cbn [Pattern.has_star] in H. apply orb_false_elim in H as [Hc Hp].
    cbn [Pattern.wildcard_items]. unfold Pattern.wildcard_item. rewrite Hc.
    cbn [Pattern.matches]. destruct t as [|d t]; [reflexivity|].
    cbn [Pattern.atom_accepts String.eqb]. rewrite (IH t Hp).
    destruct (d =? c)%char; reflexivity.
Qed.

Lemma star_matches t :
  Pattern.matches [(Pattern.Dot, Pattern.Star)] t = one_line t.
Proof.
  cbn [Pattern.matches]. induction t as [|c t IH]; [reflexivity|].
  cbn [Pattern.repeat_then one_line Pattern.atom_accepts]. rewrite IH.
  reflexivity.
Qed.

(** X13.  A pattern without [*], made of characters that the RegExp
    syntax reads literally, matches the type equal to it and no other;
    the pattern [*] matches the types without a line terminator and no
    other. *)
Theorem literal_and_star_patterns (pattern type : string) :
  (Pattern.plain pattern = true -> Pattern.has_star pattern = false ->
   Pattern.pattern_test pattern type
     = Pattern.Answers (String.eqb type pattern)) /\
  Pattern.pattern_test "*" type = Pattern.Answers (one_line type).
Proof.
  split.
  - intros Hp Hs. unfold Pattern.pattern_test, Pattern.getRegexFromPattern,
      Pattern.RegExp. cbn [append Ascii.eqb Bool.eqb].
    change (("^" ++ Pattern.replace_stars pattern ++ "$")%string)
      with (String "^" (Pattern.replace_stars pattern ++ "$")).
    cbn iota. rewrite (parse_items_plain pattern Hp).
    fold (Pattern.wildcard_match pattern type).
    rewrite (wildcard_match_literal pattern type Hs). reflexivity.
  - unfold Pattern.pattern_test.
    change (Pattern.getRegexFromPattern "*")
      with (Pattern.Parsed [(Pattern.Dot, Pattern.Star)]).
    cbv iota beta. rewrite star_matches. reflexivity.
Qed.

Lemma forEach_stops {A} (l : list A) (f : A -> M unit) x :
  In x l -> never_returns (f x) -> never_returns (forEach l f).
Proof.
  induction l as [|y l IH]; intros Hx Hn; [destruct Hx|].
  cbn [forEach]. destruct Hx as [->|Hx].
  - apply never_returns_bind_l, Hn.
  - apply never_returns_bind_r. intros _. apply IH; assumption.
Qed.

(** A computation that keeps [I] and whose continuation never returns
    from a store with [I]. *)
Lemma never_ok_bind {A B} (I : Store -> Prop) (m : M A) (k : A -> M B) s :
  I s -> (forall s0, I s0 -> I (snd (m s0))) ->
  (forall a s', I s' -> forall x, fst (k a s') <> Ok x) ->
  forall x, fst (bind m k s) <> Ok x.
Proof.
  intros Hs Hm Hk x. unfold bind. specialize (Hm s Hs).
  destruct (m s) as [[a|e|] s1]; cbn [fst snd] in *;
    [apply Hk, Hm | discriminate | discriminate].
Qed.

Lemma test_malformed key type :
  Pattern.getRegexFromPattern key = Pattern.SyntaxErr ->
  forall s, test_pattern key type s = (Throw SyntaxError, s).
Proof.
  intros H s. unfold test_pattern, compile_pattern, bind. rewrite H.
  reflexivity.
Qed.

Lemma pump_frame_patterns s s' :
  pump_frame s s' ->
  options s' = options s /\ patternRegistry s' = patternRegistry s.
Proof.
  intros (B & _). unfold beside_pump in B. injection B. intros.
  split; assumption.
Qed.

(** X12.  With patterns enabled, a key of [patternRegistry]
    that [new RegExp] refuses stops the pump: no [processAction] runs to
    its end, whatever the action. *)
Theorem malformed_pattern_blocks depth (action : Action) external (s : Store)
    (key : string) :
  patterns (options s) = true ->
  In key (obj_keys (patternRegistry s)) ->
  Pattern.getRegexFromPattern key = Pattern.SyntaxErr ->
  forall x, fst (processAction (S depth) action external s) <> Ok x.
Proof.
  intros Hp Hk Hm.
  set (I := fun s0 : Store =>
              patterns (options s0) = true /\
              In key (obj_keys (patternRegistry s0))).
  assert (Hpump : forall (m : M unit), preserves pump_frame m ->
            forall s0, I s0 -> I (snd (m s0))).
  { intros m Hpm s0 [H1 H2].
    destruct (pump_frame_patterns _ _ (Hpm s0)) as [Eo Er].
    split; [rewrite Eo | rewrite Er]; assumption. }
  assert (Hs : I s) by (split; assumption).
  cbn [processAction].
  apply (never_ok_bind I); [exact Hs | intros s0 H0; exact H0 | intros isEpic s1 H1].
  apply (never_ok_bind I); [exact H1| |intros _ s2 H2].
  { intros s0 H0. destruct (negb external || negb isEpic); exact H0. }
  apply (never_ok_bind I); [exact H2 | intros s0 H0; exact H0 | intros seen s3 H3].
  apply (never_ok_bind I); [exact H3| |intros _ s4 H4].
  { intros s0 H0. destruct (negb external || negb seen); exact H0. }
  apply (never_ok_bind I); [exact H4 | intros s0 H0; exact H0 | intros _ s5 H5].
  apply (never_ok_bind I); [exact H5 | intros s0 H0; exact H0 | intros direct s6 H6].
  apply (never_ok_bind I); [exact H6| |intros _ s7 [H7 H7']].
  { apply Hpump. apply (preserves_forEach pump_frame). intros u.
    apply direct_updater_pump. }
  unfold bind at 1. unfold gets at 1. rewrite H7.
  unfold bind at 1. unfold gets at 1.
  intros x. apply (forEach_stops _ _ key H7').
  apply never_returns_bind_l. intros s0 b.
  rewrite (test_malformed key _ Hm). discriminate.
Qed.

(** ** What a cycle leaves alone *)

#[local] Instance quiet_pre : PreOrder quiet.
Proof.
  split; [intros s; reflexivity|].
  intros a b c H1 H2. unfold quiet in *. congruence.
Qed.

#[local] Instance unchanged_pre : PreOrder unchanged.
Proof.
  split; [intros s; reflexivity|].
  intros a b c H1 H2. unfold unchanged in *. congruence.
Qed.

Lemma filter_none {A} (f : A -> bool) l :
  forallb (fun x => negb (f x)) l = true -> List.filter f l = [].
Proof.
  induction l as [|x l IH]; simpl; [reflexivity|].
  intros H. apply andb_prop in H as [H1 H2]. apply negb_true_iff in H1.
  rewrite H1. apply IH, H2.
Qed.

Lemma pump_frame_quiet s s' : pump_frame s s' -> quiet s s'.
Proof.
  intros (B & L & _ & _ & [l [C N]]). unfold quiet, beside_cycle.
  unfold beside_pump in B. injection B as -> -> -> -> -> -> _ _ _ _ _ _ _.
  rewrite L. unfold listener_calls. rewrite C, List.filter_app, (filter_none _ _ N).
  rewrite app_nil_r. reflexivity.
Qed.

Lemma fresh_cycle_sloppy_state depth action s :
  snd (fresh_cycle false depth action s) =
  match fst (processAction depth action true (begin_cycle action s)) with
  | Stuck => snd (processAction depth action true (begin_cycle action s))
  | _ => set_afterCycle true
           (set_inCycle false
              (snd (processAction depth action true (begin_cycle action s))))
  end.
Proof.
  pose proof (processAction_untouched depth action true
                (begin_cycle action s)) as H.
  cbv beta iota delta [fresh_cycle bind modify try_catch ret gets].
  destruct (processAction depth action true (begin_cycle action s))
    as [[[]|e|] s1]; simpl in H; destruct H as [Hc _];
    cbn [epicCache set_afterCycle set_inCycle fst snd]; try reflexivity;
    rewrite Hc; reflexivity.
Qed.

Lemma fresh_cycle_quiet strictMode depth action :
  preserves quiet (fresh_cycle strictMode depth action).
Proof.
  intros s. destruct strictMode.
  - rewrite fresh_cycle_strict. reflexivity.
  - rewrite fresh_cycle_sloppy_state.
    pose proof (pump_frame_quiet _ _
      (processAction_pump depth action true (begin_cycle action s))) as H.
    destruct (fst (processAction depth action true (begin_cycle action s)));
      exact H.
Qed.

Lemma dispatch_quiet strictMode depth a :
  preserves quiet (dispatch strictMode depth a).
Proof.
  unfold dispatch. frame_step; [frame_step|]. destruct a0.
  - apply (preserves_weaken pump_frame); [apply pump_frame_quiet|].
    apply processAction_pump.
  - repeat first [ apply fresh_cycle_quiet | frame_step ].
Qed.

(** ** Undo entries without instances *)

Lemma change_epics_unchanged d entry :
  preserves unchanged (change_epics d entry).
Proof.
  unfold change_epics.
  frame_step. frame_step; [frame_step|]. frame_step.
  apply preserves_bind_never; [|apply change_instance_never_returns].
  unfold change_instance. repeat frame_step.
Qed.

Lemma foldM_never {A B} (l : list A) (acc : B) (f : B -> A -> M B) :
  l <> [] -> (forall b x, never_returns (f b x)) ->
  never_returns (foldM l acc f).
Proof.
  destruct l as [|x l]; [congruence|]. intros _ H. simpl.
  apply never_returns_bind_l, H.
Qed.

Lemma foldM_invariant {A B} (P : B -> Prop) (l : list A) (f : B -> A -> M B) :
  (forall b x s b', P b -> fst (f b x s) = Ok b' -> P b') ->
  forall acc s r, P acc -> fst (foldM l acc f s) = Ok r -> P r.
Proof.
  intros Hf. induction l as [|x l IH]; intros acc s r Hacc; simpl.
  - intros E. injection E as <-. exact Hacc.
  - unfold bind. destruct (f acc x s) as [[b|e|] s1] eqn:E; simpl;
      try discriminate.
    apply IH. apply (Hf acc x s b Hacc). rewrite E. reflexivity.
Qed.

(** What [handleChange] hands to the listener dispatch lists no
    instance. *)
Lemma change_epics_cache d entry s cache :
  fst (change_epics d entry s) = Ok cache -> no_instance cache.
Proof.
  intros H.
  assert (P : forall n k, obj_get cache n = Some k -> k = keyed_empty).
  { revert H. unfold change_epics.
    apply (foldM_invariant
             (fun c : EpicCache =>
                forall n k, obj_get c n = Some k -> k = keyed_empty)).
    - intros b x s0 b' Hb. unfold bind at 1. unfold gets at 1.
      destruct (getInstances (fun _ => true)
                  (from_option (fun k => k) keyed_empty (obj_get entry x)))
        as [|i l] eqn:E.
      + simpl. intros E'. injection E' as <-. intros n k.
        rewrite obj_get_set. destruct (String.eqb n x); [congruence|apply Hb].
      + intros E'. exfalso. revert E'.
        apply foldM_never; [discriminate|]. intros c id.
        apply never_returns_bind_l, change_instance_never_returns.
    - intros n k E. discriminate. }
  intros n k E. rewrite (P n k E). reflexivity.
Qed.

Lemma test_patterns_unchanged (keys : list string) epicName :
  preserves unchanged
    (foldM keys [] (fun matched key =>
       hit <- test_pattern key epicName ;;
       ret (if hit then matched ++ [key] else matched))).
Proof.
  unfold test_pattern, compile_pattern. repeat frame_step.
Qed.

Lemma foldM_returns_acc {A B} (l : list A) (f : B -> A -> M B) :
  (forall acc x s, In x l ->
     snd (f acc x s) = s /\
     forall acc', fst (f acc x s) = Ok acc' -> acc' = acc) ->
  forall acc s,
    snd (foldM l acc f s) = s /\
    forall acc', fst (foldM l acc f s) = Ok acc' -> acc' = acc.
Proof.
  induction l as [|x l IH]; intros Hf acc s; cbn [foldM].
  - split; [reflexivity|]. intros acc' E. injection E as <-. reflexivity.
  - destruct (Hf acc x s (or_introl eq_refl)) as [Hs Ha]. unfold bind.
    destruct (f acc x s) as [[b|e|] s1]; simpl in *; subst s1;
      [|split; [reflexivity | discriminate]..].
    rewrite (Ha b eq_refl). apply IH. intros acc0 y s0 Hy.
    apply Hf. right. exact Hy.
Qed.

Lemma returns_bind {A B} (Q : B -> Prop) (m : M A) (k : A -> M B) s r :
  (forall a s', fst (k a s') = Ok r -> Q r) ->
  fst (bind m k s) = Ok r -> Q r.
Proof.
  intros Hk. unfold bind. destruct (m s) as [[a|e|] s1]; simpl;
    [apply Hk | discriminate | discriminate].
Qed.

(** A computation that leaves the store alone and can only return [a0],
    followed by another. *)
Lemma bind_after {A B} (m : M A) (k : A -> M B) s a0 :
  snd (m s) = s -> (forall a, fst (m s) = Ok a -> a = a0) ->
  unchanged s (snd (k a0 s)) -> unchanged s (snd (bind m k s)).
Proof.
  intros Hs Ha Hk. unfold bind.
  destruct (m s) as [[a|e|] s1]; simpl in *; subst s1;
    [|reflexivity|reflexivity].
  rewrite (Ha a eq_refl). exact Hk.
Qed.

(** With no instance listed in the cache no listener is looked up, and
    the store is left as it is. *)
Lemma processEpicListeners_no_instance cache source :
  no_instance cache -> preserves unchanged (processEpicListeners cache source).
Proof.
  intros Hc s. unfold processEpicListeners.
  match goal with
  | |- context [foldM (obj_keys cache) ?a ?f] =>
      assert (Hf : forall acc x s, In x (obj_keys cache) ->
                snd (f acc x s) = s /\
                forall acc', fst (f acc x s) = Ok acc' -> acc' = acc);
      [| destruct (foldM_returns_acc (obj_keys cache) f Hf a s) as [Hs Ha];
         apply (bind_after _ _ s a Hs Ha) ]
  end.
  - intros acc x s0 Hx. cbv beta.
    assert (Hn : from_option (getInstances truthy) [] (obj_get cache x) = []).
    { destruct (obj_get cache x) as [k|] eqn:E; [|reflexivity].
      simpl. apply (Hc x k E). }
    rewrite Hn. cbn [foldM]. split.
    + revert s0. unfold test_pattern, compile_pattern.
      change (preserves unchanged
               (withPatterns <- gets (fun s => patterns (options s)) ;;
                wild <- gets patternListeners ;;
                matchedPatterns <-
                  (if withPatterns
                   then foldM (obj_keys wild) [] (fun matched key =>
                          hit <- (r <- match Pattern.getRegexFromPattern key with
                                       | Pattern.Parsed r => ret r
                                       | Pattern.SyntaxErr => throw SyntaxError
                                       | Pattern.Unsupported => stuck
                                       end ;;
                                  ret (Pattern.matches r x)) ;;
                          ret (if hit then matched ++ [key] else matched))
                   else ret []) ;;
                epic <- gets (fun s => obj_get (epicRegistry s) x) ;;
                ret acc)).
      repeat frame_step.
    + intros acc'.
      repeat (apply (returns_bind (fun r => r = acc)); intros ? ?).
      intros E. cbn in E. injection E as <-. reflexivity.
  - reflexivity.
Qed.

Lemma store_undo_quiet : preserves quiet store_undo.
Proof.
  intros s. unfold store_undo. unfold bind at 1. unfold gets at 1.
  destruct (undo (options s)); [|reflexivity].
  unfold bind at 1.
  assert (Hh : quiet s (snd (handleChange Backward s))).
  { revert s. change (preserves quiet (handleChange Backward)).
    unfold handleChange, pop.
    repeat first
      [ apply (preserves_weaken unchanged);
        [intros s s' ->; reflexivity | apply change_epics_unchanged]
      | frame_step ]; reflexivity. }
  assert (Hc : forall cache, fst (handleChange Backward s) = Ok cache ->
                 no_instance cache).
  { intros cache. unfold handleChange, pop. unfold bind at 1.
    unfold bind at 1. unfold gets at 1.
    destruct (last (source_stack Backward s)) as [entry|]; [|discriminate].
    unfold bind at 1. unfold modify at 1. unfold ret at 1.
    unfold bind at 1.
    match goal with
    | |- context [change_epics ?d ?e ?s0] =>
        pose proof (change_epics_cache d e s0) as Hce;
        destruct (change_epics d e s0) as [[c|x|] s1]
    end; simpl; try discriminate.
    intros E. injection E as <-. apply Hce. reflexivity. }
  destruct (handleChange Backward s) as [[cache|e|] s1]; simpl in *;
    try exact Hh.
  unfold bind.
  pose proof (processEpicListeners_no_instance cache (Some UNDO_ACTION)
                (Hc cache eq_refl) s1) as Hp.
  destruct (processEpicListeners cache (Some UNDO_ACTION) s1)
    as [[r|e|] s2]; simpl in *; unfold unchanged in Hp; subst s2; exact Hh.
Qed.

(** ** What [handleChange] does to the stacks *)

Lemma foldM_pure {A B} (l : list A) (f : B -> A -> M B) :
  (forall acc x s, In x l -> exists acc', f acc x s = (Ok acc', s)) ->
  forall acc s, exists acc', foldM l acc f s = (Ok acc', s).
Proof.
  induction l as [|x l IH]; intros Hf acc s; cbn [foldM].
  - exists acc. reflexivity.
  - destruct (Hf acc x s (or_introl eq_refl)) as [b Hb].
    unfold bind. rewrite Hb. apply IH. intros acc0 y s0 Hy.
    apply Hf. right. exact Hy.
Qed.

Lemma change_epics_blank d entry s :
  blank entry ->
  exists cache, change_epics d entry s = (Ok cache, s) /\ no_instance cache.
Proof.
  intros Hb.
  assert (H : exists cache, change_epics d entry s = (Ok cache, s)).
  { unfold change_epics. apply foldM_pure. intros acc x s0 _.
    unfold bind, gets.
    assert (E : getInstances (fun _ => true)
                  (from_option (fun k => k) keyed_empty (obj_get entry x)) = []).
    { destruct (obj_get entry x) as [k|] eqn:E; [|reflexivity].
      destruct (Hb x k E) as [H1 H2]. unfold getInstances. simpl.
      rewrite H1, H2. reflexivity. }
    cbv zeta. rewrite E. eexists. reflexivity. }
  destruct H as [cache Hc]. exists cache. split; [exact Hc|].
  apply (change_epics_cache d entry s). rewrite Hc. reflexivity.
Qed.

Lemma last_removelast {A} (l : list A) x :
  last l = Some x -> removelast l ++ [x] = l.
Proof.
  intros H. apply last_Some in H as [l' ->].
  rewrite removelast_last. reflexivity.
Qed.

Lemma handleChange_blank d s entry :
  last (source_stack d s) = Some entry -> blank entry ->
  exists cache,
    handleChange d s =
      (Ok cache,
       set_target_stack d (target_stack d s ++ [entry])
         (set_source_stack d (removelast (source_stack d s)) s)) /\
    no_instance cache.
Proof.
  intros Hl Hb. unfold handleChange, pop. unfold bind at 1. unfold bind at 1.
  unfold gets at 1. rewrite Hl. unfold bind at 1. unfold modify at 1.
  unfold ret at 1. unfold bind at 1.
  destruct (change_epics_blank d entry
              (set_source_stack d (removelast (source_stack d s)) s) Hb)
    as (cache & -> & Hn).
  exists cache. split; [|exact Hn].
  unfold bind, modify, ret. destruct d; reflexivity.
Qed.

Lemma after_handleChange_blank d s entry source :
  last (source_stack d s) = Some entry -> blank entry ->
  snd ((cache <- handleChange d ;; processEpicListeners cache source ;; ret tt) s)
  = set_target_stack d (target_stack d s ++ [entry])
      (set_source_stack d (removelast (source_stack d s)) s).
Proof.
  intros Hl Hb.
  destruct (handleChange_blank d s entry Hl Hb) as (cache & Hh & Hn).
  unfold bind at 1. rewrite Hh. unfold bind.
  pose proof (processEpicListeners_no_instance cache source Hn
                (set_target_stack d (target_stack d s ++ [entry])
                   (set_source_stack d (removelast (source_stack d s)) s)))
    as Hp.
  destruct (processEpicListeners cache source _) as [[r|e|] s2];
    simpl in *; exact Hp.
Qed.

(** X21.  [undo] of an entry that records no change for any instance
    moves the entry from the undo stack to the redo stack and does
    nothing else to the store, and [redo] after it gives the store back as
    it was. *)
Theorem undo_redo_blank_entry (s : Store) (entry : UndoEntry) :
  undo (options s) = true ->
  last (undoStack s) = Some entry ->
  blank entry ->
  snd (store_undo s)
    = set_redoStack (redoStack s ++ [entry])
        (set_undoStack (removelast (undoStack s)) s) /\
  snd (store_redo (snd (store_undo s))) = s.
Proof.
  intros Hu Hl Hb.
  assert (E1 : snd (store_undo s)
    = set_redoStack (redoStack s ++ [entry])
        (set_undoStack (removelast (undoStack s)) s)).
  { unfold store_undo. unfold bind at 1. unfold gets at 1. rewrite Hu.
    apply (after_handleChange_blank Backward s entry _ Hl Hb). }
  split; [exact E1|]. rewrite E1.
  unfold store_redo. unfold bind at 1. unfold gets at 1.
  cbn [options set_redoStack set_undoStack]. rewrite Hu.
  rewrite (after_handleChange_blank Forward _ entry).
  - cbn [target_stack source_stack set_target_stack set_source_stack
         undoStack redoStack set_undoStack set_redoStack].
    rewrite removelast_last, (last_removelast _ _ Hl).
    destruct s; reflexivity.
  - cbn [source_stack redoStack set_redoStack]. apply last_snoc.
  - exact Hb.
Qed.

(** ** Entries that record a change *)

Lemma foldM_stops {A B} (l : list A) (f : B -> A -> M B) x :
  In x l -> (forall b, never_returns (f b x)) ->
  forall acc, never_returns (foldM l acc f).
Proof.
  induction l as [|y l IH]; intros Hx Hn acc; [destruct Hx|].
  cbn [foldM]. destruct Hx as [->|Hx].
  - apply never_returns_bind_l, Hn.
  - apply never_returns_bind_r. intros b. apply IH; assumption.
Qed.

Lemma change_epics_recorded d entry n k :
  obj_get entry n = Some k -> getInstances (fun _ => true) k <> [] ->
  never_returns (change_epics d entry).
Proof.
  intros Hk Hi. unfold change_epics.
  apply (foldM_stops _ _ n).
  - apply obj_get_In_keys. congruence.
  - intros b. apply never_returns_bind_r. intros epic. rewrite Hk.
    cbn [from_option].
    destruct (getInstances (fun _ => true) k) as [|i l]; [congruence|].
    cbn [foldM]. apply never_returns_bind_l, never_returns_bind_l.
    apply change_instance_never_returns.
Qed.

Lemma ends_bind_never {A B} (P : Exn -> Prop) (m : M A) (k : A -> M B) :
  ends_within P m -> never_returns m -> ends_within P (bind m k).
Proof.
  intros Hm Hn s. unfold bind. specialize (Hm s). specialize (Hn s).
  destruct (m s) as [[a|e|] s']; simpl in *; try assumption.
  exfalso. apply (Hn a). reflexivity.
Qed.

Lemma ends_foldM {A B} (P : Exn -> Prop) (l : list A) (acc : B)
    (f : B -> A -> M B) :
  (forall b x, ends_within P (f b x)) -> ends_within P (foldM l acc f).
Proof.
  intros Hf. revert acc. induction l as [|x l IH]; intros acc; cbn [foldM].
  - apply ends_ret.
  - apply ends_bind; [apply Hf | intros b; apply IH].
Qed.

Lemma ends_defined {A} (P : Exn -> Prop) (o : option A) :
  P TypeError -> ends_within P (defined o).
Proof. intros H. destruct o; [apply ends_ret | apply ends_throw, H]. Qed.

Lemma change_epics_ends d entry :
  ends_within (fun e => e = TypeError) (change_epics d entry).
Proof.
  unfold change_epics.
  apply ends_foldM. intros cache x.
  apply ends_bind; [apply ends_gets | intros epic].
  apply ends_foldM. intros c id.
  apply ends_bind_never; [|apply change_instance_never_returns].
  unfold change_instance.
  apply ends_bind.
  - destruct id; [apply ends_ret|].
    apply ends_bind; [apply ends_defined; reflexivity | intros e].
    apply ends_bind; [apply ends_defined; reflexivity | intros l].
    apply ends_ret.
  - intros i. apply ends_bind; [apply ends_defined; reflexivity | intros j].
    destruct (obj_get _ _); apply ends_throw; reflexivity.
Qed.

Lemma handleChange_recorded d s entry n k :
  last (source_stack d s) = Some entry ->
  obj_get entry n = Some k -> getInstances (fun _ => true) k <> [] ->
  handleChange d s
    = (Throw TypeError, set_source_stack d (removelast (source_stack d s)) s).
Proof.
  intros Hl Hk Hi. unfold handleChange, pop. unfold bind at 1. unfold bind at 1.
  unfold gets at 1. rewrite Hl. unfold bind at 1. unfold modify at 1.
  unfold ret at 1. unfold bind at 1.
  set (s1 := set_source_stack d (removelast (source_stack d s)) s).
  pose proof (change_epics_recorded d entry n k Hk Hi s1) as Hn.
  pose proof (change_epics_ends d entry s1) as He.
  pose proof (change_epics_unchanged d entry s1) as Hs.
  destruct (change_epics d entry s1) as [[c|e|] s2]; simpl in *.
  - exfalso. apply (Hn c). reflexivity.
  - unfold unchanged in Hs. subst. reflexivity.
  - contradiction.
Qed.

(** X22.  [undo] of an entry that records a change for some instance
    throws a TypeError; the entry is gone from the undo stack, it is not
    on the redo stack, and the store is otherwise what it was. *)
Theorem undo_loses_recorded_entry (s : Store) (entry : UndoEntry) n k :
  undo (options s) = true ->
  last (undoStack s) = Some entry ->
  obj_get entry n = Some k ->
  named k <> [] \/ dflt k <> None ->
  store_undo s
    = (Throw TypeError, set_undoStack (removelast (undoStack s)) s).
Proof.
  intros Hu Hl Hk Hi.
  assert (Hg : getInstances (fun _ => true) k <> []).
  { unfold getInstances. destruct Hi as [Hi|Hi].
    - destruct (named k); [congruence | discriminate].
    - destruct (dflt k); [|congruence].
      intros E. apply app_eq_nil in E as [_ E]. discriminate. }
  unfold store_undo. unfold bind at 1. unfold gets at 1. rewrite Hu.
  unfold bind at 1.
  rewrite (handleChange_recorded Backward s entry n k Hl Hk Hg). reflexivity.
Qed.

Lemma store_redo_quiet : preserves quiet store_redo.
Proof.
  intros s. unfold store_redo. unfold bind at 1. unfold gets at 1.
  destruct (undo (options s)); [|reflexivity].
  unfold bind at 1.
  assert (Hh : quiet s (snd (handleChange Forward s))).
  { revert s. change (preserves quiet (handleChange Forward)).
    unfold handleChange, pop.
    repeat first
      [ apply (preserves_weaken unchanged);
        [intros s s' ->; reflexivity | apply change_epics_unchanged]
      | frame_step ]; reflexivity. }
  assert (Hc : forall cache, fst (handleChange Forward s) = Ok cache ->
                 no_instance cache).
  { intros cache. unfold handleChange, pop. unfold bind at 1.
    unfold bind at 1. unfold gets at 1.
    destruct (last (source_stack Forward s)) as [entry|]; [|discriminate].
    unfold bind at 1. unfold modify at 1. unfold ret at 1.
    unfold bind at 1.
    match goal with
    | |- context [change_epics ?d ?e ?s0] =>
        pose proof (change_epics_cache d e s0) as Hce;
        destruct (change_epics d e s0) as [[c|x|] s1]
    end; simpl; try discriminate.
    intros E. injection E as <-. apply Hce. reflexivity. }
  destruct (handleChange Forward s) as [[cache|e|] s1]; simpl in *;
    try exact Hh.
  unfold bind.
  pose proof (processEpicListeners_no_instance cache (Some REDO_ACTION)
                (Hc cache eq_refl) s1) as Hp.
  destruct (processEpicListeners cache (Some REDO_ACTION) s1)
    as [[r|e|] s2]; simpl in *; unfold unchanged in Hp; subst s2; exact Hh.
Qed.

(** X14.  [dispatch], [undo] and [redo] call no listener, and leave the
    options, the listeners, both registries of updaters, both indices of
    listeners and the number of condition objects as they were. *)
Theorem cycles_tell_no_listener strictMode depth (a : ActionIn) (s : Store) :
  quiet s (snd (dispatch strictMode depth a s)) /\
  quiet s (snd (store_undo s)) /\
  quiet s (snd (store_redo s)).
Proof.
  split; [apply dispatch_quiet|].
  split; [apply store_undo_quiet | apply store_redo_quiet].
Qed.

(** X11.  [processAction] changes nothing but the condition objects,
    whose number stays, the registry of Epics, [actionCache], from which
    no type is dropped, [conditionCache], which grows at its end, and the
    record of the calls, which grows by calls of updaters.  The options,
    the registries of updaters, the listeners and their indices, the
    stacks, [sourceAction], [epicCache], [inCycle], [afterCycle]
    and [undoEntry] are what they were. *)
Theorem pump_changes_only depth (action : Action) external (s : Store) :
  pump_frame s (snd (processAction depth action external s)).
Proof. apply processAction_pump. Qed.

(** X15.  Without strictness, after a first [dispatch] that stayed within
    the model every [dispatch] throws [noDispatchInEpicListener] and
    leaves the store as it is: [afterCycle] is never cleared. *)
Theorem second_dispatch_refused depth depth' (a a' : ActionIn) (s : Store) :
  inCycle s = false -> afterCycle s = false ->
  fst (dispatch false depth a s) <> Stuck ->
  let s' := snd (dispatch false depth a s) in
  dispatch false depth' a' s'
    = (Throw (Invariant noDispatchInEpicListener), s').
Proof.
  intros H1 H2 Hn s'.
  assert (E : inCycle s' = false /\ afterCycle s' = true).
  { unfold s'. rewrite (dispatch_fresh _ _ _ _ H1 H2) in *.
    destruct (fresh_cycle_sloppy depth (validateAction a) s)
      as (s1 & _ & [E|E]); rewrite E in *; [|split; reflexivity].
    exfalso. apply Hn. reflexivity. }
  destruct E as [E1 E2]. unfold dispatch, bind, gets. rewrite E1, E2.
  reflexivity.
Qed.

(** X16.  As strict code, [dispatch] on a store that is not notifying
    leaves [inCycle] set: the next [dispatch] opens no cycle, and hands its
    action to the pump of a cycle that never ended. *)
Theorem strict_cycle_stays_open depth depth' (a a' : ActionIn) (s : Store) :
  afterCycle s = false ->
  let s' := snd (dispatch true depth a s) in
  inCycle s' = true /\ afterCycle s' = false /\
  dispatch true depth' a' s' = processAction depth' (validateAction a') true s'.
Proof.
  intros H s'.
  assert (E : inCycle s' = true /\ afterCycle s' = false).
  { unfold s'. destruct (inCycle s) eqn:Hc.
    - assert (E : dispatch true depth a s
                  = processAction depth (validateAction a) true s).
      { unfold dispatch. unfold bind at 1. unfold gets at 1. rewrite Hc.
        reflexivity. }
      rewrite E.
      destruct (processAction_pump depth (validateAction a) true s) as (B & _).
      unfold beside_pump in B. injection B. intros. split; congruence.
    - rewrite (dispatch_fresh true depth a s Hc H), fresh_cycle_strict.
      split; [reflexivity | exact H]. }
  destruct E as [E1 E2]. repeat split; try assumption.
  unfold dispatch. unfold bind at 1. unfold gets at 1. rewrite E1. reflexivity.
Qed.

(** X17.  [processEpicListeners] leaves the store as it is, and so calls
    no listener, when each Epic of the cache has no changed instance under
    an id and, under [defaultEpicInstanceKey], a falsy state or none. *)
Theorem falsy_state_tells_nobody (cache : EpicCache) source (s : Store) :
  (forall n k, obj_get cache n = Some k ->
     named k = [] /\ forall v, dflt k = Some v -> truthy v = false) ->
  snd (processEpicListeners cache source s) = s.
Proof.
  intros H. apply processEpicListeners_no_instance.
  intros n k Hk. destruct (H n k Hk) as [H1 H2]. unfold getInstances.
  rewrite H1. simpl. destruct (dflt k) as [v|]; [|reflexivity].
  rewrite (H2 v eq_refl). reflexivity.
Qed.

(** ** Listeners *)

#[local] Instance once_each_pre : PreOrder once_each.
Proof.
  split.
  - intros s a. split; [lia|]. split; [tauto | lia].
  - intros s1 s2 s3 H1 H2 a.
    destruct (H1 a) as (L1 & P1 & C1). destruct (H2 a) as (L2 & P2 & C2).
    split; [|split].
    + destruct (Nat.eq_dec (calls_to a s1) (calls_to a s2)) as [E|N]; [lia|].
      assert (Hp : processed_at s2 a) by (apply C1; lia).
      destruct (P2 Hp) as [_ E]. lia.
    + intros Hp. destruct (P1 Hp) as [Hp2 E2]. destruct (P2 Hp2) as [Hp3 E3].
      split; [exact Hp3 | lia].
    + intros Hlt.
      destruct (Nat.eq_dec (calls_to a s1) (calls_to a s2)) as [E|N].
      * apply C2. lia.
      * assert (Hp : processed_at s2 a) by (apply C1; lia).
        apply (P2 Hp).
Qed.

#[local] Instance same_told_pre : PreOrder same_told.
Proof.
  split; [intros s; split; reflexivity|].
  intros a b c [H1 H2] [H3 H4]. split; congruence.
Qed.

#[local] Instance same_calls_pre : PreOrder same_calls.
Proof.
  split; [intros s; reflexivity|].
  intros a b c H1 H2. unfold same_calls in *. congruence.
Qed.

Lemma same_told_once s s' : same_told s s' -> once_each s s'.
Proof.
  intros [Hl Hc] a. unfold calls_to, processed_at. rewrite Hl, Hc.
  split; [lia|]. split; [tauto | lia].
Qed.

Lemma listen_condition_told cache epic f r :
  preserves same_told (listen_condition cache epic f r).
Proof.
  unfold listen_condition, write_condition, compile_pattern.
  repeat frame_step; split; reflexivity.
Qed.

Lemma gather_listeners_told n id m :
  preserves same_told (gather_listeners n id m).
Proof.
  unfold gather_listeners. repeat frame_step; split; reflexivity.
Qed.

Lemma calls_to_snoc a s c :
  calls_to a (set_calls (calls s ++ [c]) s)
  = calls_to a s + (if is_call_to a c then 1 else 0).
Proof.
  unfold calls_to. cbn [calls set_calls]. rewrite List.filter_app, length_app.
  simpl. destruct (is_call_to a c); reflexivity.
Qed.

Lemma bind_compose {A B} (R1 R2 R : Store -> Store -> Prop)
    (m : M A) (k : A -> M B) :
  (forall s, R1 s (snd (m s))) ->
  (forall a s, R2 s (snd (k a s))) ->
  (forall s1 s2, R1 s1 s2 -> R s1 s2) ->
  (forall s1 s2 s3, R1 s1 s2 -> R2 s2 s3 -> R s1 s3) ->
  forall s, R s (snd (bind m k s)).
Proof.
  intros H1 H2 Hw Hc s. unfold bind. specialize (H1 s).
  destruct (m s) as [[a|e|] s1]; cbn [snd] in *;
    [eapply Hc; [exact H1 | apply H2] | apply Hw, H1 | apply Hw, H1].
Qed.

Lemma told_to_refl address s : told_to address s s.
Proof. split; [reflexivity|]. intros a. lia. Qed.

Lemma told_to_call address s params :
  told_to address s (set_calls (calls s ++ [ListenerCall address params]) s).
Proof.
  split; [reflexivity|]. intros a. rewrite calls_to_snoc. cbn [is_call_to].
  rewrite (Nat.eqb_sym address a). destruct (Nat.eqb a address); lia.
Qed.

Lemma same_told_then address s1 s2 s3 :
  same_told s1 s2 -> told_to address s2 s3 -> told_to address s1 s3.
Proof.
  intros [Hl Hc] [Hl' Hb]. split; [congruence|].
  intros a. unfold calls_to in *. rewrite <- Hc. apply Hb.
Qed.

(** The mark is set, then the handler is called once at most. *)
Lemma mark_then address l s s3 :
  listeners s !! address = Some l -> l_processed l = false ->
  told_to address
    (set_listeners (alter (set_processed true) address (listeners s)) s) s3 ->
  once_each s s3.
Proof.
  intros El Ep [Hl Hb] a. cbn [listeners set_listeners] in Hl.
  specialize (Hb a).
  change (calls_to a (set_listeners
            (alter (set_processed true) address (listeners s)) s))
    with (calls_to a s) in Hb.
  destruct (Nat.eqb a address) eqn:Ea.
  - apply Nat.eqb_eq in Ea. subst a. split; [lia|]. split.
    + intros (l' & E' & P'). rewrite El in E'. injection E' as <-. congruence.
    + intros _. exists (set_processed true l). rewrite Hl.
      rewrite list_lookup_alter, El.
      destruct (decide (address = address)) as [_|N]; [|congruence].
      split; reflexivity.
  - apply Nat.eqb_neq in Ea. split; [lia|]. split; [|lia].
    intros (l' & E' & P'). split; [|lia]. exists l'. rewrite Hl.
    rewrite list_lookup_alter, E'.
    destruct (decide (address = a)) as [->|N]; [congruence|].
    split; [reflexivity | exact P'].
Qed.

Lemma notify_once cache source epic acc address :
  preserves once_each (notify cache source epic acc address).
Proof.
  intros s. unfold notify, read_listener. unfold bind at 1. unfold bind at 1.
  unfold gets at 1.
  destruct (listeners s !! address) as [l|] eqn:El; [|reflexivity].
  unfold ret at 1. destruct (l_processed l) eqn:Ep; [reflexivity|].
  unfold bind at 1. unfold write_listener, modify at 1.
  apply (mark_then address l s _ El Ep).
  apply (bind_compose same_told (told_to address) (told_to address)).
  - apply (preserves_foldM same_told). apply listen_condition_told.
  - intros flags s2.
    destruct (if hasRequired flags then _ else _);
      [|apply told_to_refl].
    unfold bind, gets, modify.
    destruct (l_handler l _ source); apply told_to_call.
  - intros s1 s2 H. apply (same_told_then address s1 s2 s2 H).
    apply told_to_refl.
  - apply same_told_then.
Qed.

Lemma test_pattern_told p t : preserves same_told (test_pattern p t).
Proof. unfold test_pattern, compile_pattern. repeat frame_step. Qed.

Lemma reset_ref_calls b r : preserves same_calls (reset_ref b r).
Proof.
  unfold reset_ref, write_condition. repeat frame_step; reflexivity.
Qed.

(** X18.  In one run of [processEpicListeners] the handler of a listener
    is called once at most, whatever the cache and the store. *)
Theorem listener_told_once (cache : EpicCache) source (s : Store) address :
  calls_to address s
    <= calls_to address (snd (processEpicListeners cache source s))
    <= calls_to address s + 1.
Proof.
  revert address.
  assert (H : exists s1,
            once_each s s1 /\
            same_calls s1 (snd (processEpicListeners cache source s))).
  { unfold processEpicListeners.
    apply (bind_compose once_each same_calls
             (fun s s' => exists s1, once_each s s1 /\ same_calls s1 s')).
    - apply (preserves_foldM once_each). intros acc epicName.
      repeat first
        [ apply notify_once
        | apply (preserves_weaken same_told _ _ same_told_once);
          first [ apply gather_listeners_told | apply test_pattern_told ]
        | frame_step ].
    - intros acc.
      match goal with
      | |- forall s0, same_calls s0 (snd (?m s0)) =>
          change (preserves same_calls m)
      end.
      unfold read_listener, write_listener.
      repeat first [ apply reset_ref_calls | frame_step ]; reflexivity.
    - intros s1 s2 H. exists s2. split; [exact H | reflexivity].
    - intros s1 s2 s3 H1 H2. exists s2. split; assumption. }
  destruct H as (s1 & Ho & Hc). intros a. destruct (Ho a) as (Hb & _).
  unfold calls_to in *. unfold same_calls in Hc. rewrite Hc. exact Hb.
Qed.

Lemma addListener_eq conds handler :
  addListener conds handler =
  (compiled <- mapM conds processCondition ;;
   address <- gets (fun s => length (listeners s)) ;;
   modify (fun s =>
     set_listeners
       (listeners s ++
          [{| l_conditions := compiled; l_handler := handler;
              l_processed := false |}]) s) ;;
   cache <- mapM compiled (index_listener address) ;;
   ret {| sub_listener := address; sub_cache := cache |}).
Proof. reflexivity. Qed.

Lemma unsubscribe_eq sub :
  unsubscribe sub =
  forEach (sub_cache sub) (fun '(wild, type, target) =>
    if wild
    then modify (fun s =>
           set_patternListeners
             (drop_listener (sub_listener sub) type target (patternListeners s)) s)
    else modify (fun s =>
           set_epicListeners
             (drop_listener (sub_listener sub) type target (epicListeners s)) s)).
Proof. reflexivity. Qed.

Lemma mapM_compiles conds :
  compiles (flat_map addresses) (mapM conds processCondition).
Proof.
  apply (compiles_each processCondition
           (fun l => mapM l processCondition)); [reflexivity..|].
  apply List.Forall_forall. intros c _. apply processCondition_compiles.
Qed.

(** ** Lookups in the indices *)

Lemma keyed_get_set {V} (k : Keyed V) tg tg' v :
  keyed_get (keyed_set tg v k) tg'
  = if decide (tg' = tg) then Some v else keyed_get k tg'.
Proof.
  destruct (decide (tg' = tg)) as [->|N].
  - destruct tg; simpl; [reflexivity | apply obj_get_set_same].
  - destruct tg as [|i], tg' as [|i']; simpl; try reflexivity; try congruence.
    apply obj_get_set_other. congruence.
Qed.

Lemma listeners_at_push idx t tg a t' tg' :
  listeners_at (with_listener t tg a idx) t' tg'
  = listeners_at idx t' tg' ++
    (if String.eqb t' t then if decide (tg' = tg) then [a] else [] else []).
Proof.
  unfold listeners_at, with_listener. rewrite obj_get_set.
  destruct (String.eqb t' t) eqn:E.
  - apply String.eqb_eq in E. subst t'. rewrite keyed_get_set.
    destruct (decide (tg' = tg)) as [->|N].
    + destruct (obj_get idx t) as [k|]; simpl; [|destruct tg; reflexivity].
      destruct (keyed_get k tg); reflexivity.
    + destruct (obj_get idx t) as [k|]; simpl.
      * rewrite app_nil_r. reflexivity.
      * destruct tg'; reflexivity.
  - rewrite app_nil_r. reflexivity.
Qed.

Lemma listeners_at_drop idx t tg a t' tg' :
  listeners_at (drop_listener a t tg idx) t' tg'
  = if String.eqb t' t
    then if decide (tg' = tg)
         then filter (fun x => x ≠ a) (listeners_at idx t' tg')
         else listeners_at idx t' tg'
    else listeners_at idx t' tg'.
Proof.
  unfold drop_listener.
  destruct (obj_get idx t) as [k|] eqn:Ek.
  - destruct (keyed_get k tg) as [l|] eqn:El.
    + unfold listeners_at. rewrite obj_get_set.
      destruct (String.eqb t' t) eqn:E; [|reflexivity].
      apply String.eqb_eq in E. subst t'. rewrite Ek, keyed_get_set.
      destruct (decide (tg' = tg)) as [->|N]; [|reflexivity].
      rewrite El. reflexivity.
    + destruct (String.eqb t' t) eqn:E; [|reflexivity].
      apply String.eqb_eq in E. subst t'.
      destruct (decide (tg' = tg)) as [->|N]; [|reflexivity].
      unfold listeners_at. rewrite Ek, El. reflexivity.
  - destruct (String.eqb t' t) eqn:E; [|reflexivity].
    apply String.eqb_eq in E. subst t'.
    destruct (decide (tg' = tg)) as [->|N]; [|reflexivity].
    unfold listeners_at. rewrite Ek. reflexivity.
Qed.

Lemma filter_repeat (a : nat) n : filter (fun x => x ≠ a) (repeat a n) = [].
Proof.
  induction n as [|n IH]; [reflexivity|]. simpl.
  rewrite filter_cons_False by auto. exact IH.
Qed.

Lemma filter_fresh (a : nat) (l : list nat) : ~ In a l -> filter (fun x => x ≠ a) l = l.
Proof.
  induction l as [|x l IH]; [reflexivity|]. intros H.
  rewrite filter_cons_True; [|intros ->; apply H; left; reflexivity].
  rewrite IH; [reflexivity|]. intros Hl. apply H. right. exact Hl.
Qed.

Lemma filter_idem (a : nat) (l : list nat) :
  filter (fun x => x ≠ a) (filter (fun x => x ≠ a) l)
  = filter (fun x => x ≠ a) l.
Proof.
  induction l as [|x l IH]; [reflexivity|].
  destruct (decide (x ≠ a)) as [N|N].
  - rewrite !filter_cons_True by exact N. rewrite IH. reflexivity.
  - rewrite !filter_cons_False by exact N. exact IH.
Qed.

(** ** What a subscription writes *)

Lemma repeat_snoc {A} (a : A) n : repeat a n ++ [a] = repeat a (S n).
Proof.
  induction n as [|n IH]; [reflexivity|].
  cbn [repeat app]. f_equal. exact IH.
Qed.

(** A [push] that returned has pushed. *)
Lemma push_listener_ok wild type target address s s' :
  push_listener wild type target address s = (Ok tt, s') ->
  s' = set_listener_index wild
         (with_listener type target address (listener_index wild s)) s.
Proof.
  unfold push_listener. unfold bind at 1. unfold gets at 1.
  destruct (obj_get (listener_index wild s) type) as [byTarget|] eqn:Et.
  - unfold bind, ret.
    destruct (keyed_get byTarget target);
      [|destruct (inherited_target target); [discriminate|]];
      unfold modify; intros E; injection E as <-; reflexivity.
  - destruct (inherited type); [discriminate|].
    unfold bind, modify, ret.
    assert (Hk : keyed_get (@keyed_empty (list nat)) target = None)
      by (destruct target; reflexivity).
    rewrite Hk. destruct (inherited_target target); [discriminate|].
    intros E. injection E as <-. destruct wild; reflexivity.
Qed.

Lemma push_listener_throws wild type target address :
  raises_only (fun e => e = TypeError)
    (push_listener wild type target address).
Proof.
  intros s e. unfold push_listener, bind, gets.
  destruct (obj_get _ type) as [byTarget|].
  - unfold ret. destruct (keyed_get byTarget target); [discriminate|].
    destruct (inherited_target target); [|discriminate].
    intros E. injection E as <-. reflexivity.
  - destruct (inherited type); [discriminate|]. unfold modify, ret.
    destruct target as [|id];
      cbn [keyed_get keyed_empty dflt named obj_get inherited_target];
      [discriminate|].
    destruct (inherited id); [|discriminate].
    intros E. injection E as <-. reflexivity.
Qed.

Lemma index_listener_effect address r s entry s' :
  index_listener address r s = (Ok entry, s') ->
  s' = (let '(wild, type, target) := entry in
        if wild
        then set_patternListeners
               (with_listener type target address (patternListeners s)) s
        else set_epicListeners
               (with_listener type target address (epicListeners s)) s).
Proof.
  unfold index_listener. unfold bind at 1. unfold gets at 1.
  unfold bind at 1. unfold gets at 1. unfold bind at 1.
  match goal with
  | |- context [push_listener ?w ?ty ?ta address s] =>
      pose proof (push_listener_ok w ty ta address s) as H;
      destruct (push_listener w ty ta address s) as [[[]|e|] s1];
      try discriminate
  end.
  unfold ret. intros E. injection E as <- <-.
  rewrite (H s1 eq_refl).
  destruct (patterns (options s) && _); reflexivity.
Qed.

(** One more entry, in the index [w], under [ty] and [ta]. *)
Lemma indexed_step address (w : bool) ty ta (cache : list (bool * string * InstKey))
    (w0 : bool) t tg (l0 l1 l2 : list nat) n :
  l1 = l0 ++ (if Bool.eqb w w0
              then if String.eqb t ty
                   then if decide (tg = ta) then [address] else []
                   else []
              else []) ->
  l2 = l1 ++ repeat address n ->
  (~ In (w0, t, tg) cache -> n = 0) ->
  (In (w0, t, tg) cache -> 0 < n) ->
  exists m,
    l2 = l0 ++ repeat address m /\
    (~ In (w0, t, tg) ((w, ty, ta) :: cache) -> m = 0) /\
    (In (w0, t, tg) ((w, ty, ta) :: cache) -> 0 < m).
Proof.
  intros E1 E2 N P. subst l1 l2.
  destruct (Bool.eqb w w0) eqn:Ew;
    [destruct (String.eqb t ty) eqn:Et;
       [destruct (decide (tg = ta)) as [->|Nt]|]|].
  - apply Bool.eqb_prop in Ew. apply String.eqb_eq in Et. subst.
    exists (S n). rewrite <- app_assoc. split; [reflexivity|].
    split; [|lia]. intros H. exfalso. apply H. left. reflexivity.
  - exists n. rewrite app_nil_r. split; [reflexivity|]. split.
    + intros H. apply N. intros Hc. apply H. right. exact Hc.
    + intros [H|H]; [congruence | apply P, H].
  - exists n. rewrite app_nil_r. split; [reflexivity|].
    apply String.eqb_neq in Et. split.
    + intros H. apply N. intros Hc. apply H. right. exact Hc.
    + intros [H|H]; [congruence | apply P, H].
  - exists n. rewrite app_nil_r. split; [reflexivity|].
    apply Bool.eqb_false_iff in Ew. split.
    + intros H. apply N. intros Hc. apply H. right. exact Hc.
    + intros [H|H]; [congruence | apply P, H].
Qed.

Lemma subscribe_effect address compiled : forall s cache s',
  mapM compiled (index_listener address) s = (Ok cache, s') ->
  indexed_by address cache s s'.
Proof.
  induction compiled as [|r l IH]; intros s cache0 s'.
  - intros E. injection E as <- <-. split; [reflexivity|].
    intros t tg. split; exists 0; rewrite app_nil_r;
      (split; [reflexivity|]; split; [reflexivity | intros []]).
  - cbn [mapM]. unfold bind at 1.
    pose proof (index_listener_effect address r s) as E.
    destruct (index_listener address r s) as [[[[w ty] ta]|e|] s1];
      try discriminate.
    specialize (E _ _ eq_refl). cbv beta iota in E. subst s1.
    unfold bind at 1.
    match goal with
    | |- context [mapM l (index_listener address) ?s1] =>
        specialize (IH s1);
        destruct (mapM l (index_listener address) s1) as [[cache|e|] s2];
        try discriminate
    end.
    destruct (IH _ _ eq_refl) as (B & H).
    unfold ret. intros Eq. injection Eq as <- <-. split.
    + rewrite B. destruct w; reflexivity.
    + intros t tg. destruct (H t tg) as [(n1 & E1 & N1 & P1) (n2 & E2 & N2 & P2)].
      split.
      * eapply (indexed_step address w ty ta cache false);
          [|exact E1|exact N1|exact P1].
        destruct w;
          cbn [epicListeners set_patternListeners set_epicListeners Bool.eqb];
          [rewrite app_nil_r; reflexivity | apply listeners_at_push].
      * eapply (indexed_step address w ty ta cache true);
          [|exact E2|exact N2|exact P2].
        destruct w;
          cbn [patternListeners set_patternListeners set_epicListeners
               Bool.eqb];
          [apply listeners_at_push | rewrite app_nil_r; reflexivity].
Qed.

Lemma unindexed_step address (w : bool) ty ta
    (cache : list (bool * string * InstKey))
    (w0 : bool) t tg (l0 l1 l2 : list nat) :
  l1 = (if Bool.eqb w w0
        then if String.eqb t ty
             then if decide (tg = ta)
                  then filter (fun x => x ≠ address) l0 else l0
             else l0
        else l0) ->
  (l2 = filter (fun x => x ≠ address) l1 \/
   l2 = l1 /\ ~ In (w0, t, tg) cache) ->
  l2 = filter (fun x => x ≠ address) l0 \/
  l2 = l0 /\ ~ In (w0, t, tg) ((w, ty, ta) :: cache).
Proof.
  intros E1 E2. subst l1.
  destruct (Bool.eqb w w0) eqn:Ew;
    [destruct (String.eqb t ty) eqn:Et;
       [destruct (decide (tg = ta)) as [->|Nt]|]|].
  - left. destruct E2 as [->|[-> _]]; [apply filter_idem | reflexivity].
  - destruct E2 as [->|[-> N]]; [left; reflexivity | right].
    split; [reflexivity|]. intros [H|H]; [congruence | exact (N H)].
  - apply String.eqb_neq in Et.
    destruct E2 as [->|[-> N]]; [left; reflexivity | right].
    split; [reflexivity|]. intros [H|H]; [congruence | exact (N H)].
  - apply Bool.eqb_false_iff in Ew.
    destruct E2 as [->|[-> N]]; [left; reflexivity | right].
    split; [reflexivity|]. intros [H|H]; [congruence | exact (N H)].
Qed.

Lemma unsubscribe_effect address cache : forall s,
  exists s',
    unsubscribe {| sub_listener := address; sub_cache := cache |} s
      = (Ok tt, s') /\
    unindexed_by address cache s s'.
Proof.
  rewrite unsubscribe_eq. cbn [sub_cache sub_listener].
  induction cache as [|[[w ty] ta] cache IH]; intros s.
  - exists s. split; [reflexivity|]. split; [reflexivity|].
    intros t tg. split; right; (split; [reflexivity | intros []]).
  - cbn [forEach]. unfold bind at 1.
    set (s1 := if w
               then set_patternListeners
                      (drop_listener address ty ta (patternListeners s)) s
               else set_epicListeners
                      (drop_listener address ty ta (epicListeners s)) s).
    assert (E : (if w
                 then modify (fun s =>
                        set_patternListeners
                          (drop_listener address ty ta (patternListeners s)) s)
                 else modify (fun s =>
                        set_epicListeners
                          (drop_listener address ty ta (epicListeners s)) s)) s
                = (Ok tt, s1)) by (destruct w; reflexivity).
    rewrite E. destruct (IH s1) as (s' & Es & B & H).
    exists s'. split; [exact Es|]. split.
    + rewrite B. unfold s1. destruct w; reflexivity.
    + intros t tg. destruct (H t tg) as [H1 H2]. split.
      * eapply (unindexed_step address w ty ta cache false); [|exact H1].
        unfold s1. destruct w;
          cbn [epicListeners set_patternListeners set_epicListeners Bool.eqb];
          [reflexivity | apply listeners_at_drop].
      * eapply (unindexed_step address w ty ta cache true); [|exact H2].
        unfold s1. destruct w;
          cbn [patternListeners set_patternListeners set_epicListeners
               Bool.eqb];
          [apply listeners_at_drop | reflexivity].
Qed.

Lemma addListener_ok conds handler s sub s' :
  addListener conds handler s = (Ok sub, s') ->
  exists new compiled,
    sub_listener sub = length (listeners s) /\
    indexed_by (sub_listener sub) (sub_cache sub)
      (set_listeners
         (listeners s ++
            [{| l_conditions := compiled; l_handler := handler;
                l_processed := false |}])
         (set_conditions (conditions s ++ new) s)) s'.
Proof.
  rewrite addListener_eq. unfold bind at 1.
  destruct (mapM_compiles conds s) as (new & A & _).
  destruct (mapM conds processCondition s) as [[compiled|e|] s1];
    try discriminate.
  cbn [snd] in A. unfold allocated in A. subst s1.
  unfold bind at 1. unfold gets at 1. unfold bind at 1. unfold modify at 1.
  cbn [listeners set_conditions].
  match goal with
  | |- bind (mapM compiled (index_listener ?a)) _ ?s2 = _ -> _ =>
      pose proof (subscribe_effect a compiled s2) as Hi;
      unfold bind at 1;
      destruct (mapM compiled (index_listener a) s2) as [[cache|e|] s3];
      try discriminate
  end.
  unfold ret. intros E. injection E as <- <-.
  exists new, compiled. split; [reflexivity | exact (Hi _ _ eq_refl)].
Qed.

(** X20.  After an [addListener] that returned, on a store whose indices
    do not hold the address of the new listener, the listener is in the
    array of every type and target that the subscription remembers.  The
    function that [addListener] returned returns, and leaves under every
    type and target of both indices the listeners that were there
    before [addListener], and the new one nowhere. *)
Theorem subscribe_then_unsubscribe conds handler (s s1 : Store) sub :
  addListener conds handler s = (Ok sub, s1) ->
  unlisted (length (listeners s)) s ->
  let s2 := snd (unsubscribe sub s1) in
  sub_listener sub = length (listeners s) /\
  (forall w t tg, In (w, t, tg) (sub_cache sub) ->
     In (sub_listener sub)
        (listeners_at (if w then patternListeners s1 else epicListeners s1)
           t tg)) /\
  fst (unsubscribe sub s1) = Ok tt /\
  (forall t tg,
     listeners_at (epicListeners s2) t tg
       = listeners_at (epicListeners s) t tg /\
     listeners_at (patternListeners s2) t tg
       = listeners_at (patternListeners s) t tg) /\
  unlisted (sub_listener sub) s2.
Proof.
  intros Ha Hf s2.
  destruct (addListener_ok conds handler s sub s1 Ha)
    as (new & compiled & Hl & B1 & H1).
  destruct sub as [address cache]. cbn [sub_listener sub_cache] in *.
  destruct (unsubscribe_effect address cache s1) as (s2' & Eu & B2 & H2).
  unfold s2. rewrite Eu. cbn [fst snd].
  assert (Hrt : forall t tg,
    listeners_at (epicListeners s2') t tg
      = listeners_at (epicListeners s) t tg /\
    listeners_at (patternListeners s2') t tg
      = listeners_at (patternListeners s) t tg).
  { intros t tg.
    destruct (H1 t tg) as [(n1 & E1 & N1 & _) (n2 & E2 & N2 & _)].
    destruct (H2 t tg) as [G1 G2].
    destruct (Hf t tg) as [F1 F2]. rewrite <- Hl in F1, F2.
    cbn [epicListeners patternListeners set_listeners set_conditions] in E1, E2.
    split.
    - destruct G1 as [->|[-> N]].
      + rewrite E1, filter_app, filter_repeat, app_nil_r.
        apply filter_fresh, F1.
      + rewrite E1, (N1 N), app_nil_r. reflexivity.
    - destruct G2 as [->|[-> N]].
      + rewrite E2, filter_app, filter_repeat, app_nil_r.
        apply filter_fresh, F2.
      + rewrite E2, (N2 N), app_nil_r. reflexivity. }
  split; [exact Hl|]. split; [|split; [reflexivity|split; [exact Hrt|]]].
  - intros w t tg Hin.
    destruct (H1 t tg) as [(n1 & E1 & _ & P1) (n2 & E2 & _ & P2)].
    destruct w.
    + rewrite E2. apply in_or_app. right.
      specialize (P2 Hin). destruct n2; [lia|]. left. reflexivity.
    + rewrite E1. apply in_or_app. right.
      specialize (P1 Hin). destruct n1; [lia|]. left. reflexivity.
  - intros t tg. destruct (Hrt t tg) as [-> ->].
    rewrite Hl. apply Hf.
Qed.

(** X19.  An [addListener] that throws does so
    with [invalidConditionType], with [invalidConditionSelector], or with
    the TypeError of a target that the arrays of a type inherit.  One that
    throws one of the first two has done nothing to the store but allocate
    condition objects: no listener was created, and both indices are what
    they were. *)
Theorem addListener_failure conds handler (s s' : Store) (x : Exn) :
  addListener conds handler s = (Throw x, s') ->
  (x = Invariant invalidConditionType \/
   x = Invariant invalidConditionSelector \/
   x = TypeError) /\
  (x <> TypeError -> exists new, s' = set_conditions (conditions s ++ new) s).
Proof.
  rewrite addListener_eq. unfold bind at 1.
  destruct (mapM_compiles conds s) as (new & A & R).
  destruct (mapM conds processCondition s) as [[compiled|e|] s1];
    cbn [fst snd] in *.
  - unfold bind at 1. unfold gets at 1. unfold bind at 1. unfold modify at 1.
    match goal with
    | |- bind (mapM compiled (index_listener ?a)) _ ?s2 = _ -> _ =>
        assert (Ht : raises_only (fun e => e = TypeError)
                       (mapM compiled (index_listener a)));
        [|specialize (Ht s2 x); unfold bind at 1;
          destruct (mapM compiled (index_listener a) s2) as [[cache|e|] s3];
          try discriminate]
    end.
    { apply raises_mapM. intros r s0 e.
      unfold index_listener, bind, gets.
      match goal with
      | |- context [push_listener ?w ?ty ?ta ?a s0] =>
          pose proof (push_listener_throws w ty ta a s0 e) as H;
          destruct (push_listener w ty ta a s0) as [[[]|e'|] s4];
          try discriminate
      end.
      cbn [fst] in *. intros E. injection E as <-. apply H. reflexivity. }
    intros E. injection E as <- <-. cbn [fst] in Ht.
    rewrite (Ht eq_refl). split; [tauto|]. intros N. contradiction.
  - intros E. injection E as <- <-. split; [destruct R; tauto|].
    intros _. exists new. exact A.
  - discriminate.
Qed.

(** ** The commit of the conditions *)

Lemma resetCondition_idempotent b b' c :
  resetCondition b' (resetCondition b c) = resetCondition b c.
Proof.
  unfold resetCondition. destruct c as [t sel v [w|] p r i tg m];
    destruct b; reflexivity.
Qed.

Lemma forEach_write l f : forall s,
  forEach l (fun address => write_condition address f) s
  = (Ok tt,
     set_conditions (fold_left (fun h a => alter f a h) l (conditions s)) s).
Proof.
  induction l as [|a l IH]; intros s; cbn [forEach fold_left].
  - unfold ret. destruct s; reflexivity.
  - unfold bind, write_condition, modify. rewrite IH. reflexivity.
Qed.

Lemma lookup_alters (f : Condition -> Condition) l :
  (forall c, f (f c) = f c) ->
  forall (h : list Condition) (a : nat),
    fold_left (fun (h : list Condition) a => alter f a h) l h !! a
    = if existsb (Nat.eqb a) l then f <$> h !! a else h !! a.
Proof.
  intros Hf. induction l as [|x l IH]; intros h a; cbn [fold_left existsb];
    [reflexivity|].
  rewrite IH, list_lookup_alter.
  destruct (decide (x = a)) as [->|N].
  - rewrite Nat.eqb_refl. cbn [orb].
    destruct (existsb (Nat.eqb a) l); [|reflexivity].
    destruct (h !! a); cbn; [rewrite Hf|]; reflexivity.
  - apply Nat.eqb_neq in N. rewrite Nat.eqb_sym in N. rewrite N. reflexivity.
Qed.

(** X23.  The commit of the conditions returns and changes nothing but
    condition objects.  One that [conditionCache] lists, however often,
    ends with nothing staged and no pattern matched; its value is the
    staged one when there was one and the cycle is committed, and the one
    it had otherwise.  One that [conditionCache] does not list is what it
    was. *)
Theorem commit_conditions_effect (shouldUpdate : bool) (s : Store) :
  let s' := snd (commit_conditions shouldUpdate s) in
  fst (commit_conditions shouldUpdate s) = Ok tt /\
  s' = set_conditions (conditions s') s /\
  forall a c, conditions s !! a = Some c ->
    (In a (conditionCache s) ->
     exists c',
       conditions s' !! a = Some c' /\
       cond__value c' = None /\ cond_matchedPattern c' = false /\
       cond_value c' =
         (if shouldUpdate
          then from_option (fun v => v) (cond_value c) (cond__value c)
          else cond_value c)) /\
    (~ In a (conditionCache s) -> conditions s' !! a = Some c).
Proof.
  unfold commit_conditions. unfold bind, gets. rewrite forEach_write.
  cbn [fst snd conditions set_conditions].
  split; [reflexivity|]. split; [reflexivity|].
  intros a c Hc.
  rewrite (lookup_alters _ _ (resetCondition_idempotent shouldUpdate shouldUpdate)).
  rewrite Hc. split.
  - intros Hin.
    assert (E : existsb (Nat.eqb a) (conditionCache s) = true).
    { apply existsb_exists. exists a. split; [exact Hin | apply Nat.eqb_refl]. }
    rewrite E. eexists. split; [reflexivity|].
    unfold resetCondition. destruct (cond__value c), shouldUpdate;
      repeat split.
  - intros Hn.
    destruct (existsb (Nat.eqb a) (conditionCache s)) eqn:E; [|reflexivity].
    exfalso. apply existsb_exists in E as (x & Hx & Ex).
    apply Nat.eqb_eq in Ex. subst. exact (Hn Hx).
Qed.

(** ** The class [Epic] *)

Lemma obj_set_fresh {V} (o : obj V) k v :
  ~ In k (obj_keys o) -> obj_set k v o = o ++ [(k, v)].
Proof.
  induction o as [|[k' v'] o IH]; intros H; [reflexivity|]. simpl in *.
  destruct (String.eqb k k') eqn:E.
  - apply String.eqb_eq in E. subst. exfalso. apply H. left. reflexivity.
  - rewrite IH; [reflexivity|]. intros Hin. apply H. right. exact Hin.
Qed.

Lemma keyed_values_from keys : forall (ks : list string) (vs : list val) pre acc,
  keys = pre ++ ks -> List.NoDup keys -> obj_keys acc = pre ->
  length vs = length ks ->
  fold_left
    (fun a ic => obj_set (nth (fst ic) keys "undefined") (snd ic) a)
    (combine (seq (length pre) (length vs)) vs) acc
  = acc ++ combine ks vs.
Proof.
  induction ks as [|k ks IH]; intros [|v vs] pre acc Hk Hn Ha Hl;
    try discriminate; cbn [length seq combine fold_left].
  - rewrite app_nil_r. reflexivity.
  - assert (En : nth (length pre) keys "undefined" = k).
    { subst keys. rewrite app_nth2 by lia. rewrite Nat.sub_diag. reflexivity. }
    cbn [fst snd]. rewrite En.
    assert (Hf : ~ In k (obj_keys acc)).
    { rewrite Ha. subst keys. apply NoDup_remove_2 in Hn.
      intros Hin. apply Hn. apply in_or_app. left. exact Hin. }
    rewrite (obj_set_fresh acc k v Hf).
    specialize (IH vs (pre ++ [k]) (acc ++ [(k, v)])).
    rewrite length_app in IH. cbn [length] in IH.
    rewrite Nat.add_1_r in IH. rewrite IH.
    + rewrite <- app_assoc. reflexivity.
    + rewrite <- app_assoc. exact Hk.
    + exact Hn.
    + unfold obj_keys in *. rewrite map_app, Ha. reflexivity.
    + simpl in Hl. lia.
Qed.

Lemma values_of_keys {V} (o : obj V) :
  List.NoDup (obj_keys o) ->
  flat_map (fun key => match obj_get o key with Some c => [c] | None => [] end)
    (obj_keys o)
  = map snd o.
Proof.
  induction o as [|[k v] o IH]; intros H; [reflexivity|].
  inversion H as [|? ? Hk Hn]; subst.
  change (obj_keys ((k, v) :: o)) with (k :: obj_keys o).
  cbn [flat_map obj_get]. rewrite String.eqb_refl. cbn [map snd app].
  f_equal. rewrite <- (IH Hn). apply flat_map_In_ext. intros x Hx.
  destruct (String.eqb x k) eqn:E; [|reflexivity].
  apply String.eqb_eq in E. subst. contradiction.
Qed.

(** X24.  [on] with an object of conditions appends one updater, whose
    conditions are the values of the object in the order of its keys, and
    whose handler passes to the function given to [on] the object that
    has, under each key, the value of the condition under that key. *)
Theorem on_object_format (o : obj InCond) (handler : EpicClass.EpicHandler)
    (e : EpicClass.EpicObject) (values : list val) (ctx : HandlerCtx) :
  List.NoDup (obj_keys o) ->
  length values = length o ->
  exists u,
    EpicClass._updaters (EpicClass.on (EpicClass.ObjectFormat o) handler e)
      = EpicClass._updaters e ++ [u] /\
    EpicClass.up_conditions u = map snd o /\
    EpicClass.up_handler u values ctx
      = EpicClass.h_run handler
          (EpicClass.ObjectValues (combine (obj_keys o) values)) ctx.
Proof.
  intros Hn Hl. eexists. split; [reflexivity|]. split.
  - cbn [EpicClass.up_conditions EpicClass.inputConditions].
    apply values_of_keys, Hn.
  - cbn [EpicClass.up_handler EpicClass.outputValues EpicClass.indexedKeys].
    unfold EpicClass.keyed_values.
    pose proof (keyed_values_from (obj_keys o) (obj_keys o) values [] []
                  eq_refl Hn eq_refl) as E.
    cbn [length app] in E. rewrite E; [reflexivity|].
    unfold obj_keys. rewrite length_map. exact Hl.
Qed.

End Coverage.

(** * Routing by patterns *)

Section Routing.
Context {F : Frozen}.

Notation "x <- m ;; k" := (bind m (fun x => k))
  (at level 100, m at next level, right associativity).
Notation "m ;; k" := (bind m (fun _ => k))
  (at level 100, right associativity).

Ltac frame_step :=
  match goal with
  | |- preserves ?R (ret _) => apply (preserves_ret R)
  | |- preserves ?R (throw _) => apply (preserves_throw R)
  | |- preserves ?R stuck => apply (preserves_stuck R)
  | |- preserves ?R (gets _) => apply (preserves_gets R)
  | |- preserves ?R (free_identifier _) => apply (preserves_free R)
  | |- preserves ?R (invariant _ _) => apply (preserves_invariant R)
  | |- preserves ?R (defined _) => apply (preserves_defined R)
  | |- preserves ?R (bind _ _) => apply (preserves_bind R); [| intros ?]
  | |- preserves ?R (try_catch _) => apply (preserves_try_catch R)
  | |- preserves ?R (forEach _ _) => apply (preserves_forEach R); intros ?
  | |- preserves ?R (mapM _ _) => apply (preserves_mapM R); intros ?
  | |- preserves ?R (foldM _ _ _) => apply (preserves_foldM R); intros ? ?
  | |- preserves ?R (modify _) => apply (preserves_modify R); intros ?
  | |- preserves _ (match ?x with _ => _ end) => destruct x
  end.

(** ** The pump *)

#[local] Instance handles_pre u : PreOrder (handles u).
Proof.
  split.
  - intros s. repeat (split; [reflexivity|]). exists []. split; [symmetry; apply app_nil_r|constructor].
  - intros a b c (O1 & U1 & P1 & C1 & K1 & n1 & E1 & F1) (O2 & U2 & P2 & C2 & K2 & n2 & E2 & F2).
    repeat (split; [congruence|]). exists (n1 ++ n2). split.
    + rewrite E2, E1, app_assoc. reflexivity.
    + apply Forall_app. split; assumption.
Qed.

Lemma handles_epicRegistry u s x : handles u s (set_epicRegistry x s).
Proof.
  repeat (split; [reflexivity|]). exists []. split; [symmetry; apply app_nil_r|constructor].
Qed.

Lemma handles_call u s id p :
  handles u s (set_calls (calls s ++ [UpdaterCall (u_epic u) (u_index u) id p]) s).
Proof.
  repeat (split; [reflexivity|]). eexists. split; [reflexivity|].
  repeat constructor. exists u. repeat split. left. reflexivity.
Qed.

Ltac handles_leaf :=
  repeat match goal with
  | |- handles _ _ (match ?x with _ => _ end) => destruct x
  end;
  first [ reflexivity | apply handles_epicRegistry | apply handles_call ].

Lemma update_instance_handles recur action u fp id :
  preserves (handles u) (update_instance recur action u fp id).
Proof.
  unfold update_instance, log_call, write_instance, read_instance.
  frame_step; [repeat frame_step; handles_leaf|].
  frame_step; [repeat frame_step|].
  do 2 (frame_step; [frame_step|]).
  frame_step; [frame_step; apply handles_call|].
  destruct (u_handler u _ _); [|frame_step].
  apply preserves_bind_never; [frame_step | apply never_returns_throw].
Qed.

Lemma processUpdater_handles recur action a u fp :
  preserves (handles u) (processUpdater recur action a u fp).
Proof.
  unfold processUpdater, read_condition, select_instances.
  repeat first [ apply update_instance_handles | frame_step ];
    handles_leaf.
Qed.


Lemma types_kept_refl h : types_kept h h.
Proof. intros a. reflexivity. Qed.

Lemma types_kept_trans h1 h2 h3 :
  types_kept h1 h2 -> types_kept h2 h3 -> types_kept h1 h3.
Proof. intros H1 H2 a. rewrite H2. apply H1. Qed.

Lemma types_kept_alter h a f :
  (forall c, cond_type (f c) = cond_type c) -> types_kept h (alter f a h).
Proof.
  intros Hf b. rewrite list_lookup_alter.
  destruct (decide (a = b)) as [->|]; [|reflexivity].
  destruct (h !! b) as [c|]; simpl; [|reflexivity].
  rewrite Hf. reflexivity.
Qed.

Lemma kept_refl s : kept s s.
Proof. repeat (split; [reflexivity|]). apply types_kept_refl. Qed.

Lemma ref_has_type_kept h h' key r :
  types_kept h h' -> ref_has_type h' key r = ref_has_type h key r.
Proof.
  intros H. unfold ref_has_type, view. destruct r as [a|items]; [|reflexivity].
  specialize (H a). destruct (h' !! a), (h !! a); simpl in *; congruence.
Qed.

Lemma find_kept h h' key l :
  types_kept h h' ->
  find (ref_has_type h' key) l = find (ref_has_type h key) l.
Proof.
  intros H. induction l as [|r l IH]; simpl; [reflexivity|].
  rewrite (ref_has_type_kept h h' key r H), IH. reflexivity.
Qed.

Lemma call_of_mono us us' c :
  (forall u, In u us -> In u us') -> call_of us c -> call_of us' c.
Proof.
  intros H. destruct c as [n i id p|a p]; simpl; [|tauto].
  intros (u & Hu & E). exists u. split; [apply H, Hu | exact E].
Qed.

Lemma took_stop s0 l s r : kept s0 s -> r <> Ok tt -> took s0 l s (r, s).
Proof.
  intros Hk N. split; [exact Hk|].
  exists [], (map (active_condition (conditions s0)) l).
  split; [symmetry; apply app_nil_r|]. split; [reflexivity|].
  split; [intros E; contradiction|].
  exists []. split; [symmetry; apply app_nil_r | constructor].
Qed.

Lemma took_nil s0 s r : kept s0 s -> took s0 [] s (r, s).
Proof.
  intros Hk. split; [exact Hk|]. exists [], [].
  split; [symmetry; apply app_nil_r|]. split; [reflexivity|].
  split; [reflexivity|].
  exists []. split; [symmetry; apply app_nil_r | constructor].
Qed.

Lemma took_app s0 l1 l2 s s1 p :
  took s0 l1 s (Ok tt, s1) -> took s0 l2 s1 p ->
  took s0 (l1 ++ l2) s p.
Proof.
  intros (_ & d1 & r1 & C1 & M1 & E1 & n1 & K1 & F1)
         (Hk & d2 & r2 & C2 & M2 & E2 & n2 & K2 & F2).
  cbn [fst snd] in *.
  rewrite (E1 eq_refl), app_nil_r in M1.
  split; [exact Hk|]. exists (d1 ++ d2), r2.
  split; [rewrite C2, C1, app_assoc; reflexivity|].
  split; [rewrite map_app, M1, M2, map_app, app_assoc; reflexivity|].
  split; [exact E2|].
  exists (n1 ++ n2). split; [rewrite K2, K1, app_assoc; reflexivity|].
  rewrite map_app. apply Forall_app. split.
  - eapply List.Forall_impl; [|exact F1]. intros c.
    apply call_of_mono. intros u Hu. apply in_or_app. left. exact Hu.
  - eapply List.Forall_impl; [|exact F2]. intros c.
    apply call_of_mono. intros u Hu. apply in_or_app. right. exact Hu.
Qed.

Lemma took_app_stop s0 l1 l2 s p :
  took s0 l1 s p -> fst p <> Ok tt -> took s0 (l1 ++ l2) s p.
Proof.
  intros (Hk & d1 & r1 & C1 & M1 & E1 & n1 & K1 & F1) N.
  split; [exact Hk|].
  exists d1, (r1 ++ map (active_condition (conditions s0)) l2).
  split; [exact C1|].
  split; [rewrite map_app, M1, app_assoc; reflexivity|].
  split; [intros E; contradiction|].
  exists n1. split; [exact K1|]. rewrite map_app.
  eapply List.Forall_impl; [|exact F1]. intros c.
  apply call_of_mono. intros u Hu. apply in_or_app. left. exact Hu.
Qed.

Lemma took_bind s0 l1 l2 (m : M unit) (k : unit -> M unit) s :
  took s0 l1 s (m s) ->
  (forall s1, kept s0 s1 -> took s0 l2 s1 (k tt s1)) ->
  took s0 (l1 ++ l2) s (bind m k s).
Proof.
  intros H1 H2. unfold bind. destruct (m s) as [[[]|e|] s1].
  - eapply took_app; [exact H1|]. apply H2. apply H1.
  - apply took_app_stop; [exact H1 | discriminate].
  - apply took_app_stop; [exact H1 | discriminate].
Qed.

Lemma forEach_took {A} s0 (g : A -> list (string * Updater))
    (f : A -> M unit) l :
  (forall x s, kept s0 s -> took s0 (g x) s (f x s)) ->
  forall s, kept s0 s -> took s0 (flat_map g l) s (forEach l f s).
Proof.
  intros H. induction l as [|x l IH]; intros s Hk; cbn [flat_map forEach].
  - apply took_nil, Hk.
  - apply took_bind; [apply H, Hk | exact IH].
Qed.

Lemma flat_map_singleton {A B} (h : A -> B) l :
  flat_map (fun x => [h x]) l = map h l.
Proof. induction l as [|x l IH]; simpl; congruence. Qed.

(** The updater [u], filed under [key], was taken by the condition
    at [a]. *)
Lemma took_one s0 key u a s s2 p :
  kept s0 s ->
  active_condition (conditions s0) (key, u) = Some a ->
  options s2 = options s -> updaterRegistry s2 = updaterRegistry s ->
  patternRegistry s2 = patternRegistry s ->
  types_kept (conditions s) (conditions s2) ->
  conditionCache s2 = conditionCache s ++ [a] -> calls s2 = calls s ->
  handles u s2 (snd p) ->
  took s0 [(key, u)] s p.
Proof.
  intros (O0 & U0 & P0 & T0) Ha O2 U2 P2 T2 C2 K2
         (O3 & U3 & P3 & H3 & C3 & new & K3 & F3).
  split.
  - repeat split; try congruence;
      try (rewrite H3; eapply types_kept_trans; eassumption).
  - exists [a], []. split; [congruence|].
    split; [cbn [map]; rewrite Ha; reflexivity|]. split; [reflexivity|].
    exists new. split; [congruence | exact F3].
Qed.

Lemma find_active heap key u a :
  find (ref_has_type heap key) (u_conditions u) = Some (Ref a) ->
  exists c, heap !! a = Some c.
Proof.
  intros H. apply find_some in H as [_ H].
  unfold ref_has_type, view in H.
  destruct (heap !! a) as [c|]; [eauto | discriminate].
Qed.

Lemma direct_updater_took s0 recur action ext u s :
  kept s0 s ->
  took s0 [(a_type action, u)] s (direct_updater recur action ext u s).
Proof.
  intros Hk. unfold direct_updater. unfold bind at 1. unfold gets at 1.
  assert (Hf : find (ref_has_type (conditions s) (a_type action))
                 (u_conditions u)
               = find (ref_has_type (conditions s0) (a_type action))
                   (u_conditions u)).
  { apply find_kept. apply Hk. }
  destruct (find (ref_has_type (conditions s) (a_type action))
              (u_conditions u)) as [[a|items]|] eqn:E;
    [|apply took_stop; [exact Hk | discriminate]..].
  destruct (find_active _ _ _ _ E) as [c Hc].
  unfold read_condition at 1. unfold bind at 1. unfold bind at 1.
  unfold gets at 1. rewrite Hc. unfold ret at 1.
  unfold bind at 1. unfold write_condition, modify at 1.
  unfold bind at 1. unfold push_condition, modify at 1.
  cbn [conditionCache set_conditions].
  set (s2 := set_conditionCache (conditionCache s ++ [a])
               (set_conditions
                  (alter (set_cond__value (Some (getSelectorValue c action)))
                     a (conditions s)) s)).
  apply (took_one s0 (a_type action) u a s s2); try reflexivity.
  - exact Hk.
  - unfold active_condition. cbn [fst snd]. rewrite <- Hf. reflexivity.
  - apply types_kept_alter. intros []; reflexivity.
  - apply (preserves_bind (handles u)).
    + unfold read_condition. repeat frame_step.
    + intros c'. destruct (negb ext && negb (didConditionChange c'));
        [frame_step | apply processUpdater_handles].
Qed.

Lemma pattern_updater_took s0 recur action key u s :
  kept s0 s ->
  took s0 [(key, u)] s (pattern_updater recur action key u s).
Proof.
  intros Hk. unfold pattern_updater. unfold bind at 1. unfold gets at 1.
  assert (Hf : find (ref_has_type (conditions s) key) (u_conditions u)
               = find (ref_has_type (conditions s0) key) (u_conditions u)).
  { apply find_kept. apply Hk. }
  destruct (find (ref_has_type (conditions s) key) (u_conditions u))
    as [[a|items]|] eqn:E;
    [|apply took_stop; [exact Hk | discriminate]..].
  unfold bind at 1. unfold write_condition, modify at 1.
  unfold bind at 1. unfold push_condition, modify at 1.
  cbn [conditionCache set_conditions].
  set (s2 := set_conditionCache (conditionCache s ++ [a])
               (set_conditions
                  (alter (set_cond_matchedPattern true) a (conditions s)) s)).
  apply (took_one s0 key u a s s2); try reflexivity.
  - exact Hk.
  - unfold active_condition. cbn [fst snd]. rewrite <- Hf. reflexivity.
  - apply types_kept_alter. intros []; reflexivity.
  - apply processUpdater_handles.
Qed.

Lemma took_from s0 l s s1 p :
  took s0 l s1 p ->
  conditionCache s1 = conditionCache s -> calls s1 = calls s ->
  took s0 l s p.
Proof.
  intros (Hk & d & rest & C & M & E & n & K & Fn) Hc Hn.
  split; [exact Hk|]. exists d, rest. rewrite <- Hc.
  split; [exact C|]. split; [exact M|]. split; [exact E|].
  exists n. rewrite <- Hn. split; assumption.
Qed.

Lemma test_pattern_answer key type s :
  test_pattern key type s =
  match Pattern.pattern_test key type with
  | Pattern.Answers b => (Ok b, s)
  | Pattern.Throws => (Throw SyntaxError, s)
  | Pattern.Unmodelled => (Stuck, s)
  end.
Proof.
  unfold Pattern.pattern_test, test_pattern, compile_pattern, bind.
  destruct (Pattern.getRegexFromPattern key); reflexivity.
Qed.

Lemma pattern_key_took s0 recur action s key :
  kept s0 s ->
  took s0
    (if regex_matches key (a_type action)
     then map (pair key)
            (from_option (fun l => l) [] (obj_get (patternRegistry s0) key))
     else [])
    s
    ((hit <- test_pattern key (a_type action) ;;
      if hit then
        matching <- gets (fun s =>
          from_option (fun l => l) [] (obj_get (patternRegistry s) key)) ;;
        forEach matching (pattern_updater recur action key)
      else ret tt) s).
Proof.
  intros Hk. unfold bind at 1. rewrite test_pattern_answer.
  unfold regex_matches.
  destruct (Pattern.pattern_test key (a_type action)) as [[]| |].
  - unfold bind, gets.
    destruct Hk as (O & U & P & T). rewrite P.
    rewrite <- flat_map_singleton.
    apply forEach_took; [|repeat split; assumption].
    intros u s1 Hk1. apply pattern_updater_took, Hk1.
  - apply took_nil, Hk.
  - apply took_stop; [exact Hk | discriminate].
  - apply took_stop; [exact Hk | discriminate].
Qed.

Lemma processAction_took depth action ext s :
  took s (routes s (a_type action)) s (processAction depth action ext s).
Proof.
  destruct depth as [|depth]; cbn [processAction].
  { apply took_stop; [apply kept_refl | discriminate]. }
  unfold bind at 1. unfold gets at 1. unfold bind at 1.
  destruct (negb ext || negb (obj_has (epicRegistry s) (a_type action)));
    cbn [invariant];
    [|apply took_stop; [apply kept_refl | discriminate]].
  unfold ret at 1. unfold bind at 1. unfold gets at 1. unfold bind at 1.
  destruct (negb ext || negb (obj_has (actionCache s) (a_type action)));
    cbn [invariant];
    [|apply took_stop; [apply kept_refl | discriminate]].
  unfold ret at 1. unfold bind at 1. unfold modify at 1.
  unfold bind at 1. unfold gets at 1.
  cbn [updaterRegistry set_actionCache].
  match goal with
  | |- took _ _ _ (bind _ _ ?s1) => apply (took_from s _ s s1); [|reflexivity..]
  end.
  unfold routes. apply took_bind.
  - rewrite <- flat_map_singleton.
    apply forEach_took; [|exact (kept_refl s)].
    intros u s2 Hk. apply direct_updater_took, Hk.
  - intros s2 Hk. unfold bind at 1. unfold gets at 1.
    destruct Hk as (O & U & P & T). rewrite O.
    destruct (patterns (options s)); [|apply took_nil; repeat split; assumption].
    unfold bind at 1. unfold gets at 1. rewrite P.
    apply forEach_took; [|repeat split; assumption].
    intros key s3 Hk3. apply pattern_key_took, Hk3.
Qed.


(** ** The listeners *)

(** A loop that returned has kept what each of its steps keeps and
    establishes. *)
Lemma foldM_ok {A B} (P : A -> Prop) (I : B -> Store -> Prop)
    (Q : A -> B -> Store -> Prop) (f : B -> A -> M B) :
  (forall b x s b' s', P x -> I b s -> f b x s = (Ok b', s') ->
     I b' s' /\ Q x b' s') ->
  (forall x b s b' y s', P y -> Q x b s -> I b s -> f b y s = (Ok b', s') ->
     Q x b' s') ->
  forall l, Forall P l ->
  forall b0 s b s', I b0 s -> foldM l b0 f s = (Ok b, s') ->
    I b s' /\ forall x, In x l -> Q x b s'.
Proof.
  intros Hstep Hstable.
  assert (Hkeep : forall l, Forall P l -> forall x b1 s1 b s',
            I b1 s1 -> Q x b1 s1 -> foldM l b1 f s1 = (Ok b, s') ->
            Q x b s').
  { induction l as [|z l IHl]; intros Hp x b1 s1 b s' Hi1 Hq1 E.
    - cbn in E. injection E as <- <-. exact Hq1.
    - inversion Hp as [|? ? Hz Hl]; subst.
      cbn [foldM] in E. unfold bind in E.
      destruct (f b1 z s1) as [[b2|e|] s2] eqn:Ef; try discriminate.
      destruct (Hstep _ _ _ _ _ Hz Hi1 Ef) as [Hi2 _].
      apply (IHl Hl x b2 s2 b s' Hi2); [|exact E].
      eapply Hstable; eassumption. }
  induction l as [|y l IH]; intros Hp b0 s b s' Hi E.
  - cbn in E. injection E as <- <-. split; [exact Hi | intros x []].
  - inversion Hp as [|? ? Hy Hl]; subst.
    cbn [foldM] in E. unfold bind in E.
    destruct (f b0 y s) as [[b1|e|] s1] eqn:Ef; try discriminate.
    destruct (Hstep _ _ _ _ _ Hy Hi Ef) as [Hi1 Hq1].
    destruct (IH Hl _ _ _ _ Hi1 E) as [Hi' Hq'].
    split; [exact Hi'|]. intros x [<-|Hx]; [|apply Hq', Hx].
    apply (Hkeep l Hl y b1 s1 b s' Hi1 Hq1 E).
Qed.

(** The patterns that match, in the order of the keys. *)
Lemma matched_patterns epicName keys : forall init s matched s',
  foldM keys init (fun matched key =>
    hit <- test_pattern key epicName ;;
    ret (if hit then matched ++ [key] else matched)) s = (Ok matched, s') ->
  s' = s /\
  matched = init ++ List.filter (fun key => regex_matches key epicName) keys.
Proof.
  induction keys as [|key keys IH]; intros init s matched s' E.
  - cbn in E. injection E as <- <-. rewrite app_nil_r. split; reflexivity.
  - cbn [foldM] in E. unfold bind at 1 2 in E.
    rewrite test_pattern_answer in E. cbn [List.filter].
    unfold regex_matches at 1.
    destruct (Pattern.pattern_test key epicName) as [b| |]; try discriminate.
    unfold ret at 1 in E. apply IH in E as [-> ->]. split; [reflexivity|].
    destruct b; [rewrite <- app_assoc|]; reflexivity.
Qed.

Lemma obj_get_In {V} (o : obj V) k v : obj_get o k = Some v -> In (k, v) o.
Proof.
  induction o as [|[k' v'] o IH]; simpl; [discriminate|].
  destruct (String.eqb k k') eqn:E.
  - apply String.eqb_eq in E. subst. intros H. injection H as ->. left. reflexivity.
  - intros H. right. apply IH, H.
Qed.

Lemma keyed_get_listed (byTarget : Keyed (list nat)) id l a :
  keyed_get byTarget id = Some l -> In a l -> In a (listed byTarget).
Proof.
  unfold listed. destruct id as [|i]; simpl; intros H Ha; apply in_or_app.
  - right. rewrite H. exact Ha.
  - left. apply in_flat_map. exists (i, l). split; [apply obj_get_In, H | exact Ha].
Qed.

Lemma choose_array_listed (byTarget : Keyed (list nat)) id found l a :
  choose_array byTarget id = Some (found, l) -> In a l ->
  In a (listed byTarget).
Proof.
  unfold choose_array. destruct (keyed_get byTarget id) as [l0|] eqn:E.
  - intros H. injection H as <- <-. apply (keyed_get_listed _ _ _ _ E).
  - destruct (dflt byTarget) as [l0|] eqn:Ed; [|discriminate].
    intros H. injection H as <- <-.
    apply (keyed_get_listed byTarget DefaultKey). exact Ed.
Qed.

Lemma obj_set_In {V} (o : obj V) k v k' v' :
  In (k', v') (obj_set k v o) -> (k' = k /\ v' = v) \/ In (k', v') o.
Proof.
  induction o as [|[k0 v0] o IH]; simpl.
  - intros [H|[]]. injection H as <- <-. left. split; reflexivity.
  - destruct (String.eqb k k0) eqn:E; simpl.
    + intros [H|H]; [injection H as <- <-; left; split; reflexivity | right; right; exact H].
    + intros [H|H]; [right; left; exact H|].
      destruct (IH H) as [?|?]; [left; assumption | right; right; assumption].
Qed.

Lemma listed_keyed_set (byTarget : Keyed (list nat)) k v a :
  In a (listed (keyed_set k v byTarget)) -> In a v \/ In a (listed byTarget).
Proof.
  unfold listed. destruct k as [|i]; simpl; intros H; apply in_app_or in H.
  - destruct H as [H|H]; [right; apply in_or_app; left; exact H | left; exact H].
  - destruct H as [H|H]; [|right; apply in_or_app; right; exact H].
    apply in_flat_map in H as ([k' v'] & Hin & Ha).
    apply obj_set_In in Hin as [[-> ->]|Hin]; [left; exact Ha|].
    right. apply in_or_app. left. apply in_flat_map. exists (k', v').
    split; assumption.
Qed.


#[local] Instance same_indices_pre : PreOrder same_indices.
Proof.
  split.
  - intros s. repeat split.
  - intros a b c (O1 & P1 & E1 & L1) (O2 & P2 & E2 & L2).
    repeat split; congruence.
Qed.

Lemma listen_condition_indices cache epic f r :
  preserves same_indices (listen_condition cache epic f r).
Proof.
  unfold listen_condition, write_condition, compile_pattern.
  repeat frame_step; repeat split; reflexivity.
Qed.

Section Told.
Variables (s0 : Store) (cache : EpicCache).

(** What [notify] does after it has marked the listener. *)
Lemma notify_marked source epic (acc : Locals) address listener s acc' s' :
  (flags <- foldM (l_conditions listener)
              {| hasRequired := false; hasChangedActive := false;
                 hasUnchangedRequired := false |}
              (listen_condition cache epic) ;;
   if (if hasRequired flags then negb (hasUnchangedRequired flags)
       else hasChangedActive flags)
   then
     heap <- gets conditions ;;
     let params := getHandlerParams heap (l_conditions listener) in
     modify (fun s => set_calls (calls s ++ [ListenerCall address params]) s) ;;
     match l_handler listener params source with
     | Some e => ret (fst acc ++ [address], snd acc ++ [e])
     | None => ret (fst acc ++ [address], snd acc)
     end
   else ret (fst acc ++ [address], snd acc)) s = (Ok acc', s') ->
  fst acc' = fst acc ++ [address] /\ same_indices s s'.
Proof.
  unfold bind at 1.
  pose proof (preserves_foldM same_indices (l_conditions listener)
                {| hasRequired := false; hasChangedActive := false;
                   hasUnchangedRequired := false |}
                (listen_condition cache epic)
                (listen_condition_indices cache epic) s) as Hf.
  destruct (foldM _ _ _ s) as [[flags|e|] s1]; try discriminate.
  cbn [snd] in Hf.
  destruct (if hasRequired flags then _ else _).
  - unfold bind, gets, modify.
    destruct (l_handler listener _ source); unfold ret; intros E;
      injection E as <- <-; (split; [reflexivity|]);
      destruct Hf as (O & P & E & L); repeat split; assumption.
  - unfold ret. intros E. injection E as <- <-. split; [reflexivity | exact Hf].
Qed.

Lemma notify_told source epic acc a s acc' s' :
  telling s0 cache (fst acc) s -> routed s0 cache a ->
  notify cache source epic acc a s = (Ok acc', s') ->
  telling s0 cache (fst acc') s' /\
  (In a (fst acc') \/ processed_at s0 a) /\
  (forall b, In b (fst acc) -> In b (fst acc')).
Proof.
  intros (O & P & E & T & G) Hr. unfold notify, read_listener.
  unfold bind at 1. unfold bind at 1. unfold gets at 1.
  destruct (listeners s !! a) as [L|] eqn:El; [|discriminate].
  unfold ret at 1. destruct (l_processed L) eqn:Ep.
  - intros Eq. injection Eq as <- <-.
    split; [repeat split; assumption|]. split; [|tauto].
    apply G. exists L. split; assumption.
  - unfold bind at 1. unfold write_listener, modify at 1.
    intros Eq. apply notify_marked in Eq as [Ef (O1 & P1 & E1 & L1)].
    cbn [options patternListeners epicListeners listeners set_listeners] in *.
    rewrite Ef. split; [|split].
    + split; [congruence|]. split; [congruence|]. split; [|split].
      * rewrite E1. exact E.
      * intros b Hb. apply in_app_or in Hb as [Hb|[<-|[]]];
          [apply T, Hb | exact Hr].
      * intros b (Lb & Hb & Hp). rewrite L1 in Hb.
        rewrite list_lookup_alter in Hb.
        destruct (decide (a = b)) as [->|N].
        -- left. apply in_or_app. right. left. reflexivity.
        -- destruct (G b) as [H|H]; [exists Lb; split; assumption | |right; exact H].
           left. apply in_or_app. left. exact H.
    + left. apply in_or_app. right. left. reflexivity.
    + intros b Hb. apply in_or_app. left. exact Hb.
Qed.

Lemma notify_all source epic found : forall acc s acc' s',
  telling s0 cache (fst acc) s -> (forall a, In a found -> routed s0 cache a) ->
  foldM found acc (notify cache source epic) s = (Ok acc', s') ->
  telling s0 cache (fst acc') s' /\
  (forall a, In a found -> In a (fst acc') \/ processed_at s0 a) /\
  (forall b, In b (fst acc) -> In b (fst acc')).
Proof.
  induction found as [|a found IH]; intros acc s acc' s' Ht Hr E.
  - cbn in E. injection E as <- <-. split; [exact Ht|]. split; [intros a []|tauto].
  - cbn [foldM] in E. unfold bind in E.
    destruct (notify cache source epic acc a s) as [[acc1|e|] s1] eqn:En;
      try discriminate.
    destruct (notify_told _ _ _ _ _ _ _ Ht (Hr a (or_introl eq_refl)) En)
      as (Ht1 & Ha & Hm1).
    destruct (IH _ _ _ _ Ht1 (fun b Hb => Hr b (or_intror Hb)) E)
      as (Ht' & Hf & Hm).
    split; [exact Ht'|]. split.
    + intros b [<-|Hb]; [|apply Hf, Hb].
      destruct Ha as [Ha|Ha]; [left; apply Hm, Ha | right; exact Ha].
    + intros b Hb. apply Hm, Hm1, Hb.
Qed.


Lemma gather_told epicName id matched told s found s' :
  telling s0 cache told s -> In epicName (obj_keys cache) ->
  (forall key, In key matched ->
     patterns (options s0) = true /\ regex_matches key epicName = true) ->
  gather_listeners epicName id matched s = (Ok found, s') ->
  telling s0 cache told s' /\
  (forall a, In a found -> routed s0 cache a) /\
  (forall key byTarget k l a,
     In key matched -> obj_get (patternListeners s0) key = Some byTarget ->
     choose_array byTarget id = Some (k, l) -> In a l -> In a found).
Proof.
  intros (O & P & E & T & G) Hn Hm. unfold gather_listeners.
  unfold bind at 1. unfold gets at 1. unfold bind at 1. unfold gets at 1.
  rewrite P.
  set (pushed :=
    flat_map
      (fun key =>
         match obj_get (patternListeners s0) key with
         | Some byTarget =>
             match choose_array byTarget id with
             | Some (_, l) => l
             | None => []
             end
         | None => []
         end) matched).
  assert (Hp : forall a, In a pushed -> routed s0 cache a).
  { intros a Ha. apply in_flat_map in Ha as (key & Hk & Ha).
    destruct (Hm key Hk) as [Hpat Hreg].
    destruct (obj_get (patternListeners s0) key) as [byT|] eqn:Eb; [|destruct Ha].
    destruct (choose_array byT id) as [[k l]|] eqn:Ec; [|destruct Ha].
    exists epicName. split; [exact Hn|]. right. split; [exact Hpat|].
    exists key, byT. split; [exact Hreg|]. split; [exact Eb|].
    apply (choose_array_listed _ _ _ _ _ Ec Ha). }
  assert (Hw : forall key byTarget k l a,
     In key matched -> obj_get (patternListeners s0) key = Some byTarget ->
     choose_array byTarget id = Some (k, l) -> In a l -> In a pushed).
  { intros key byT k l a Hk Eb Ec Ha. apply in_flat_map. exists key.
    split; [exact Hk|]. rewrite Eb, Ec. exact Ha. }
  destruct (obj_get (epicListeners s) epicName) as [byT|] eqn:Ee.
  - destruct (choose_array byT id) as [[k l]|] eqn:Ec.
    + unfold bind, modify, ret. intros Eq. injection Eq as <- <-.
      assert (Hl : forall a, In a l -> listens_to s0 epicName a).
      { intros a Ha. apply (E epicName byT a Ee).
        apply (choose_array_listed _ _ _ _ _ Ec Ha). }
      split; [|split].
      * split; [exact O|]. split; [exact P|]. split; [|split; [exact T|exact G]].
        cbn [epicListeners set_epicListeners].
        intros n byT' a Hget Ha.
        destruct (string_dec n epicName) as [->|N].
        -- rewrite obj_get_set_same in Hget. injection Hget as <-.
           apply listed_keyed_set in Ha as [Ha|Ha].
           ++ apply in_app_or in Ha as [Ha|Ha]; [apply Hl, Ha|].
              destruct (Hp a Ha) as (n' & _ & _).
              apply in_flat_map in Ha as (key & Hk & Ha).
              destruct (Hm key Hk) as [Hpat Hreg].
              destruct (obj_get (patternListeners s0) key) as [byP|] eqn:Eb;
                [|destruct Ha].
              destruct (choose_array byP id) as [[k' l']|] eqn:Ec';
                [|destruct Ha].
              right. split; [exact Hpat|].
              exists key, byP. split; [exact Hreg|]. split; [exact Eb|].
              apply (choose_array_listed _ _ _ _ _ Ec' Ha).
           ++ apply (E epicName byT a Ee Ha).
        -- rewrite obj_get_set_other in Hget by exact N.
           apply (E n byT' a Hget Ha).
      * intros a Ha. apply in_app_or in Ha as [Ha|Ha]; [|apply Hp, Ha].
        exists epicName. split; [exact Hn | apply Hl, Ha].
      * intros key byP k' l' a Hk Eb Ec' Ha. apply in_or_app. right.
        apply (Hw key byP k' l' a Hk Eb Ec' Ha).
    + unfold ret. intros Eq. injection Eq as <- <-.
      split; [repeat split; assumption|]. split; [exact Hp | exact Hw].
  - unfold ret. intros Eq. injection Eq as <- <-.
    split; [repeat split; assumption|]. split; [exact Hp | exact Hw].
Qed.

(** One changed instance. *)
Lemma notify_instance source epic epicName matched acc id s acc' s' :
  telling s0 cache (fst acc) s -> In epicName (obj_keys cache) ->
  (forall key, In key matched ->
     patterns (options s0) = true /\ regex_matches key epicName = true) ->
  (patterns (options s0) = true ->
   forall key, In key (obj_keys (patternListeners s0)) ->
     regex_matches key epicName = true -> In key matched) ->
  (found <- gather_listeners epicName id matched ;;
   foldM found acc (notify cache source epic)) s = (Ok acc', s') ->
  telling s0 cache (fst acc') s' /\
  told_of s0 cache epicName id (fst acc') /\
  (forall b, In b (fst acc) -> In b (fst acc')).
Proof.
  intros Ht Hn Hm Hall. unfold bind.
  destruct (gather_listeners epicName id matched s) as [[found|e|] s1] eqn:Eg;
    try discriminate.
  destruct (gather_told _ _ _ _ _ _ _ Ht Hn Hm Eg) as (Ht1 & Hr & Hw).
  intros E. destruct (notify_all _ _ _ _ _ _ _ Ht1 Hr E) as (Ht' & Hf & Hmono).
  split; [exact Ht'|]. split; [|exact Hmono].
  intros Hpat key byT k l a Eb Hreg Ec Ha.
  apply Hf. apply (Hw key byT k l a); try assumption.
  apply Hall; [exact Hpat | | exact Hreg].
  apply obj_get_In_keys. rewrite Eb. discriminate.
Qed.

Lemma told_of_mono n id told told' :
  (forall b, In b told -> In b told') ->
  told_of s0 cache n id told -> told_of s0 cache n id told'.
Proof.
  intros Hm H Hpat key byT k l a Eb Hreg Ec Ha.
  destruct (H Hpat key byT k l a Eb Hreg Ec Ha) as [Hin|Hin];
    [left; apply Hm, Hin | right; exact Hin].
Qed.


(** One changed Epic. *)
Lemma notify_epic source acc epicName s acc' s' :
  telling s0 cache (fst acc) s -> In epicName (obj_keys cache) ->
  (withPatterns <- gets (fun s => patterns (options s)) ;;
   wild <- gets patternListeners ;;
   matchedPatterns <-
     (if withPatterns
      then foldM (obj_keys wild) [] (fun matched key =>
             hit <- test_pattern key epicName ;;
             ret (if hit then matched ++ [key] else matched))
      else ret []) ;;
   epic <- gets (fun s => obj_get (epicRegistry s) epicName) ;;
   let changed :=
     from_option (getInstances truthy) [] (obj_get cache epicName) in
   foldM changed acc (fun acc id =>
     found <- gather_listeners epicName id matchedPatterns ;;
     foldM found acc (notify cache source epic))) s = (Ok acc', s') ->
  telling s0 cache (fst acc') s' /\
  (forall id,
     In id (from_option (getInstances truthy) [] (obj_get cache epicName)) ->
     told_of s0 cache epicName id (fst acc')) /\
  (forall b, In b (fst acc) -> In b (fst acc')).
Proof.
  intros Ht Hn. unfold bind at 1. unfold gets at 1.
  unfold bind at 1. unfold gets at 1. unfold bind at 1.
  destruct Ht as (O & P & E & T & G). rewrite O, P.
  assert (Hmatched : forall matched s1,
    (if patterns (options s0)
     then foldM (obj_keys (patternListeners s0)) [] (fun matched key =>
            hit <- test_pattern key epicName ;;
            ret (if hit then matched ++ [key] else matched))
     else ret []) s = (Ok matched, s1) ->
    s1 = s /\
    (forall key, In key matched ->
       patterns (options s0) = true /\ regex_matches key epicName = true) /\
    (patterns (options s0) = true ->
     forall key, In key (obj_keys (patternListeners s0)) ->
       regex_matches key epicName = true -> In key matched)).
  { intros matched s1. destruct (patterns (options s0)).
    - intros Em. apply matched_patterns in Em as [-> ->]. cbn [app].
      split; [reflexivity|]. split.
      + intros key Hk. apply filter_In in Hk as [_ Hk]. split; [reflexivity|exact Hk].
      + intros _ key Hk Hr. apply filter_In. split; assumption.
    - unfold ret. intros Em. injection Em as <- <-.
      split; [reflexivity|]. split; [intros key []|discriminate]. }
  match goal with
  | |- match ?X with _ => _ end = _ -> _ =>
      destruct X as [[matched|e|] s1] eqn:Em; try discriminate
  end.
  destruct (Hmatched matched s1 eq_refl) as (-> & Hm & Hall).
  clear Hmatched Em.
  unfold bind at 1. unfold gets at 1. cbv zeta.
  intros Ef.
  pose proof (foldM_ok (fun _ : InstKey => True)
                (fun (b : Locals) s =>
                   telling s0 cache (fst b) s /\
                   forall a, In a (fst acc) -> In a (fst b))
                (fun id (b : Locals) (_ : Store) =>
                   told_of s0 cache epicName id (fst b))
                (fun acc id =>
                   found <- gather_listeners epicName id matched ;;
                   foldM found acc
                     (notify cache source (obj_get (epicRegistry s) epicName))))
    as Hfold.
  destruct (Hfold) with (l := from_option (getInstances truthy) []
                                 (obj_get cache epicName))
                        (b0 := acc) (s := s) (b := acc') (s' := s')
    as [[Ht' Hmono] Hq].
  - intros b id s2 b' s2' _ [Hb Hinc] Es.
    destruct (notify_instance _ _ _ _ _ _ _ _ _ Hb Hn Hm Hall Es)
      as (Hb' & Hto & Hmo).
    split; [|exact Hto]. split; [exact Hb'|].
    intros a Ha. apply Hmo, Hinc, Ha.
  - intros id b s2 b' id' s2' _ Hto [Hb Hinc] Es.
    destruct (notify_instance _ _ _ _ _ _ _ _ _ Hb Hn Hm Hall Es)
      as (_ & _ & Hmo).
    apply (told_of_mono _ _ _ _ Hmo Hto).
  - apply List.Forall_forall. intros; exact I.
  - split; [repeat split; assumption | tauto].
  - exact Ef.
  - split; [exact Ht'|]. split; [exact Hq | exact Hmono].
Qed.

Lemma telling_start : telling s0 cache [] s0.
Proof.
  split; [reflexivity|]. split; [reflexivity|]. split; [|split].
  - intros n byT a Hg Ha. left. exists byT. split; assumption.
  - intros a [].
  - intros a Ha. right. exact Ha.
Qed.

Lemma notify_listeners_told source told errors s' :
  notify_listeners cache source s0 = (Ok (told, errors), s') ->
  (forall a, In a told -> routed s0 cache a) /\
  (forall n k id,
     obj_get cache n = Some k -> In id (getInstances truthy k) ->
     told_of s0 cache n id told).
Proof.
  unfold notify_listeners. intros E.
  pose proof (foldM_ok (fun n => In n (obj_keys cache))
                (fun (b : Locals) s => telling s0 cache (fst b) s)
                (fun n (b : Locals) (_ : Store) =>
                   forall id,
                     In id (from_option (getInstances truthy) []
                              (obj_get cache n)) ->
                     told_of s0 cache n id (fst b))) as Hfold.
  edestruct Hfold as [Ht Hq]; [| | | |exact E|].
  - intros b n s b' s1 Hn Hb Es.
    destruct (notify_epic _ _ _ _ _ _ Hb Hn Es) as (Hb' & Hto & _).
    split; assumption.
  - intros n b s b' n' s1 Hn' Hto Hb Es id Hid.
    destruct (notify_epic _ _ _ _ _ _ Hb Hn' Es) as (_ & _ & Hmo).
    apply (told_of_mono _ _ _ _ Hmo (Hto id Hid)).
  - apply List.Forall_forall. tauto.
  - exact telling_start.
  - cbn [fst] in *. split; [apply Ht|].
    intros n k id Hk Hid. apply (Hq n).
    + apply obj_get_In_keys. rewrite Hk. discriminate.
    + rewrite Hk. exact Hid.
Qed.

End Told.

Lemma processEpicListeners_eq cache source :
  processEpicListeners cache source =
  (acc <- notify_listeners cache source ;;
   forEach (fst acc) (fun address =>
     listener <- read_listener address ;;
     forEach (l_conditions listener) (reset_ref true) ;;
     write_listener address (set_processed false)) ;;
   free_identifier "errors").
Proof. reflexivity. Qed.


Lemma dotted_items_plain p :
  Pattern.plain p = true -> Pattern.dotted_items p = Pattern.wildcard_items p.
Proof.
  induction p as [|c p IH]; [reflexivity|].
  cbn [Pattern.plain Pattern.dotted_items Pattern.wildcard_items]. intros H.
  apply andb_prop in H as [Hc Hp]. rewrite (IH Hp). f_equal.
  unfold Pattern.dotted_item, Pattern.wildcard_item, Pattern.atom_of.
  destruct (c =? "*")%char; [reflexivity|]. cbn [orb] in Hc.
  apply negb_true_iff in Hc. apply orb_false_elim in Hc as [_ Hc].
  rewrite Hc. reflexivity.
Qed.

Lemma dotted_pattern_test pattern type :
  Pattern.dotted pattern = true ->
  Pattern.pattern_test pattern type
    = Pattern.Answers (Pattern.matches (Pattern.dotted_items pattern) type).
Proof.
  intros H. unfold Pattern.pattern_test.
  assert (E : Pattern.getRegexFromPattern pattern
              = Pattern.Parsed (Pattern.dotted_items pattern)).
  { unfold Pattern.getRegexFromPattern, Pattern.RegExp. cbn.
    apply parse_items_dotted, H. }
  rewrite E. reflexivity.
Qed.


End Routing.

(** ** More of the code, on concrete inputs *)


Lemma register_outcomes_witness :
  fst (register constructor_epic (createStore plain_options)) = Ok tt \/
  fst (register constructor_epic (createStore plain_options))
    = Throw (Invariant duplicateEpic) \/
  fst (register constructor_epic (createStore plain_options))
    = Throw (Invariant invalidConditionType) \/
  fst (register constructor_epic (createStore plain_options))
    = Throw (Invariant invalidConditionSelector) \/
  fst (register constructor_epic (createStore plain_options))
    = Throw (Invariant noPassiveUpdaters) \/
  fst (register constructor_epic (createStore plain_options)) = Throw TypeError.
Proof.
  exact (register_outcomes constructor_epic (createStore plain_options)
           (le_n 1)).
Defined.

(** Names that the registries inherit: an Epic cannot be registered
    under one, a reducer cannot await one, and a listener cannot await an
    instance of that name. *)
Lemma inherited_names :
  fst (register (epic_in "toString" false []) (createStore plain_options))
    = Throw (Invariant duplicateEpic) /\
  fst (register constructor_epic (createStore plain_options))
    = Throw TypeError /\
  fst (addListener [constructor_target] silent counter_store)
    = Throw TypeError /\
  obj_keys
    (epicListeners (snd (addListener [constructor_target] silent counter_store)))
    = ["e1"].
Proof. repeat split; vm_compute; reflexivity. Qed.


Lemma processCondition_allocates_witness :
  exists new,
    snd (processCondition (InArr [InStr "a"; InArr [InStr "b"]]) counter_store)
      = set_conditions (conditions counter_store ++ new) counter_store /\
    addresses (Arr [Ref 1; Arr [Ref 2]])
      = seq (length (conditions counter_store)) (length new).
Proof.
  destruct (processCondition_allocates (InArr [InStr "a"; InArr [InStr "b"]])
              counter_store) as (new & H1 & H2 & _).
  exists new. split; [exact H1|]. apply H2. reflexivity.
Defined.

Lemma splitConditions_shape_witness :
  splitConditions [Ref 0; Ref 1] = [[Ref 0; Ref 1]].
Proof.
  exact (proj2 (proj2 (splitConditions_shape [Ref 0; Ref 1])) eq_refl).
Defined.

Lemma splitConditions_product_witness :
  splitConditions nested_conditions
  = [[Ref 0; Ref 1; Ref 4]; [Ref 0; Ref 2; Ref 4]; [Ref 0; Ref 3; Ref 4]].
Proof.
  exact (proj1 (splitConditions_product nested_conditions eq_refl)).
Defined.

Lemma unregister_removes_witness :
  fst (unregister (ByName "e1") counter_store) = Ok tt.
Proof.
  exact (proj1 (unregister_removes (ByName "e1") counter_store eq_refl)).
Defined.

Lemma unregister_after_failed_register_witness :
  unregister (ByName "e") (registered half_valid_epic (createStore plain_options))
  = (Ok tt, registered half_valid_epic (createStore plain_options)).
Proof.
  apply (unregister_after_failed_register half_valid_epic
           (createStore plain_options)
           (registered half_valid_epic (createStore plain_options))
           (Invariant noPassiveUpdaters)).
  - reflexivity.
  - discriminate.
Defined.

Lemma register_after_unregister_witness :
  fst (register counter_epic (snd (unregister (ByName "e1") counter_store)))
  <> Throw (Invariant duplicateEpic).
Proof.
  exact (register_after_unregister (ByName "e1") counter_epic counter_store
           eq_refl eq_refl).
Defined.

Lemma processAction_refuses_witness :
  processAction 1 (plain_action "e1") true counter_store
    = (Throw (Invariant invalidEpicAction), counter_store) /\
  processAction 1 (plain_action "a") true pumped_store
    = (Throw (Invariant noRepeatedExternalAction), pumped_store).
Proof.
  split.
  - exact (proj1 (processAction_refuses 0 (plain_action "e1") counter_store)
             eq_refl).
  - exact (proj2 (processAction_refuses 0 (plain_action "a") pumped_store)
             eq_refl eq_refl).
Defined.

Lemma external_action_once_witness :
  processAction 1 (plain_action "a") true
    (snd (processAction 1 (plain_action "a") true counter_store))
  = (Throw (Invariant noRepeatedExternalAction),
     snd (processAction 1 (plain_action "a") true counter_store)).
Proof.
  exact (external_action_once 0 0 (plain_action "a") (plain_action "a")
           counter_store eq_refl eq_refl eq_refl).
Defined.

Lemma malformed_pattern_blocks_witness :
  fst (processAction 1 (plain_action "go") true malformed_store) <> Ok tt.
Proof.
  apply (malformed_pattern_blocks 0 (plain_action "go") true malformed_store
           "*+").
  - reflexivity.
  - vm_compute. left. reflexivity.
  - reflexivity.
Defined.

Lemma literal_and_star_patterns_witness :
  Pattern.pattern_test "epic1" "epic2" = Pattern.Answers false /\
  Pattern.pattern_test "epic1" "epic1" = Pattern.Answers true.
Proof.
  split.
  - exact (proj1 (literal_and_star_patterns "epic1" "epic2") eq_refl eq_refl).
  - exact (proj1 (literal_and_star_patterns "epic1" "epic1") eq_refl eq_refl).
Defined.

Lemma second_dispatch_refused_witness :
  dispatch false 3 (ActStr "b") (snd (dispatch false 3 (ActStr "a") counter_store))
  = (Throw (Invariant noDispatchInEpicListener),
     snd (dispatch false 3 (ActStr "a") counter_store)).
Proof.
  apply (second_dispatch_refused 3 3 (ActStr "a") (ActStr "b") counter_store).
  - reflexivity.
  - reflexivity.
  - vm_compute. discriminate.
Defined.

Lemma strict_cycle_stays_open_witness :
  inCycle (snd (dispatch true 3 (ActStr "a") counter_store)) = true.
Proof.
  exact (proj1 (strict_cycle_stays_open 3 3 (ActStr "a") (ActStr "b")
                  counter_store eq_refl)).
Defined.

Lemma falsy_state_tells_nobody_witness :
  snd (processEpicListeners zero_cache None listening_store) = listening_store.
Proof.
  apply (falsy_state_tells_nobody zero_cache None listening_store).
  intros n k H. simpl in H. destruct (String.eqb n "e1"); [|discriminate].
  injection H as <-. split; [reflexivity|].
  intros v E. injection E as <-. reflexivity.
Defined.

Lemma subscribe_then_unsubscribe_witness :
  fst (unsubscribe e1_subscription listening_store) = Ok tt /\
  In 0 (listeners_at (epicListeners listening_store) "e1" DefaultKey) /\
  forall t tg,
    listeners_at
      (epicListeners (snd (unsubscribe e1_subscription listening_store))) t tg
    = listeners_at (epicListeners counter_store) t tg.
Proof.
  destruct (subscribe_then_unsubscribe [InStr "e1"] silent counter_store
              listening_store e1_subscription eq_refl) as (_ & H2 & H3 & H4 & _).
  - intros t tg. split; intros [].
  - split; [exact H3|]. split.
    + apply (H2 false "e1" DefaultKey). left. reflexivity.
    + intros t tg. apply (H4 t tg).
Defined.

Lemma addListener_failure_witness :
  exists new,
    snd (addListener [InStr "a"; untyped] silent counter_store)
    = set_conditions (conditions counter_store ++ new) counter_store.
Proof.
  apply (proj2 (addListener_failure [InStr "a"; untyped] silent counter_store
                  (snd (addListener [InStr "a"; untyped] silent counter_store))
                  (Invariant invalidConditionType) eq_refl)).
  discriminate.
Defined.

Lemma undo_redo_blank_entry_witness :
  snd (store_redo (snd (store_undo blank_store))) = blank_store.
Proof.
  apply (undo_redo_blank_entry blank_store blank_entry).
  - reflexivity.
  - reflexivity.
  - intros n k H. simpl in H. destruct (String.eqb n "e1"); [|discriminate].
    injection H as <-. split; reflexivity.
Defined.

Lemma undo_loses_recorded_entry_witness :
  store_undo recorded_store
  = (Throw TypeError, set_undoStack [] recorded_store).
Proof.
  eapply (undo_loses_recorded_entry recorded_store recorded_entry "e1").
  - reflexivity.
  - reflexivity.
  - reflexivity.
  - right. discriminate.
Defined.

Lemma commit_conditions_effect_witness :
  exists c',
    conditions (snd (commit_conditions true pumped_store)) !! 0 = Some c' /\
    cond__value c' = None /\ cond_matchedPattern c' = false /\
    cond_value c' = Undefined.
Proof.
  destruct (commit_conditions_effect true pumped_store) as (_ & _ & H).
  destruct (H 0 _ eq_refl) as [H1 _].
  apply H1. left. reflexivity.
Defined.

Lemma on_object_format_witness :
  exists u,
    EpicClass._updaters
      (EpicClass.on (EpicClass.ObjectFormat xy_conditions) keep bare_epic)
      = [u] /\
    EpicClass.up_conditions u = [InStr "a"; InStr "b"] /\
    EpicClass.up_handler u [Num 1; Num 2] first_context
      = EpicClass.h_run keep
          (EpicClass.ObjectValues [("x", Num 1); ("y", Num 2)]) first_context.
Proof.
  apply (on_object_format xy_conditions keep bare_epic [Num 1; Num 2]
           first_context).
  - repeat constructor; simpl; intuition discriminate.
  - reflexivity.
Defined.
